(** * write-ahead-log: the index file, the log file and the WAL facade

    A shallow embedding of [src/log-index-file.js], [src/write-ahead-log.js]
    and [src/queue.js], and the properties of the write / read / commit /
    truncate / recover / readRange protocol proved over it.

    JavaScript numbers are modelled as [Z] (every number the code handles is
    an integer), node [Buffer]s as [list byte], the cached header and the two
    files as explicit state threaded through a small state-and-failure monad
    that keeps a synchronous [throw] apart from a rejected promise. *)

From Stdlib Require Import ZArith Lia Strings.String Strings.Byte DecimalString.
From stdpp Require Import base list.

Local Open Scope Z_scope.

(** ** Buffers *)

Module Buffer.

Abbreviation t := (list byte) (only parsing).

Definition byte_to_Z (b : byte) : Z := Z.of_N (Byte.to_N b).

(** Storing a number into a [Uint8Array] cell keeps its low eight bits. *)
Definition to_uint8 (z : Z) : byte :=
  default x00 (Byte.of_N (Z.to_N (Z.land z 255))).

(** [this[i]] inside [<<] and [|]: an index past the end reads
    [undefined], which both operators coerce to 0. *)
Definition octet (buf : t) (i : nat) : Z :=
  from_option byte_to_Z 0 (buf !! i).

(** The result of [|] is a signed 32-bit integer. *)
Definition to_int32 (z : Z) : Z :=
  let m := z mod 2 ^ 32 in
  if m <? 2 ^ 31 then m else m - 2 ^ 32.

(** [>>>] first converts its left operand to an unsigned 32-bit integer. *)
Definition ushr (z : Z) (n : Z) : Z := Z.shiftr (z mod 2 ^ 32) n.

(** [buf.readInt32BE(offset, noAssert)] with a truthy [noAssert]:
    [(this[offset] << 24) | (this[offset + 1] << 16) |
     (this[offset + 2] << 8) | this[offset + 3]]. *)
Definition readInt32BE (buf : t) (offset : nat) : Z :=
  to_int32
    (Z.lor (Z.lor (Z.lor (Z.shiftl (octet buf offset) 24)
                         (Z.shiftl (octet buf (offset + 1)) 16))
                  (Z.shiftl (octet buf (offset + 2)) 8))
           (octet buf (offset + 3))).

(** The four octets [writeInt32BE] stores for [value]. *)
Definition int32_octets (value : Z) : t :=
  [to_uint8 (ushr value 24); to_uint8 (ushr value 16);
   to_uint8 (ushr value 8); to_uint8 value].

(** [buf.writeInt32BE(value, offset, noAssert)] with a truthy [noAssert]:
    [this[offset] = value >>> 24; this[offset + 1] = value >>> 16;
     this[offset + 2] = value >>> 8; this[offset + 3] = value];
    a store past the end of the buffer is dropped. *)
Definition writeInt32BE (buf : t) (value : Z) (offset : nat) : t :=
  <[(offset + 3)%nat := to_uint8 value]>
    (<[(offset + 2)%nat := to_uint8 (ushr value 8)]>
       (<[(offset + 1)%nat := to_uint8 (ushr value 16)]>
          (<[offset := to_uint8 (ushr value 24)]> buf))).

(** [allocFill(len)]: [len] zero octets. *)
Definition allocFill (len : nat) : t := replicate len x00.

(** [buf.slice(first, first + len)]. *)
Definition slice (buf : t) (first len : nat) : t := take len (drop first buf).

End Buffer.

(** ** Failures, promises and state *)

Inductive error :=
| AssertionError (msg : string)
| Error (msg : string)
| SystemError (code : string)
| TypeError.

(** What a call produces: a value ([Resolved]: the returned value of a
    synchronous call, or the value a returned promise resolves with), a
    promise that rejects, an exception thrown before any promise is
    returned, or a promise still [Pending] when the evaluation budget of a
    recursive chain of callbacks is used up. *)
Inductive outcome (A : Type) :=
| Resolved (a : A)
| Rejected (e : error)
| Thrown (e : error)
| Pending.
Arguments Resolved {A} a.
Arguments Rejected {A} e.
Arguments Thrown {A} e.
Arguments Pending {A}.

Definition M (S A : Type) : Type := S -> outcome A * S.

Definition ret {S A} (a : A) : M S A := fun s => (Resolved a, s).
Definition throw {S A} (e : error) : M S A := fun s => (Thrown e, s).
Definition reject {S A} (e : error) : M S A := fun s => (Rejected e, s).

(** Sequencing of statements: a failure of the first ends the function. *)
Definition bind {S A B} (m : M S A) (k : A -> M S B) : M S B :=
  fun s =>
    match m s with
    | (Resolved a, s') => k a s'
    | (Rejected e, s') => (Rejected e, s')
    | (Thrown e, s') => (Thrown e, s')
    | (Pending, s') => (Pending, s')
    end.

(** An exception thrown inside a [then] callback rejects the promise that
    [then] returned. *)
Definition settle {S B} (r : outcome B * S) : outcome B * S :=
  match r with
  | (Thrown e, s) => (Rejected e, s)
  | r => r
  end.

(** [p.then(k)]. *)
Definition and_then {S A B} (p : M S A) (k : A -> M S B) : M S B :=
  fun s =>
    match p s with
    | (Resolved a, s') => settle (k a s')
    | (Rejected e, s') => (Rejected e, s')
    | (Thrown e, s') => (Thrown e, s')
    | (Pending, s') => (Pending, s')
    end.

Definition get_state {S} : M S S := fun s => (Resolved s, s).

(** [assert.ok(cond, msg)]. *)
Definition assert_ok {S} (cond : bool) (msg : string) : M S unit :=
  if cond then ret tt else throw (AssertionError msg).

(** Run a computation on a component of the state. *)
Definition zoom {S T A} (get : S -> T) (set : T -> S -> S) (m : M T A) : M S A :=
  fun s => let '(r, t') := m (get s) in (r, set t' s).

Declare Scope wal_scope.
Delimit Scope wal_scope with wal.
Notation "'let!' x ':=' m 'in' k" := (bind m (fun x => k))
  (at level 10, x binder, m at level 100, k at level 200) : wal_scope.
Notation "'do!' m 'in' k" := (bind m (fun _ => k))
  (at level 10, m at level 100, k at level 200) : wal_scope.
Notation "p '.then' k" := (and_then p k)
  (at level 50, left associativity) : wal_scope.
Local Open Scope wal_scope.

(** A value handed to [write]: the payload may be missing or of the wrong
    type. *)
Inductive jsval :=
| JUndefined
| JString (s : string)
| JNumber (z : Z)
| JBuffer (b : Buffer.t).

(** An optional boolean argument ([options.writable], [writable]) where
    the code tests its truth or compares it with [true]; [None] is an
    omitted argument. *)
Definition truthy (b : option bool) : bool := default false b.

(** ** The random-access file *)

Module RandomAccessFile.

(** Modelled from the spec: the [ranfile] package is an external
    dependency and not part of the sources. A file is its bytes, whether
    its descriptor is open, and whether it was opened writable (the
    contract of section 4.A of the specification). *)
Record t := { content : Buffer.t; descriptor : bool; writable : bool }.

(** Modelled from the spec: the byte length of the file, which the
    [size] property gives while the file is open; the getter of a closed
    file throws. *)
Definition size (f : t) : Z := Z.of_nat (length (content f)).

(** Overwrite [content] with [data] from position [off], zero-filling a
    gap between the end of the file and [off]. *)
Fixpoint splice (off : nat) (data content : Buffer.t) : Buffer.t :=
  match off with
  | O => data ++ drop (length data) content
  | S off' =>
      match content with
      | [] => x00 :: splice off' data []
      | b :: rest => b :: splice off' data rest
      end
  end.

(** The first [n] bytes of [content], zero-filled when it is shorter. *)
Definition resize (n : nat) (content : Buffer.t) : Buffer.t :=
  take n content ++ replicate (n - length content) x00.

(** Modelled from the spec: [read(offset, length)] resolves with the bytes
    of the range and changes nothing; a range that passes the end of the
    file rejects with 'Unexpected end of file'. The codes of the
    rejections on a closed descriptor or a negative argument stand for
    whatever the operating system reports. *)
Definition read (offset len : Z) : M t Buffer.t :=
  fun f =>
    if negb (descriptor f) then (Rejected (SystemError "EBADF"), f)
    else if (offset <? 0) || (len <? 0) then (Rejected (SystemError "EINVAL"), f)
    else if size f <? offset + len then (Rejected (Error "Unexpected end of file"), f)
    else (Resolved (Buffer.slice (content f) (Z.to_nat offset) (Z.to_nat len)), f).

(** Modelled from the spec: [write(offset, data[, first, length])] stores
    the bytes at [offset], extends the file when it writes past its end,
    and resolves with the offset after the last byte written. A write of
    no byte at all rejects with 'Unexpected end of file' and stores
    nothing: the payload of an entry is a non-empty buffer. The test
    suite fixes its failure on a payload that is not a Buffer:
    AssertionError 'data (Buffer) is required'. *)
Definition write (offset : Z) (data : jsval) (first len : option Z) : M t Z :=
  fun f =>
    match data with
    | JBuffer buf =>
        let first := default 0 first in
        let len := default (Z.of_nat (length buf) - first) len in
        if negb (descriptor f && writable f) then (Rejected (SystemError "EBADF"), f)
        else if (offset <? 0) || (first <? 0) || (len <? 0)
        then (Rejected (SystemError "EINVAL"), f)
        else
          let src := Buffer.slice buf (Z.to_nat first) (Z.to_nat len) in
          if Z.of_nat (length src) =? 0
          then (Rejected (Error "Unexpected end of file"), f)
          else
            (Resolved (offset + Z.of_nat (length src)),
             {| content := splice (Z.to_nat offset) src (content f);
                descriptor := descriptor f; writable := writable f |})
    | _ => (Thrown (AssertionError "data (Buffer) is required"), f)
    end.

(** Modelled from the spec: [truncate(newSize)] sets the size of the file
    and resolves with it. *)
Definition truncate (newSize : Z) : M t Z :=
  fun f =>
    if negb (descriptor f && writable f) then (Rejected (SystemError "EBADF"), f)
    else if newSize <? 0 then (Rejected (SystemError "EINVAL"), f)
    else (Resolved newSize,
          {| content := resize (Z.to_nat newSize) (content f);
             descriptor := descriptor f; writable := writable f |}).

(** Modelled from the spec: [close()] releases the descriptor; closing a
    closed file resolves as well. *)
Definition close : M t unit :=
  fun f =>
    (Resolved tt,
     {| content := content f; descriptor := false; writable := writable f |}).

(** Modelled from the spec: [RandomAccessFile.create(path)] on a path
    that names no file: a new, empty, writable file. *)
Definition create : t := {| content := []; descriptor := true; writable := true |}.

(** Modelled from the spec: [RandomAccessFile.open(path, writable)], where
    [disk] is the content of the file the path names, [None] when it names
    no file; the test suite fixes the code of that rejection, ENOENT. *)
Definition open_path (disk : option Buffer.t) (writable : bool) : outcome t :=
  match disk with
  | Some c => Resolved {| content := c; descriptor := true; writable := writable |}
  | None => Rejected (SystemError "ENOENT")
  end.

(** Modelled from the spec: [RandomAccessFile.create(path)] presumes that
    the path names no file and fails when it does; the code stands for
    whatever the operating system reports. *)
Definition create_path (disk : option Buffer.t) : outcome t :=
  match disk with
  | None => Resolved create
  | Some _ => Rejected (SystemError "EEXIST")
  end.

End RandomAccessFile.

(** ** The index file: [src/log-index-file.js] *)

(** Template-literal interpolation of an integer. *)
Definition show (z : Z) : string := NilZero.string_of_int (Z.to_int z).

Module LogIndexFile.

Definition MARKER : string := "IDX$".
Definition OFS_MARKER : Z := 0.
Definition OFS_BASEINDEX : Z := 4.
Definition OFS_HEAD : Z := 8.
Definition OFS_COMMIT : Z := 12.
Definition HLEN : Z := 16.
Definition SIZEOF_INT : Z := 4.
Definition DEF_COMMIT : Z := -1.

(** The object: the file handle and the cached header, [null] until
    [open] and after [close]. *)
Record t := { file : RandomAccessFile.t; header : option Buffer.t }.

(** What [get] resolves with, and an element of [getRange]'s array. *)
Record rec := { rec_offset : Z; rec_length : Z }.
Record range_rec := { rng_index : Z; rng_offset : Z; rng_length : Z }.

Definition on_file {A} (m : M RandomAccessFile.t A) : M t A :=
  zoom file (fun f s => {| file := f; header := header s |}) m.

Definition set_header (h : option Buffer.t) : M t unit :=
  fun s => (Resolved tt, {| file := file s; header := h |}).

(** [assert.ok(this[$header], 'index must be open')], giving the header. *)
Definition open_header : M t Buffer.t :=
  fun s =>
    match header s with
    | Some h => (Resolved h, s)
    | None => (Thrown (AssertionError "index must be open"), s)
    end.

(** [buf.toString('ascii', first, last)]: each octet with its high bit
    cleared. *)
Definition toString_ascii (buf : Buffer.t) (first last : nat) : string :=
  string_of_list_byte
    (map (fun b => Buffer.to_uint8 (Z.land (Buffer.byte_to_Z b) 127))
         (Buffer.slice buf first (last - first))).

Definition marker : M t string :=
  let! h := open_header in
  ret (toString_ascii h (Z.to_nat OFS_MARKER) (Z.to_nat OFS_BASEINDEX)).

Definition baseIndex : M t Z :=
  let! h := open_header in ret (Buffer.readInt32BE h (Z.to_nat OFS_BASEINDEX)).

Definition head : M t Z :=
  let! h := open_header in ret (Buffer.readInt32BE h (Z.to_nat OFS_HEAD)).

Definition commitHead : M t Z :=
  let! h := open_header in ret (Buffer.readInt32BE h (Z.to_nat OFS_COMMIT)).

Definition isCommitted (index : Z) : M t bool :=
  do! open_header in
  let! c := commitHead in
  ret (index <? c).

Definition out_of_order (expected index : Z) : string :=
  String.append "Out of order commit; expected "
    (String.append (show expected)
       (String.append " but received " (String.append (show index) "."))).

Definition commit (index : Z) : M t Z :=
  do! open_header in
  let! c := commitHead in
  let expected := c + 1 in
  if index <? expected then ret index
  else if negb (index =? expected) then reject (Error (out_of_order expected index))
  else
    let! h := open_header in
    let h' := Buffer.writeInt32BE h index (Z.to_nat OFS_COMMIT) in
    do! set_header (Some h') in
    (on_file (RandomAccessFile.write OFS_COMMIT (JBuffer h')
                (Some OFS_COMMIT) (Some SIZEOF_INT)))
    .then (fun _ => ret index).

Definition localizeIndex (index : Z) : M t Z :=
  let! b := baseIndex in ret (index - b).

Definition globalizeIndex (index : Z) : M t Z :=
  let! b := baseIndex in ret (index + b).

Definition offset (index : Z) : M t Z :=
  let! h := head in
  do! assert_ok (index <=? h) "index out of range" in
  do! open_header in
  let! i := localizeIndex index in
  let ofs := HLEN + i * SIZEOF_INT in
  (on_file (RandomAccessFile.read ofs SIZEOF_INT))
  .then (fun data => ret (Buffer.readInt32BE data 0)).

Definition get (index : Z) : M t rec :=
  let! h := head in
  do! assert_ok (index <? h) "index out of range" in
  do! open_header in
  let! i := localizeIndex index in
  let ofs := HLEN + i * SIZEOF_INT in
  (on_file (RandomAccessFile.read ofs (2 * SIZEOF_INT)))
  .then (fun data =>
           let offset := Buffer.readInt32BE data 0 in
           ret {| rec_offset := offset;
                  rec_length := Buffer.readInt32BE data (Z.to_nat SIZEOF_INT) - offset |}).

(** The body of [while (++i < count) { ... result.push(...) }], for the
    iterations left when the counter is [i]. *)
Fixpoint getRange_loop (iterations : nat) (i : nat) (index : Z) (data : Buffer.t)
  : list range_rec :=
  match iterations with
  | O => []
  | S n =>
      let offset := Buffer.readInt32BE data (i * Z.to_nat SIZEOF_INT) in
      {| rng_index := index + Z.of_nat i;
         rng_offset := offset;
         rng_length :=
           Buffer.readInt32BE data ((i + 1) * Z.to_nat SIZEOF_INT) - offset |}
        :: getRange_loop n (S i) index data
  end.

Definition getRange (index count : Z) : M t (list range_rec) :=
  let! h := head in
  do! assert_ok (index <? h) "index out of range" in
  do! open_header in
  let! h := head in
  let limit := h - index in
  do! assert_ok (count <=? limit) "count puts index out of range" in
  let! i := localizeIndex index in
  let ofs := HLEN + i * SIZEOF_INT in
  (on_file (RandomAccessFile.read ofs ((count + 1) * SIZEOF_INT)))
  .then (fun data => ret (getRange_loop (Z.to_nat count) 0 index data)).

Definition truncate (from : Z) : M t Z :=
  let! c := commitHead in
  do! assert_ok (c <? from) "cannot truncate a committed log entry" in
  let! h := head in
  do! assert_ok (from <? h) "index out of range" in
  let! hdr := open_header in
  let hdr' := Buffer.writeInt32BE hdr from (Z.to_nat OFS_HEAD) in
  do! set_header (Some hdr') in
  (on_file (RandomAccessFile.write OFS_HEAD (JBuffer hdr')
              (Some OFS_HEAD) (Some SIZEOF_INT)))
  .then (fun _ =>
           let! h := head in
           let! b := baseIndex in
           if h =? b then
             (on_file (RandomAccessFile.read HLEN SIZEOF_INT))
             .then (fun data =>
                      ret {| rec_offset := Buffer.readInt32BE data 0;
                             rec_length := 0 |})
           else get (h - 1))
  .then (fun rec => ret (rec_offset rec + rec_length rec)).

Definition increment (offset : Z) : M t Z :=
  let! hdr := open_header in
  let! current := head in
  let next := current + 1 in
  let! i := localizeIndex next in
  let ofs := HLEN + i * SIZEOF_INT in
  let data :=
    Buffer.writeInt32BE (Buffer.allocFill (Z.to_nat SIZEOF_INT)) offset 0 in
  (on_file (RandomAccessFile.write ofs (JBuffer data) None None))
  .then (fun _ =>
           let hdr' := Buffer.writeInt32BE hdr next (Z.to_nat OFS_HEAD) in
           do! set_header (Some hdr') in
           on_file (RandomAccessFile.write OFS_HEAD (JBuffer hdr')
                      (Some OFS_HEAD) (Some SIZEOF_INT)))
  .then (fun _ => ret current).

(** [open()] on the instance. *)
Definition open : M t unit :=
  let! s := get_state in
  do! assert_ok (negb (bool_decide (is_Some (header s)))) "index already open" in
  (on_file (RandomAccessFile.read OFS_MARKER HLEN))
  .then (fun data =>
           let marker :=
             toString_ascii data (Z.to_nat OFS_MARKER) (Z.to_nat OFS_BASEINDEX) in
           if negb (String.eqb marker MARKER) then
             throw (Error (String.append
                             "Invalid index file; expected file marker to be "
                             (String.append MARKER
                                (String.append " but found "
                                   (String.append marker ".")))))
           else set_header (Some data)).

Definition close : M t unit :=
  (on_file RandomAccessFile.close).then (fun _ => set_header None).

(** [new LogIndexFile(file)]. *)
Definition new (f : RandomAccessFile.t) : outcome t :=
  if RandomAccessFile.size f <? HLEN
  then Thrown (Error "File too small to be an index file.")
  else Resolved {| file := f; header := None |}.

(** [data.write(MARKER, 'ascii')]: the string's octets from position 0. *)
Definition write_ascii (buf : Buffer.t) (s : string) : Buffer.t :=
  let src := take (length buf) (list_byte_of_string s) in
  src ++ drop (length src) buf.

(** [create(path, baseIndex, byteOffset)] on a path that names no file:
    the promise of the opened index. *)
Definition create (baseIndex byteOffset : option Z) : outcome t :=
  let baseIndex := default 0 baseIndex in
  let byteOffset := default 0 byteOffset in
  let data := Buffer.allocFill (Z.to_nat (HLEN + SIZEOF_INT)) in
  let data := write_ascii data MARKER in
  let data := Buffer.writeInt32BE data baseIndex (Z.to_nat OFS_BASEINDEX) in
  let data := Buffer.writeInt32BE data baseIndex (Z.to_nat OFS_HEAD) in
  let data := Buffer.writeInt32BE data DEF_COMMIT (Z.to_nat OFS_COMMIT) in
  let data := Buffer.writeInt32BE data byteOffset (Z.to_nat HLEN) in
  match RandomAccessFile.write OFS_MARKER (JBuffer data) None None
          RandomAccessFile.create with
  | (Resolved _, f) =>
      match new f with
      | Resolved idx =>
          match open idx with
          | (Resolved _, idx') => Resolved idx'
          | (Rejected e, _) | (Thrown e, _) => Rejected e
          | (Pending, _) => Pending
          end
      | Rejected e | Thrown e => Rejected e
      | Pending => Pending
      end
  | (Rejected e, _) | (Thrown e, _) => Rejected e
  | (Pending, _) => Pending
  end.

(** The static [open(path, writable)]:
    [RandomAccessFile.open(path, writable === true)
       .then(file => new LogIndexFile(file).open())]. *)
Definition open_path (disk : option Buffer.t) (writable : option bool) : outcome t :=
  match RandomAccessFile.open_path disk (truthy writable) with
  | Resolved file =>
      match new file with
      | Resolved idx =>
          match open idx with
          | (Resolved _, idx') => Resolved idx'
          | (Rejected e, _) | (Thrown e, _) => Rejected e
          | (Pending, _) => Pending
          end
      | Rejected e | Thrown e => Rejected e
      | Pending => Pending
      end
  | Rejected e => Rejected e
  | Thrown e => Thrown e
  | Pending => Pending
  end.

(** [create(path, baseIndex, byteOffset)] on any path: the promise of
    [RandomAccessFile.create(path)] rejects when the path names a file,
    and the callbacks of [create] run when it names none. *)
Definition create_path (disk : option Buffer.t) (baseIndex byteOffset : option Z)
  : outcome t :=
  match RandomAccessFile.create_path disk with
  | Resolved _ => create baseIndex byteOffset
  | Rejected e => Rejected e
  | Thrown e => Thrown e
  | Pending => Pending
  end.

End LogIndexFile.

(** ** The queue: [src/queue.js] *)

Module Queue.

Record t (A : Type) := { queue : list A; offset : nat }.
Arguments queue {A} _.
Arguments offset {A} _.

Definition new {A} : t A := {| queue := []; offset := 0 |}.

Definition length {A} (q : t A) : Z :=
  Z.of_nat (List.length (queue q)) - Z.of_nat (offset q).

Definition isEmpty {A} (q : t A) : bool := length q =? 0.

Definition enqueue {A} (item : A) (q : t A) : t A :=
  {| queue := queue q ++ [item]; offset := offset q |}.

(** [None] is [undefined]. *)
Definition dequeue {A} (q : t A) : option A * t A :=
  if length q =? 0 then (None, q)
  else
    let item := queue q !! offset q in
    let offset' := S (offset q) in
    if Z.of_nat (List.length (queue q)) <=? Z.of_nat offset' * 2
    then (item, {| queue := drop offset' (queue q); offset := 0 |})
    else (item, {| queue := queue q; offset := offset' |}).

Definition peek {A} (q : t A) : option A :=
  if 0 <? length q then queue q !! offset q else None.

End Queue.

(** ** The readable stream *)

Module Readable.

(** Modelled from the spec: node's [stream.Readable] is not part of the
    sources. What the stream receives from its producer is recorded in
    order: [push(chunk)], with [None] for [push(null)], [emit('end')]
    and [emit('error', err)]. [push] answers whether the consumer takes
    more; the answer may depend on everything received so far. The
    stream calls its [read] function on demand, and no more once
    [push(null)] has been received. *)
Inductive event :=
| Push (chunk : option (list byte))
| Emit_end
| Emit_error (e : error).

Definition t := list event.

(** Modelled from the spec: [stream.push(chunk)], with the answer [more]
    gives on what the stream has then received. *)
Definition push (more : t -> bool) (chunk : option (list byte)) (s : t) : bool * t :=
  let s' := s ++ [Push chunk] in (more s', s').

(** Modelled from the spec: [stream.emit(...)]. *)
Definition emit (e : event) (s : t) : t := s ++ [e].

Definition is_eof (e : event) : bool :=
  match e with Push None => true | _ => false end.

(** The stream has received [push(null)]. *)
Definition finished (s : t) : bool := existsb is_eof s.

(** The chunks delivered by [push], in order. *)
Fixpoint chunks (s : t) : list (list byte) :=
  match s with
  | [] => []
  | Push (Some c) :: s' => c :: chunks s'
  | _ :: s' => chunks s'
  end.

End Readable.

(** ** The facade: [src/write-ahead-log.js] *)

Module WriteAheadLog.

Record t := { file : RandomAccessFile.t; index : LogIndexFile.t }.

Definition on_log {A} (m : M RandomAccessFile.t A) : M t A :=
  zoom file (fun f w => {| file := f; index := index w |}) m.

Definition on_index {A} (m : M LogIndexFile.t A) : M t A :=
  zoom index (fun i w => {| file := file w; index := i |}) m.

(** [size], on a log that is open: the getter of a closed file throws. *)
Definition size (w : t) : Z := RandomAccessFile.size (file w).

Definition next : M t Z := on_index LogIndexFile.head.

Definition commitHead : M t Z := on_index LogIndexFile.commitHead.

Definition isCommitted (index : Z) : M t bool :=
  on_index (LogIndexFile.isCommitted index).

Definition commit (index : Z) : M t Z :=
  on_index (LogIndexFile.commit index).

Definition write (data : jsval) : M t Z :=
  let! head := on_index LogIndexFile.head in
  (on_index (LogIndexFile.offset head))
  .then (fun firstByte => on_log (RandomAccessFile.write firstByte data None None))
  .then (fun subsequentByte => on_index (LogIndexFile.increment subsequentByte)).

Definition read (index : Z) : M t Buffer.t :=
  (on_index (LogIndexFile.get index))
  .then (fun rec =>
           on_log (RandomAccessFile.read (LogIndexFile.rec_offset rec)
                                         (LogIndexFile.rec_length rec))).

Definition truncate (from : Z) : M t Z :=
  (on_index (LogIndexFile.truncate from))
  .then (fun next => on_log (RandomAccessFile.truncate next)).

(** What a call of the recovery handler does. It returns at once a value
    that is truthy or falsy ([Now]; a truthy object without a [then]
    function included), or a thenable that resolves with such a value
    ([Later]) or that rejects ([Broken]); it returns [null], whose
    [typeof] is 'object' and whose [then] cannot be read ([Null]); or it
    throws ([Raise]). *)
Inductive decision :=
| Now (commit : bool)
| Later (commit : bool)
| Null
| Raise (e : error)
| Broken (e : error).

(** The argument of [recover]: the literal [false], a function, or
    anything else. *)
Inductive handler :=
| LiteralFalse
| Callable (h : Z -> Buffer.t -> decision)
| NotCallable.

(** The log together with the calls the handler has received so far. *)
Record recovery := { wal : t; calls : list (Z * Buffer.t) }.

Definition on_wal {A} (m : M t A) : M recovery A :=
  zoom wal (fun w r => {| wal := w; calls := calls r |}) m.

Definition call (h : Z -> Buffer.t -> decision) (index : Z) (data : Buffer.t)
  : M recovery decision :=
  fun r => (Resolved (h index data),
            {| wal := wal r; calls := calls r ++ [(index, data)] |}).

Definition truncAfterCommitHead : M recovery unit :=
  let! c := on_wal commitHead in
  (on_wal (truncate (c + 1))).then (fun _ => ret tt).

(** [possiblyRecover(index)]; [budget] bounds the depth of the chain of
    recursive callbacks, and the promise stays pending beyond it. *)
Fixpoint possiblyRecover (budget : nat) (h : Z -> Buffer.t -> decision)
    (head : Z) (index : Z) : M recovery unit :=
  match budget with
  | O => fun r => (Pending, r)
  | S budget' =>
      (on_wal (read index))
      .then (fun data =>
               let! commit := call h index data in
               match commit with
               | Later commit =>
                   (ret commit)
                   .then (fun commit =>
                            if commit : bool then
                              (on_wal (WriteAheadLog.commit index))
                              .then (fun committed =>
                                       if committed + 1 <? head
                                       then possiblyRecover budget' h head (committed + 1)
                                       else truncAfterCommitHead)
                            else truncAfterCommitHead)
               | Now commit =>
                   if commit then
                     (on_wal (WriteAheadLog.commit index))
                     .then (fun committed =>
                              if committed + 1 <? head
                              then possiblyRecover budget' h head (committed + 1)
                              else truncAfterCommitHead)
                   else truncAfterCommitHead
               | Null => throw TypeError
               | Raise e => throw e
               | Broken e => reject e
               end)
  end.

Definition recover (budget : nat) (handler : handler) : M recovery unit :=
  let handler :=
    match handler with
    | LiteralFalse => Callable (fun _ _ => Now false)
    | other => other
    end in
  match handler with
  | Callable h =>
      let! head := on_wal next in
      let! committed := on_wal commitHead in
      if committed + 1 <? head
      then possiblyRecover budget h head (committed + 1)
      else ret tt
  | _ => throw (AssertionError "handler (function) is required")
  end.

(** *** [readRange] *)

(** The variables the closures of [readRange] share, the stream they
    feed, and the progress of the chain of reads built by [reduce]:
    the records still to read, and whether its last callback has run. *)
Record range_reader := {
  sending : bool;
  ended : bool;
  ready : Queue.t (list byte);
  stream : Readable.t;
  range : list LogIndexFile.range_rec;
  reading : bool
}.

Section Closures.

(** The answer of [stream.push]. *)
Variable more : Readable.t -> bool.

(** [while (sending && ready.length) sending = stream.push(ready.dequeue())];
    every turn takes one item off the queue, so [turns] past the
    queue's length are never reached. The queue is not empty when
    [dequeue] is called, and the item is a payload. *)
Fixpoint send_loop (turns : nat) (r : range_reader) : range_reader :=
  match turns with
  | O => r
  | S turns' =>
      if sending r && negb (Queue.length (ready r) =? 0) then
        let '(item, q) := Queue.dequeue (ready r) in
        let '(answer, st) := Readable.push more item (stream r) in
        send_loop turns'
          {| sending := answer; ended := ended r; ready := q; stream := st;
             range := range r; reading := reading r |}
      else r
  end.

Definition sendUntilPaused (r : range_reader) : range_reader :=
  let r := send_loop (Z.to_nat (Queue.length (ready r))) r in
  if ended r && Queue.isEmpty (ready r) then
    let '(_, st) := Readable.push more None (stream r) in
    {| sending := sending r; ended := ended r; ready := ready r;
       stream := Readable.emit Readable.Emit_end st;
       range := range r; reading := reading r |}
  else r.

Definition readyToSend (data : list byte) (r : range_reader) : range_reader :=
  sendUntilPaused
    {| sending := sending r; ended := ended r;
       ready := Queue.enqueue data (ready r); stream := stream r;
       range := range r; reading := reading r |}.

Definition clearToSend (r : range_reader) : range_reader :=
  sendUntilPaused
    {| sending := true; ended := ended r; ready := ready r; stream := stream r;
       range := range r; reading := reading r |}.

(** The next callback of the chain of reads: the read of the next
    record followed by [readyToSend], or, after the last record, the
    callback that ends the stream; a failed read goes to [catch]. *)
Definition produce (log : RandomAccessFile.t) (r : range_reader) : range_reader :=
  if reading r then
    match range r with
    | rec :: rest =>
        let r' := {| sending := sending r; ended := ended r; ready := ready r;
                     stream := stream r; range := rest; reading := true |} in
        match RandomAccessFile.read (LogIndexFile.rng_offset rec)
                (LogIndexFile.rng_length rec) log with
        | (Resolved data, _) => readyToSend data r'
        | (Rejected e, _) | (Thrown e, _) =>
            {| sending := sending r; ended := ended r; ready := ready r;
               stream := Readable.emit (Readable.Emit_error e) (stream r);
               range := rest; reading := false |}
        | (Pending, _) => r
        end
    | [] =>
        if Queue.isEmpty (ready r) then
          let '(_, st) := Readable.push more None (stream r) in
          {| sending := sending r; ended := ended r; ready := ready r;
             stream := Readable.emit Readable.Emit_end st;
             range := []; reading := false |}
        else
          sendUntilPaused
            {| sending := sending r; ended := true; ready := ready r;
               stream := stream r; range := []; reading := false |}
    end
  else r.

(** The stream asks for data: a call of [read], that is [clearToSend]. *)
Definition demand (r : range_reader) : range_reader :=
  if Readable.finished (stream r) then r else clearToSend r.

(** What happens next: the producer's chain advances by one callback,
    or the consumer asks for data. *)
Inductive tick := Produce | Demand.

Definition step (log : RandomAccessFile.t) (r : range_reader) (k : tick)
  : range_reader :=
  match k with
  | Produce => produce log r
  | Demand => demand r
  end.

Definition run (log : RandomAccessFile.t) (schedule : list tick) (r : range_reader)
  : range_reader :=
  foldl (step log) r schedule.

End Closures.

(** [readRange(first, count)] up to its [return]: the state of the
    closures when the caller receives the stream. [count = None] is an
    omitted argument. *)
Definition readRange (first : Z) (count : option Z) : M t range_reader :=
  let! count :=
    match count with
    | None => let! h := on_index LogIndexFile.head in ret (h - first)
    | Some c => ret c
    end in
  fun w =>
    let start range st reading :=
      {| sending := false; ended := false; ready := Queue.new; stream := st;
         range := range; reading := reading |} in
    match on_index (LogIndexFile.getRange first count) w with
    | (Resolved range, w') => (Resolved (start range [] true), w')
    | (Rejected e, w') =>
        (Resolved (start [] [Readable.Emit_error e] false), w')
    | (Thrown e, w') => (Thrown e, w')
    | (Pending, w') => (Pending, w')
    end.

Definition close : M t unit :=
  fun w =>
    match RandomAccessFile.close (file w), LogIndexFile.close (index w) with
    | (Resolved _, f), (Resolved _, i) => (Resolved tt, {| file := f; index := i |})
    | (Rejected e, f), (_, i) | (Thrown e, f), (_, i) =>
        (Rejected e, {| file := f; index := i |})
    | (Pending, f), (_, i) => (Pending, {| file := f; index := i |})
    | (Resolved _, f), (Rejected e, i) | (Resolved _, f), (Thrown e, i) =>
        (Rejected e, {| file := f; index := i |})
    | (Resolved _, f), (Pending, i) => (Pending, {| file := f; index := i |})
    end.

(** [create(options)] on paths that name no file. *)
Definition create : outcome t :=
  match LogIndexFile.create (Some 0) None with
  | Resolved idx => Resolved {| file := RandomAccessFile.create; index := idx |}
  | Rejected e | Thrown e => Rejected e
  | Pending => Pending
  end.

(** [open(options)]: [log_disk] and [index_disk] are the contents of the
    files that [options.path] and the index path name, [writable] is
    [options.writable]; left out, the log file is opened read-only. *)
Definition open (log_disk index_disk : option Buffer.t) (writable : option bool)
  : outcome t :=
  match RandomAccessFile.open_path log_disk (truthy writable) with
  | Resolved log =>
      match LogIndexFile.open_path index_disk writable with
      | Resolved idx => Resolved {| file := log; index := idx |}
      | Rejected e | Thrown e => Rejected e
      | Pending => Pending
      end
  | Rejected e => Rejected e
  | Thrown e => Thrown e
  | Pending => Pending
  end.

(** [create(options)] on any paths. *)
Definition create_path (log_disk index_disk : option Buffer.t) : outcome t :=
  match RandomAccessFile.create_path log_disk with
  | Resolved log =>
      match LogIndexFile.create_path index_disk (Some 0) None with
      | Resolved idx => Resolved {| file := log; index := idx |}
      | Rejected e | Thrown e => Rejected e
      | Pending => Pending
      end
  | Rejected e => Rejected e
  | Thrown e => Thrown e
  | Pending => Pending
  end.

(** [err.code === code]; only the errors of the operating system carry a
    code. *)
Definition has_code (err : error) (code : string) : bool :=
  match err with
  | SystemError c => String.eqb c code
  | _ => false
  end.

(** [openOrCreate(options)]:
    [open(options).catch(err => { if (err.code === 'ENOENT' &&
     options.writable) return create(options); throw err; })]. *)
Definition openOrCreate (log_disk index_disk : option Buffer.t) (writable : option bool)
  : outcome t :=
  match open log_disk index_disk writable with
  | Rejected err =>
      if has_code err "ENOENT" && truthy writable
      then
        match create_path log_disk index_disk with
        | Thrown e => Rejected e
        | r => r
        end
      else Rejected err
  | r => r
  end.

End WriteAheadLog.

(** ** The states of a log

    The states the facade reaches from [create] are described by the
    entries written so far, the commit head, and the octets a truncation
    left behind in the index file. *)

Definition int32 (z : Z) : Prop := - 2 ^ 31 <= z < 2 ^ 31.

(** An open, writable file with the given content. *)
Definition opened (c : list byte) : RandomAccessFile.t :=
  {| RandomAccessFile.content := c;
     RandomAccessFile.descriptor := true;
     RandomAccessFile.writable := true |}.

(** The sixteen octets of a header. *)
Definition header_bytes (base head commit : Z) : list byte :=
  ["I"; "D"; "X"; "$"]%byte ++ Buffer.int32_octets base
    ++ Buffer.int32_octets head ++ Buffer.int32_octets commit.

(** The packed array of offset slots. *)
Fixpoint slots (offs : list Z) : list byte :=
  match offs with
  | [] => []
  | o :: rest => Buffer.int32_octets o ++ slots rest
  end.

(** The offsets O(0), ..., O(n) of entries laid end to end from [from]. *)
Fixpoint offsets (from : Z) (ps : list (list byte)) : list Z :=
  match ps with
  | [] => [from]
  | p :: rest => from :: offsets (from + Z.of_nat (length p)) rest
  end.

(** An open index with base 0 whose file holds the header and [tail]. *)
Definition index_of (head commit : Z) (tail : list byte) : LogIndexFile.t :=
  {| LogIndexFile.file := opened (header_bytes 0 head commit ++ tail);
     LogIndexFile.header := Some (header_bytes 0 head commit) |}.

(** The log holding the entries [ps] with commit head [commit]: the log
    file is their concatenation, the index file has one slot per entry and
    the slot of the write head, followed by [stale] octets. *)
Definition image (ps : list (list byte)) (commit : Z) (stale : list byte)
  : WriteAheadLog.t :=
  {| WriteAheadLog.file := opened (concat ps);
     WriteAheadLog.index :=
       index_of (Z.of_nat (length ps)) commit (slots (offsets 0 ps) ++ stale) |}.

(** The entries fit the 32-bit fields of the index. *)
Definition fits (ps : list (list byte)) : Prop :=
  Z.of_nat (length ps) < 2 ^ 31 - 1 /\ Z.of_nat (length (concat ps)) < 2 ^ 31.

(** [w] is a log that holds the entries [ps] with commit head [commit]. *)
Definition Represents (ps : list (list byte)) (commit : Z) (w : WriteAheadLog.t) : Prop :=
  fits ps /\ -1 <= commit < 2 ^ 31 - 1 /\ exists stale, w = image ps commit stale.

(** The write head and commit head of a state whose index is open; 0 is
    a placeholder for a closed index. *)
Definition next_of (w : WriteAheadLog.t) : Z :=
  match WriteAheadLog.next w with (Resolved n, _) => n | _ => 0 end.

Definition commit_of (w : WriteAheadLog.t) : Z :=
  match WriteAheadLog.commitHead w with (Resolved n, _) => n | _ => 0 end.

(** The byte length of the index file. *)
Definition index_size (w : WriteAheadLog.t) : Z :=
  RandomAccessFile.size (LogIndexFile.file (WriteAheadLog.index w)).

(** The offset stored in slot [l] of the index file (base 0): O(l). *)
Definition slot_of (w : WriteAheadLog.t) (l : Z) : Z :=
  Buffer.readInt32BE
    (RandomAccessFile.content (LogIndexFile.file (WriteAheadLog.index w)))
    (Z.to_nat (LogIndexFile.HLEN + l * LogIndexFile.SIZEOF_INT)).

(** Writes chained one after the other, as
    [ps.reduce((acc, p) => acc.then(() => wal.write(p)), Promise.resolve())]
    does, collecting the LSNs the writes resolve with. *)
Fixpoint write_all (ps : list (list byte)) : M WriteAheadLog.t (list Z) :=
  match ps with
  | [] => ret []
  | p :: rest =>
      (WriteAheadLog.write (JBuffer p))
      .then (fun lsn => (write_all rest).then (fun lsns => ret (lsn :: lsns)))
  end.

(** The sum of the byte lengths of entries. *)
Fixpoint total_length (ps : list (list byte)) : Z :=
  match ps with
  | [] => 0
  | p :: rest => Z.of_nat (length p) + total_length rest
  end.

(** A call made inside a [then] callback, as the test suite makes them. *)
Definition chained {S A} (m : M S A) : M S A := (ret tt).then (fun _ => m).

(** The entries from LSN [k] on, each with its LSN: the calls a recovery
    handler is to receive. *)
Definition entries_from (k : nat) (ps : list (list byte)) : list (Z * list byte) :=
  zip (Z.of_nat <$> seq k (length ps - k)) (drop k ps).

(** A handler that returns a truthy value, at once or through a thenable,
    for every entry. *)
Definition accepts_all (h : Z -> list byte -> WriteAheadLog.decision) : Prop :=
  forall i d, h i d = WriteAheadLog.Now true \/ h i d = WriteAheadLog.Later true.

(** A recovery that starts on the log [w], no call made yet. *)
Definition recovering (w : WriteAheadLog.t) (cs : list (Z * list byte))
  : WriteAheadLog.recovery :=
  {| WriteAheadLog.wal := w; WriteAheadLog.calls := cs |}.

(** A payload that is a Buffer. *)
Definition is_buffer (data : jsval) : bool :=
  match data with JBuffer _ => true | _ => false end.

(** A payload [write] takes: a Buffer that is not empty. *)
Definition is_payload (data : jsval) : bool :=
  match data with JBuffer (_ :: _) => true | _ => false end.

(** The call fails, by an exception or a rejected promise, and leaves the
    log as it was. *)
Definition fails_unchanged {A} (m : M WriteAheadLog.t A) (w : WriteAheadLog.t) : Prop :=
  exists e, m w = (Thrown e, w) \/ m w = (Rejected e, w).

(** The base index of a state whose index is open. *)
Definition base_of (w : WriteAheadLog.t) : Z :=
  match WriteAheadLog.on_index LogIndexFile.baseIndex w with
  | (Resolved n, _) => n
  | _ => 0
  end.

(** The byte length the index file needs for the slots O(base), ...,
    O(head). *)
Definition index_extent (w : WriteAheadLog.t) : Z :=
  LogIndexFile.HLEN + (next_of w - base_of w + 1) * LogIndexFile.SIZEOF_INT.

(** The index file is exactly that long; it is at least that long. *)
Definition index_exact (w : WriteAheadLog.t) : Prop := index_size w = index_extent w.
Definition index_covers (w : WriteAheadLog.t) : Prop := index_extent w <= index_size w.

(** The slot of the write head holds the size of the log file. *)
Definition head_slot_is_size (w : WriteAheadLog.t) : Prop :=
  slot_of w (next_of w) = WriteAheadLog.size w.

(** The items waiting in a queue, oldest first. *)
Definition waiting {A} (q : Queue.t A) : list A := drop (Queue.offset q) (Queue.queue q).

(** The offset of a queue stays within its array. *)
Definition queue_wf {A} (q : Queue.t A) : Prop :=
  (Queue.offset q <= length (Queue.queue q))%nat.

(** Reading the record [rec] from the log file [lg] gives the payload [p]. *)
Definition reads (lg : RandomAccessFile.t) (rec : LogIndexFile.range_rec) (p : list byte)
  : Prop :=
  RandomAccessFile.read (LogIndexFile.rng_offset rec) (LogIndexFile.rng_length rec) lg
  = (Resolved p, lg).

(** One [push] per payload, in order; and what a stream has received once
    the payloads have all been pushed and the stream ended: the pushes,
    then [push(null)] and [emit('end')]. *)
Definition pushed (ps : list (list byte)) : Readable.t :=
  (fun p => Readable.Push (Some p)) <$> ps.

Definition delivered (ps : list (list byte)) : Readable.t :=
  pushed ps ++ [Readable.Push None; Readable.Emit_end].

(** The states the closures of [readRange] pass through while they deliver
    the payloads [exp] from the log file [lg]: while the chain of reads
    runs, some payloads are sent, some wait in the queue, the others are
    still to read; after the chain's last callback the queue drains; at
    last the stream has received everything and its end. *)
Inductive reader_phase (lg : RandomAccessFile.t) (exp : list (list byte))
    (r : WriteAheadLog.range_reader) : Prop :=
| Producing (sent queued todo : list (list byte)) :
    exp = sent ++ queued ++ todo ->
    WriteAheadLog.stream r = pushed sent ->
    waiting (WriteAheadLog.ready r) = queued ->
    queue_wf (WriteAheadLog.ready r) ->
    Forall2 (reads lg) (WriteAheadLog.range r) todo ->
    WriteAheadLog.reading r = true ->
    WriteAheadLog.ended r = false ->
    (WriteAheadLog.sending r = true -> queued = []) ->
    reader_phase lg exp r
| Draining (sent queued : list (list byte)) :
    exp = sent ++ queued ->
    queued <> [] ->
    WriteAheadLog.stream r = pushed sent ->
    waiting (WriteAheadLog.ready r) = queued ->
    queue_wf (WriteAheadLog.ready r) ->
    WriteAheadLog.reading r = false ->
    WriteAheadLog.ended r = true ->
    WriteAheadLog.sending r = false ->
    reader_phase lg exp r
| Finished :
    WriteAheadLog.stream r = delivered exp ->
    WriteAheadLog.reading r = false ->
    reader_phase lg exp r.

(** The records of the entries [first], ..., [first + count - 1] of the
    log holding [ps]: index, offset and length of each. *)
Definition range_records (first count : nat) (ps : list (list byte))
  : list LogIndexFile.range_rec :=
  (fun j =>
     {| LogIndexFile.rng_index := Z.of_nat first + Z.of_nat j;
        LogIndexFile.rng_offset := Z.of_nat (length (concat (take (first + j) ps)));
        LogIndexFile.rng_length :=
          Z.of_nat (length (concat (take (first + j + 1) ps)))
          - Z.of_nat (length (concat (take (first + j) ps))) |}) <$> seq 0 count.

(** ** Sequences of queue operations *)

Inductive queue_op (A : Type) :=
| Enqueue (item : A)
| Dequeue.
Arguments Enqueue {A} item.
Arguments Dequeue {A}.

(** The operations applied in order to the queue [q]: what the calls of
    [dequeue] returned, in order, and the queue afterwards. *)
Fixpoint queue_run {A} (ops : list (queue_op A)) (q : Queue.t A)
  : list (option A) * Queue.t A :=
  match ops with
  | [] => ([], q)
  | Enqueue x :: ops' => queue_run ops' (Queue.enqueue x q)
  | Dequeue :: ops' =>
      let '(item, q') := Queue.dequeue q in
      let '(items, q'') := queue_run ops' q' in
      (item :: items, q'')
  end.

(** The same operations on the list of the items that wait, oldest
    first: the reference a first-in first-out queue is compared with. *)
Fixpoint fifo_run {A} (ops : list (queue_op A)) (items : list A)
  : list (option A) * list A :=
  match ops with
  | [] => ([], items)
  | Enqueue x :: ops' => fifo_run ops' (items ++ [x])
  | Dequeue :: ops' =>
      let '(out, rest) := fifo_run ops' (tail items) in
      (head items :: out, rest)
  end.

(** ** Recovery handlers *)

(** The truthy or falsy answer of a handler, given at once or through a
    thenable that resolves; there is none when the handler returns
    [null] or throws, or when its thenable rejects. *)
Definition answer (d : WriteAheadLog.decision) : option bool :=
  match d with
  | WriteAheadLog.Now b | WriteAheadLog.Later b => Some b
  | _ => None
  end.

(** The LSN of the first entry the handler does not accept among the
    entries [ps] that start at LSN [k], and the LSN after the last one
    when it accepts them all. *)
Fixpoint first_declined (h : Z -> list byte -> WriteAheadLog.decision)
    (k : nat) (ps : list (list byte)) : nat :=
  match ps with
  | [] => k
  | p :: rest =>
      match answer (h (Z.of_nat k) p) with
      | Some true => first_declined h (S k) rest
      | _ => k
      end
  end.

(** What [recover] rejects with when the handler gives no answer. *)
Definition refusal (d : WriteAheadLog.decision) : option error :=
  match d with
  | WriteAheadLog.Null => Some TypeError
  | WriteAheadLog.Raise e | WriteAheadLog.Broken e => Some e
  | _ => None
  end.

(** The handle a read-only [open] gives on the files of [w]: the same
    bytes and cached header, neither file writable. *)
Definition read_only (w : WriteAheadLog.t) : WriteAheadLog.t :=
  let ro f :=
    {| RandomAccessFile.content := RandomAccessFile.content f;
       RandomAccessFile.descriptor := RandomAccessFile.descriptor f;
       RandomAccessFile.writable := false |} in
  {| WriteAheadLog.file := ro (WriteAheadLog.file w);
     WriteAheadLog.index :=
       {| LogIndexFile.file := ro (LogIndexFile.file (WriteAheadLog.index w));
          LogIndexFile.header := LogIndexFile.header (WriteAheadLog.index w) |} |}.


(** * Proofs *)

(** ** 32-bit integers in buffers *)

Module BufferFacts.
Import Buffer.

Lemma byte_to_Z_to_uint8 z : byte_to_Z (to_uint8 z) = z mod 256.
Proof.
  unfold byte_to_Z, to_uint8.
  change 255 with (Z.ones 8). rewrite Z.land_ones by lia.
  change (2 ^ 8) with 256.
  pose proof (Z.mod_pos_bound z 256 ltac:(lia)) as Hm.
  destruct (Byte.of_N (Z.to_N (z mod 256))) as [b|] eqn:E.
  - apply Byte.to_of_N in E. simpl. rewrite E. lia.
  - apply Byte.of_N_None_iff in E. lia.
Qed.

Lemma land_shiftl_low a d n : 0 <= n -> 0 <= d < 2 ^ n -> Z.land (Z.shiftl a n) d = 0.
Proof.
  intros Hn Hd. apply Z.bits_inj'; intros k Hk.
  rewrite Z.land_spec, Z.bits_0.
  destruct (Z.lt_ge_cases k n).
  - rewrite Z.shiftl_spec_low by lia. reflexivity.
  - rewrite <- (Z.mod_small d (2 ^ n)) by lia.
    rewrite Z.mod_pow2_bits_high by lia. apply andb_false_r.
Qed.

Lemma lor_shiftl_add a d n : 0 <= n -> 0 <= d < 2 ^ n -> Z.lor (Z.shiftl a n) d = a * 2 ^ n + d.
Proof.
  intros Hn Hd. pose proof (land_shiftl_low a d n Hn Hd) as H0.
  rewrite <- Z.lxor_lor, <- Z.add_nocarry_lxor, Z.shiftl_mul_pow2 by assumption.
  reflexivity.
Qed.

Lemma int32_digits u : 0 <= u < 2 ^ 32 ->
  ((u / 2 ^ 24) mod 256) * 2 ^ 24 + ((u / 2 ^ 16) mod 256) * 2 ^ 16 + ((u / 2 ^ 8) mod 256) * 2 ^ 8 + u mod 256 = u.
Proof.
  intros Hu. change (2 ^ 24) with 16777216. change (2 ^ 16) with 65536.
  change (2 ^ 8) with 256. change (2 ^ 32) with 4294967296 in Hu.
  Z.div_mod_to_equations. lia.
Qed.

Lemma lor_octets a b c d : 0 <= b < 256 -> 0 <= c < 256 -> 0 <= d < 256 ->
  Z.lor (Z.lor (Z.lor (Z.shiftl a 24) (Z.shiftl b 16)) (Z.shiftl c 8)) d
  = a * 2 ^ 24 + b * 2 ^ 16 + c * 2 ^ 8 + d.
Proof.
  intros Hb Hc Hd.
  replace (Z.lor (Z.lor (Z.shiftl a 24) (Z.shiftl b 16)) (Z.shiftl c 8))
    with (Z.shiftl (Z.lor (Z.shiftl (Z.lor (Z.shiftl a 8) b) 8) c) 8).
  - rewrite !lor_shiftl_add by (change (2 ^ 8) with 256; lia).
    change (2 ^ 8) with 256. change (2 ^ 16) with 65536. change (2 ^ 24) with 16777216. lia.
  - rewrite !Z.shiftl_lor, !Z.shiftl_shiftl by lia. reflexivity.
Qed.

Lemma to_int32_wrap v : - 2 ^ 31 <= v < 2 ^ 31 -> to_int32 (v mod 2 ^ 32) = v.
Proof.
  intros Hv. unfold to_int32. rewrite Z.mod_mod by lia.
  change (2 ^ 32) with 4294967296 in *. change (2 ^ 31) with 2147483648 in *.
  destruct (Z.ltb_spec (v mod 4294967296) 2147483648); Z.div_mod_to_equations; lia.
Qed.

Lemma octet_app_r (pre buf : t) k : octet (pre ++ buf) (length pre + k) = octet buf k.
Proof.
  unfold octet. rewrite lookup_app_r by lia. f_equal. f_equal. lia.
Qed.

Lemma readInt32BE_octets (pre rest : t) v :
  - 2 ^ 31 <= v < 2 ^ 31 ->
  readInt32BE (pre ++ int32_octets v ++ rest) (length pre) = v.
Proof.
  intros Hv. unfold readInt32BE.
  rewrite <- (Nat.add_0_r (length pre)) at 1.
  rewrite !octet_app_r. unfold int32_octets, octet. simpl.
  rewrite !byte_to_Z_to_uint8.
  rewrite lor_octets by (apply Z.mod_pos_bound; lia).
  unfold ushr. rewrite !Z.shiftr_div_pow2 by lia.
  pose proof (Z.mod_pos_bound v (2 ^ 32) ltac:(lia)) as Hu.
  replace (v mod 256) with ((v mod 2 ^ 32) mod 256).
  - rewrite int32_digits by assumption. apply to_int32_wrap, Hv.
  - apply Z.mod_mod_divide. exists (2 ^ 24). reflexivity.
Qed.
End BufferFacts.

Import BufferFacts.
(** ** Running the monad *)
Lemma bind_run {S A B} (m : M S A) (k : A -> M S B) s a s' :
  m s = (Resolved a, s') -> bind m k s = k a s'.
Proof. intros H. unfold bind. rewrite H. reflexivity. Qed.

Lemma then_run {S A B} (p : M S A) (k : A -> M S B) s a s' :
  p s = (Resolved a, s') -> and_then p k s = settle (k a s').
Proof. intros H. unfold and_then. rewrite H. reflexivity. Qed.

Lemma then_rejected {S A B} (p : M S A) (k : A -> M S B) s e s' :
  p s = (Rejected e, s') -> and_then p k s = (Rejected e, s').
Proof. intros H. unfold and_then. rewrite H. reflexivity. Qed.

Lemma then_thrown {S A B} (p : M S A) (k : A -> M S B) s e s' :
  p s = (Thrown e, s') -> and_then p k s = (Thrown e, s').
Proof. intros H. unfold and_then. rewrite H. reflexivity. Qed.

Lemma readInt32BE_slice (buf : list byte) n m k :
  (k + 4 <= m)%nat -> Buffer.readInt32BE (Buffer.slice buf n m) k = Buffer.readInt32BE buf (n + k).
Proof.
  intros Hk. unfold Buffer.readInt32BE, Buffer.octet, Buffer.slice.
  rewrite !lookup_take_lt by lia. rewrite !lookup_drop, !Nat.add_assoc.
  reflexivity.
Qed.

(** ** Files *)

Lemma file_read c off len : 0 <= off -> 0 <= len -> off + len <= Z.of_nat (length c) ->
  RandomAccessFile.read off len (opened c) = (Resolved (Buffer.slice c (Z.to_nat off) (Z.to_nat len)), opened c).
Proof.
  intros. unfold RandomAccessFile.read, RandomAccessFile.size. simpl.
  rewrite (proj2 (Z.ltb_ge off 0)), (proj2 (Z.ltb_ge len 0)) by lia.
  rewrite (proj2 (Z.ltb_ge (Z.of_nat (length c)) (off + len))) by lia. reflexivity.
Qed.

Lemma file_write c off (buf : list byte) : 0 <= off -> buf <> [] ->
  RandomAccessFile.write off (JBuffer buf) None None (opened c)
  = (Resolved (off + Z.of_nat (length buf)), opened (RandomAccessFile.splice (Z.to_nat off) buf c)).
Proof.
  intros Hoff Hne. unfold RandomAccessFile.write. simpl.
  rewrite (proj2 (Z.ltb_ge off 0)) by lia.
  rewrite Z.sub_0_r, (proj2 (Z.ltb_ge (Z.of_nat (length buf)) 0)) by lia. simpl.
  unfold Buffer.slice. rewrite Nat2Z.id, drop_0, take_ge by lia.
  rewrite (proj2 (Z.eqb_neq (Z.of_nat (length buf)) 0)); [reflexivity|].
  destruct buf; [congruence|simpl; lia].
Qed.

Lemma file_write_part c off (buf : list byte) first len :
  0 <= off -> 0 <= first -> 0 < len -> first + len <= Z.of_nat (length buf) ->
  RandomAccessFile.write off (JBuffer buf) (Some first) (Some len) (opened c)
  = (Resolved (off + Z.of_nat (length (Buffer.slice buf (Z.to_nat first) (Z.to_nat len)))),
     opened (RandomAccessFile.splice (Z.to_nat off) (Buffer.slice buf (Z.to_nat first) (Z.to_nat len)) c)).
Proof.
  intros. unfold RandomAccessFile.write. simpl.
  rewrite (proj2 (Z.ltb_ge off 0)), (proj2 (Z.ltb_ge first 0)), (proj2 (Z.ltb_ge len 0)) by lia.
  simpl.
  rewrite (proj2 (Z.eqb_neq _ 0)); [reflexivity|].
  unfold Buffer.slice. rewrite length_take, length_drop. lia.
Qed.

Lemma file_truncate c n : 0 <= n ->
  RandomAccessFile.truncate n (opened c) = (Resolved n, opened (RandomAccessFile.resize (Z.to_nat n) c)).
Proof.
  intros. unfold RandomAccessFile.truncate. simpl.
  rewrite (proj2 (Z.ltb_ge n 0)) by lia. reflexivity.
Qed.

Lemma splice_app (pre data post : list byte) :
  RandomAccessFile.splice (length pre) data (pre ++ post) = pre ++ data ++ drop (length data) post.
Proof. induction pre as [|b pre IH]; simpl; [reflexivity|]. f_equal. apply IH. Qed.

Lemma resize_prefix (pre post : list byte) : RandomAccessFile.resize (length pre) (pre ++ post) = pre.
Proof.
  unfold RandomAccessFile.resize. rewrite take_app_length, length_app.
  replace (length pre - (length pre + length post))%nat with 0%nat by lia.
  simpl. apply app_nil_r.
Qed.

(** ** The header *)
Lemma header_length b h c : length (header_bytes b h c) = 16%nat.
Proof. reflexivity. Qed.

Lemma header_base b h c : int32 b -> Buffer.readInt32BE (header_bytes b h c) 4 = b.
Proof.
  intros H. apply (readInt32BE_octets ["I"; "D"; "X"; "$"]%byte). exact H.
Qed.

Lemma header_head b h c : int32 h -> Buffer.readInt32BE (header_bytes b h c) 8 = h.
Proof.
  intros H. unfold header_bytes. rewrite (app_assoc _ (Buffer.int32_octets b)).
  apply (readInt32BE_octets (["I"; "D"; "X"; "$"]%byte ++ Buffer.int32_octets b)). exact H.
Qed.

Lemma header_commit b h c : int32 c -> Buffer.readInt32BE (header_bytes b h c) 12 = c.
Proof.
  intros H. unfold header_bytes.
  rewrite (app_assoc _ (Buffer.int32_octets b)), (app_assoc _ (Buffer.int32_octets h)).
  rewrite <- (app_nil_r (Buffer.int32_octets c)).
  apply (readInt32BE_octets
           ((["I"; "D"; "X"; "$"]%byte ++ Buffer.int32_octets b) ++ Buffer.int32_octets h)).
  exact H.
Qed.

Lemma header_set_head b h c v :
  Buffer.writeInt32BE (header_bytes b h c) v 8 = header_bytes b v c.
Proof. reflexivity. Qed.

Lemma header_set_commit b h c v :
  Buffer.writeInt32BE (header_bytes b h c) v 12 = header_bytes b h v.
Proof. reflexivity. Qed.

Arguments header_bytes : simpl never.

(** ** Running the index on [index_of] *)

Lemma assert_ok_holds {S} b msg (s : S) : b = true -> assert_ok b msg s = (Resolved tt, s).
Proof. intros ->. reflexivity. Qed.

Lemma ret_run {S A} (a : A) (s : S) : ret a s = (Resolved a, s).
Proof. reflexivity. Qed.

Create HintDb wal discriminated.

#[local] Hint Extern 1 (int32 _) => unfold int32 in *; lia : wal.
#[local] Hint Extern 1 ((_ <=? _) = true) => apply Z.leb_le; unfold int32 in *; lia : wal.
#[local] Hint Extern 1 ((_ <? _) = true) => apply Z.ltb_lt; unfold int32 in *; lia : wal.
#[local] Hint Extern 1 (_ <= _) => unfold int32 in *; lia : wal.
#[local] Hint Extern 1 (_ < _) => unfold int32 in *; lia : wal.
#[local] Hint Resolve assert_ok_holds ret_run : wal.

Ltac exec :=
  repeat first
    [ erewrite bind_run by (solve [eauto with wal nocore])
    | erewrite then_run by (solve [eauto with wal nocore]) ].

Lemma open_header_run h c tail :
  LogIndexFile.open_header (index_of h c tail)
  = (Resolved (header_bytes 0 h c), index_of h c tail).
Proof. reflexivity. Qed.
#[local] Hint Resolve open_header_run : wal.

Lemma baseIndex_run h c tail :
  LogIndexFile.baseIndex (index_of h c tail) = (Resolved 0, index_of h c tail).
Proof.
  unfold LogIndexFile.baseIndex. exec. unfold ret.
  change (Z.to_nat LogIndexFile.OFS_BASEINDEX) with 4%nat.
  rewrite header_base by auto with wal. reflexivity.
Qed.

Lemma head_run h c tail :
  int32 h -> LogIndexFile.head (index_of h c tail) = (Resolved h, index_of h c tail).
Proof.
  intros. unfold LogIndexFile.head. exec. unfold ret.
  change (Z.to_nat LogIndexFile.OFS_HEAD) with 8%nat.
  rewrite header_head by assumption. reflexivity.
Qed.

Lemma commitHead_run h c tail :
  int32 c -> LogIndexFile.commitHead (index_of h c tail) = (Resolved c, index_of h c tail).
Proof.
  intros. unfold LogIndexFile.commitHead. exec. unfold ret.
  change (Z.to_nat LogIndexFile.OFS_COMMIT) with 12%nat.
  rewrite header_commit by assumption. reflexivity.
Qed.
#[local] Hint Resolve baseIndex_run head_run commitHead_run : wal.

Lemma localizeIndex_run h c tail L :
  LogIndexFile.localizeIndex L (index_of h c tail) = (Resolved (L - 0), index_of h c tail).
Proof. unfold LogIndexFile.localizeIndex. exec. reflexivity. Qed.
#[local] Hint Resolve localizeIndex_run : wal.

Lemma on_file_run {A} (m : M RandomAccessFile.t A) r c c' hd :
  m (opened c) = (r, opened c') ->
  LogIndexFile.on_file m {| LogIndexFile.file := opened c; LogIndexFile.header := hd |}
  = (r, {| LogIndexFile.file := opened c'; LogIndexFile.header := hd |}).
Proof. intros H. unfold LogIndexFile.on_file, zoom. simpl. rewrite H. reflexivity. Qed.

Lemma index_read h c tail off len :
  0 <= off -> 0 <= len -> off + len <= Z.of_nat (length tail) ->
  LogIndexFile.on_file (RandomAccessFile.read (LogIndexFile.HLEN + off) len) (index_of h c tail)
  = (Resolved (Buffer.slice tail (Z.to_nat off) (Z.to_nat len)), index_of h c tail).
Proof.
  intros Ho Hl Hin. unfold index_of. erewrite on_file_run.
  2: { apply file_read; unfold LogIndexFile.HLEN; try lia.
       rewrite length_app, header_length. lia. }
  f_equal. f_equal. unfold Buffer.slice. f_equal.
  unfold LogIndexFile.HLEN. rewrite Z2Nat.inj_add by lia.
  change (Z.to_nat 16) with (length (header_bytes 0 h c)).
  rewrite <- drop_drop, drop_app_length. reflexivity.
Qed.

Lemma offset_run h c tail L :
  int32 h -> 0 <= L <= h -> 4 * L + 4 <= Z.of_nat (length tail) ->
  LogIndexFile.offset L (index_of h c tail)
  = (Resolved (Buffer.readInt32BE tail (Z.to_nat (4 * L))), index_of h c tail).
Proof.
  intros Hh HL Hin. unfold LogIndexFile.offset. exec.
  erewrite then_run by (apply index_read; unfold LogIndexFile.SIZEOF_INT; lia).
  unfold ret, settle. rewrite readInt32BE_slice by (unfold LogIndexFile.SIZEOF_INT; lia).
  repeat f_equal. unfold LogIndexFile.SIZEOF_INT. lia.
Qed.

Lemma get_run h c tail L :
  int32 h -> 0 <= L < h -> 4 * L + 8 <= Z.of_nat (length tail) ->
  LogIndexFile.get L (index_of h c tail)
  = (Resolved {| LogIndexFile.rec_offset := Buffer.readInt32BE tail (Z.to_nat (4 * L));
                 LogIndexFile.rec_length :=
                   Buffer.readInt32BE tail (Z.to_nat (4 * L) + 4)
                   - Buffer.readInt32BE tail (Z.to_nat (4 * L)) |},
     index_of h c tail).
Proof.
  intros Hh HL Hin. unfold LogIndexFile.get. exec.
  erewrite then_run by (apply index_read; unfold LogIndexFile.SIZEOF_INT; lia).
  unfold ret, settle. change (Z.to_nat LogIndexFile.SIZEOF_INT) with 4%nat.
  rewrite !readInt32BE_slice by (unfold LogIndexFile.SIZEOF_INT; lia).
  replace (Z.to_nat ((L - 0) * LogIndexFile.SIZEOF_INT)) with (Z.to_nat (4 * L))
    by (unfold LogIndexFile.SIZEOF_INT; lia).
  rewrite Nat.add_0_r. reflexivity.
Qed.

Lemma getRange_run h c tail L count :
  int32 h -> 0 <= L < h -> 0 <= count <= h - L ->
  4 * (L + count + 1) <= Z.of_nat (length tail) ->
  LogIndexFile.getRange L count (index_of h c tail)
  = (Resolved (LogIndexFile.getRange_loop (Z.to_nat count) 0 L
                 (Buffer.slice tail (Z.to_nat (4 * L)) (Z.to_nat (4 * (count + 1))))),
     index_of h c tail).
Proof.
  intros Hh HL Hc Hin. unfold LogIndexFile.getRange. exec.
  erewrite then_run by (apply index_read; unfold LogIndexFile.SIZEOF_INT; lia).
  unfold ret, settle.
  replace (Z.to_nat ((L - 0) * LogIndexFile.SIZEOF_INT)) with (Z.to_nat (4 * L))
    by (unfold LogIndexFile.SIZEOF_INT; lia).
  replace (Z.to_nat ((count + 1) * LogIndexFile.SIZEOF_INT)) with (Z.to_nat (4 * (count + 1)))
    by (unfold LogIndexFile.SIZEOF_INT; lia).
  reflexivity.
Qed.

Lemma splice_skip (pre data post : list byte) n :
  RandomAccessFile.splice (length pre + n) data (pre ++ post)
  = pre ++ RandomAccessFile.splice n data post.
Proof. induction pre as [|b pre IH]; simpl; [reflexivity|]. f_equal. apply IH. Qed.

Lemma index_write h c tail hd off (data : list byte) :
  0 <= off -> data <> [] ->
  LogIndexFile.on_file
    (RandomAccessFile.write (LogIndexFile.HLEN + off) (JBuffer data) None None)
    {| LogIndexFile.file := opened (header_bytes 0 h c ++ tail); LogIndexFile.header := hd |}
  = (Resolved (LogIndexFile.HLEN + off + Z.of_nat (length data)),
     {| LogIndexFile.file :=
          opened (header_bytes 0 h c ++ RandomAccessFile.splice (Z.to_nat off) data tail);
        LogIndexFile.header := hd |}).
Proof.
  intros Ho Hne. erewrite on_file_run.
  2: { apply file_write; [unfold LogIndexFile.HLEN; lia|exact Hne]. }
  f_equal. f_equal. f_equal.
  unfold LogIndexFile.HLEN. rewrite Z2Nat.inj_add by lia.
  change (Z.to_nat 16) with (length (header_bytes 0 h c)).
  apply splice_skip.
Qed.

Lemma index_flush_head h c v tail hd :
  LogIndexFile.on_file
    (RandomAccessFile.write LogIndexFile.OFS_HEAD (JBuffer (header_bytes 0 v c))
       (Some LogIndexFile.OFS_HEAD) (Some LogIndexFile.SIZEOF_INT))
    {| LogIndexFile.file := opened (header_bytes 0 h c ++ tail); LogIndexFile.header := hd |}
  = (Resolved 12,
     {| LogIndexFile.file := opened (header_bytes 0 v c ++ tail); LogIndexFile.header := hd |}).
Proof.
  erewrite on_file_run.
  2: { apply file_write_part;
         unfold LogIndexFile.OFS_HEAD, LogIndexFile.SIZEOF_INT; rewrite ?header_length; lia. }
  reflexivity.
Qed.

Lemma index_flush_commit h c v tail hd :
  LogIndexFile.on_file
    (RandomAccessFile.write LogIndexFile.OFS_COMMIT (JBuffer (header_bytes 0 h v))
       (Some LogIndexFile.OFS_COMMIT) (Some LogIndexFile.SIZEOF_INT))
    {| LogIndexFile.file := opened (header_bytes 0 h c ++ tail); LogIndexFile.header := hd |}
  = (Resolved 16,
     {| LogIndexFile.file := opened (header_bytes 0 h v ++ tail); LogIndexFile.header := hd |}).
Proof.
  erewrite on_file_run.
  2: { apply file_write_part;
         unfold LogIndexFile.OFS_COMMIT, LogIndexFile.SIZEOF_INT; rewrite ?header_length; lia. }
  reflexivity.
Qed.

Lemma set_header_run f hd hd' :
  LogIndexFile.set_header hd' {| LogIndexFile.file := f; LogIndexFile.header := hd |}
  = (Resolved tt, {| LogIndexFile.file := f; LogIndexFile.header := hd' |}).
Proof. reflexivity. Qed.

Lemma increment_run h c tail o :
  int32 h -> 0 <= h ->
  LogIndexFile.increment o (index_of h c tail)
  = (Resolved h,
     index_of (h + 1) c
       (RandomAccessFile.splice (Z.to_nat (4 * (h + 1))) (Buffer.int32_octets o) tail)).
Proof.
  intros Hh H0. unfold LogIndexFile.increment. exec.
  change (Buffer.writeInt32BE (Buffer.allocFill (Z.to_nat LogIndexFile.SIZEOF_INT)) o 0)
    with (Buffer.int32_octets o).
  change (Z.to_nat LogIndexFile.OFS_HEAD) with 8%nat. rewrite header_set_head.
  unfold index_of at 1.
  erewrite then_run.
  2: { erewrite then_run
         by (apply index_write; [unfold LogIndexFile.SIZEOF_INT; lia|discriminate]).
       erewrite bind_run by apply set_header_run.
       rewrite index_flush_head. reflexivity. }
  unfold ret, settle, index_of.
  replace (Z.to_nat ((h + 1 - 0) * LogIndexFile.SIZEOF_INT)) with (Z.to_nat (4 * (h + 1)))
    by (unfold LogIndexFile.SIZEOF_INT; lia).
  reflexivity.
Qed.

Lemma truncate_run h c tail T :
  int32 h -> int32 c -> c < T < h -> 0 <= T -> 4 * (T + 1) <= Z.of_nat (length tail) ->
  LogIndexFile.truncate T (index_of h c tail)
  = (Resolved (Buffer.readInt32BE tail (Z.to_nat (4 * T))), index_of T c tail).
Proof.
  intros Hh Hc HT H0 Hin. destruct (Z.eq_dec T 0) as [HT0|Hne].
  - subst T. unfold LogIndexFile.truncate. exec.
    change (Z.to_nat LogIndexFile.OFS_HEAD) with 8%nat. rewrite header_set_head.
    unfold index_of at 1. cbn [LogIndexFile.file].
    erewrite then_run.
    2: { erewrite then_run by apply index_flush_head.
         fold (index_of 0 c tail). exec. rewrite Z.eqb_refl.
         erewrite then_run.
         2: { replace LogIndexFile.HLEN with (LogIndexFile.HLEN + 0) by lia.
              apply index_read; unfold LogIndexFile.SIZEOF_INT; lia. }
         reflexivity. }
    unfold ret, settle. cbn [LogIndexFile.rec_offset LogIndexFile.rec_length].
    rewrite readInt32BE_slice by (unfold LogIndexFile.SIZEOF_INT; lia).
    rewrite Z.add_0_r. reflexivity.
  - unfold LogIndexFile.truncate. exec.
    change (Z.to_nat LogIndexFile.OFS_HEAD) with 8%nat. rewrite header_set_head.
    unfold index_of at 1. cbn [LogIndexFile.file].
    erewrite then_run.
    2: { erewrite then_run by apply index_flush_head.
         fold (index_of T c tail). exec.
         rewrite (proj2 (Z.eqb_neq T 0)) by assumption.
         rewrite get_run by (unfold int32 in *; lia). reflexivity. }
    unfold ret, settle. cbn [LogIndexFile.rec_offset LogIndexFile.rec_length].
    replace (Z.to_nat (4 * T)) with (Z.to_nat (4 * (T - 1)) + 4)%nat by lia.
    f_equal. f_equal. lia.
Qed.

Lemma commit_run h c tail L :
  int32 c -> int32 L -> L = c + 1 ->
  LogIndexFile.commit L (index_of h c tail) = (Resolved L, index_of h L tail).
Proof.
  intros Hc HL ->. unfold LogIndexFile.commit. exec.
  rewrite Z.ltb_irrefl, Z.eqb_refl. cbn [negb]. exec.
  change (Z.to_nat LogIndexFile.OFS_COMMIT) with 12%nat. rewrite header_set_commit.
  unfold index_of at 1. cbn [LogIndexFile.file].
  erewrite then_run by apply index_flush_commit.
  reflexivity.
Qed.

Lemma commit_idle h c tail L :
  int32 c -> L < c + 1 ->
  LogIndexFile.commit L (index_of h c tail) = (Resolved L, index_of h c tail).
Proof.
  intros Hc HL. unfold LogIndexFile.commit. exec.
  rewrite (proj2 (Z.ltb_lt L (c + 1))) by assumption. reflexivity.
Qed.

Lemma commit_out_of_order h c tail L :
  int32 c -> c + 1 < L ->
  LogIndexFile.commit L (index_of h c tail)
  = (Rejected (Error (LogIndexFile.out_of_order (c + 1) L)), index_of h c tail).
Proof.
  intros Hc HL. unfold LogIndexFile.commit. exec.
  rewrite (proj2 (Z.ltb_ge L (c + 1))) by lia.
  rewrite (proj2 (Z.eqb_neq L (c + 1))) by lia. reflexivity.
Qed.

(** ** Slots and offsets *)

Lemma slots_app a b : slots (a ++ b) = slots a ++ slots b.
Proof. induction a as [|o a IH]; simpl; [reflexivity|]. rewrite IH. reflexivity. Qed.

Lemma length_slots offs : length (slots offs) = (4 * length offs)%nat.
Proof. induction offs as [|o offs IH]; simpl; lia. Qed.

Lemma slots_lookup offs (stale : list byte) i o :
  offs !! i = Some o -> int32 o ->
  Buffer.readInt32BE (slots offs ++ stale) (4 * i) = o.
Proof.
  intros Hi Ho.
  rewrite <- (take_drop_middle offs i o Hi), slots_app.
  change (slots (o :: drop (S i) offs))
    with (Buffer.int32_octets o ++ slots (drop (S i) offs)).
  rewrite <- !app_assoc.
  replace (4 * i)%nat with (length (slots (take i offs))).
  - exact (readInt32BE_octets (slots (take i offs)) (slots (drop (S i) offs) ++ stale) o Ho).
  - rewrite length_slots, length_take. apply lookup_lt_Some in Hi. lia.
Qed.

Lemma slots_splice offs (stale : list byte) o :
  RandomAccessFile.splice (4 * length offs) (Buffer.int32_octets o) (slots offs ++ stale)
  = slots (offs ++ [o]) ++ drop 4 stale.
Proof.
  rewrite <- length_slots, splice_app, slots_app.
  change (slots [o]) with (Buffer.int32_octets o ++ []).
  rewrite app_nil_r, <- !app_assoc. reflexivity.
Qed.

Lemma length_offsets from ps : length (offsets from ps) = S (length ps).
Proof. revert from. induction ps as [|p ps IH]; intros from; simpl; [reflexivity|]. rewrite IH. reflexivity. Qed.

Lemma offsets_lookup from ps i :
  (i <= length ps)%nat ->
  offsets from ps !! i = Some (from + Z.of_nat (length (concat (take i ps)))).
Proof.
  revert from i. induction ps as [|p ps IH]; intros from i Hi.
  - destruct i; [|simpl in Hi; lia]. simpl. apply f_equal. lia.
  - destruct i as [|i]; simpl.
    + apply f_equal. lia.
    + rewrite IH by (simpl in Hi; lia). rewrite length_app. apply f_equal. lia.
Qed.

Lemma offsets_snoc from ps p :
  offsets from (ps ++ [p])
  = offsets from ps ++ [from + Z.of_nat (length (concat ps)) + Z.of_nat (length p)].
Proof.
  revert from. induction ps as [|q ps IH]; intros from; simpl.
  - rewrite Z.add_0_r. reflexivity.
  - rewrite IH, length_app, Nat2Z.inj_add, Z.add_assoc. reflexivity.
Qed.

Lemma offsets_take from ps T :
  (T <= length ps)%nat -> take (S T) (offsets from ps) = offsets from (take T ps).
Proof.
  revert from T. induction ps as [|p ps IH]; intros from T HT.
  - destruct T; [reflexivity | simpl in HT; lia].
  - destruct T as [|T].
    + simpl. destruct ps; reflexivity.
    + change (take (S (S T)) (offsets from (p :: ps)))
        with (from :: take (S T) (offsets (from + Z.of_nat (length p)) ps)).
      rewrite IH by (simpl in HT; lia). reflexivity.
Qed.

Lemma concat_lookup_slice (ps : list (list byte)) i p :
  ps !! i = Some p ->
  Buffer.slice (concat ps) (length (concat (take i ps))) (length p) = p.
Proof.
  intros Hi. unfold Buffer.slice.
  assert (concat ps = concat (take i ps) ++ p ++ concat (drop (S i) ps)) as ->.
  { rewrite <- (take_drop_middle ps i p Hi) at 1. rewrite concat_app. reflexivity. }
  rewrite drop_app_length. apply take_app_length.
Qed.

Lemma concat_take_resize (ps : list (list byte)) T :
  RandomAccessFile.resize (length (concat (take T ps))) (concat ps) = concat (take T ps).
Proof.
  assert (concat ps = concat (take T ps) ++ concat (drop T ps)) as ->.
  { rewrite <- (take_drop T ps) at 1. apply concat_app. }
  apply resize_prefix.
Qed.

Lemma length_concat_take_le (ps : list (list byte)) i :
  (length (concat (take i ps)) <= length (concat ps))%nat.
Proof.
  assert (concat ps = concat (take i ps) ++ concat (drop i ps)) as ->.
  { rewrite <- (take_drop i ps) at 1. apply concat_app. }
  rewrite length_app. lia.
Qed.

(** ** Running the facade on [image] *)

Lemma on_index_run {A} (m : M LogIndexFile.t A) r f i i' :
  m i = (r, i') ->
  WriteAheadLog.on_index m {| WriteAheadLog.file := f; WriteAheadLog.index := i |}
  = (r, {| WriteAheadLog.file := f; WriteAheadLog.index := i' |}).
Proof. intros H. unfold WriteAheadLog.on_index, zoom. simpl. rewrite H. reflexivity. Qed.

Lemma on_log_run {A} (m : M RandomAccessFile.t A) r f f' i :
  m f = (r, f') ->
  WriteAheadLog.on_log m {| WriteAheadLog.file := f; WriteAheadLog.index := i |}
  = (r, {| WriteAheadLog.file := f'; WriteAheadLog.index := i |}).
Proof. intros H. unfold WriteAheadLog.on_log, zoom. simpl. rewrite H. reflexivity. Qed.

Lemma fits_int32_length ps : fits ps -> int32 (Z.of_nat (length ps)).
Proof. unfold fits, int32. lia. Qed.

Lemma fits_snoc_inv ps p : fits (ps ++ [p]) -> fits ps.
Proof.
  unfold fits. rewrite concat_app, !length_app. simpl. lia.
Qed.

Lemma fits_take ps T : fits ps -> fits (take T ps).
Proof.
  unfold fits. intros [H1 H2]. pose proof (length_concat_take_le ps T).
  rewrite length_take. lia.
Qed.

Lemma fits_offset ps i :
  fits ps -> (i <= length ps)%nat ->
  int32 (0 + Z.of_nat (length (concat (take i ps)))).
Proof.
  unfold fits, int32. intros [H1 H2] Hi. pose proof (length_concat_take_le ps i). lia.
Qed.

Lemma next_run ps c stale :
  fits ps ->
  WriteAheadLog.next (image ps c stale) = (Resolved (Z.of_nat (length ps)), image ps c stale).
Proof.
  intros Hf. unfold WriteAheadLog.next, image.
  apply on_index_run, head_run, fits_int32_length, Hf.
Qed.

Lemma commitHead_wal_run ps c stale :
  int32 c ->
  WriteAheadLog.commitHead (image ps c stale) = (Resolved c, image ps c stale).
Proof.
  intros Hc. unfold WriteAheadLog.commitHead, image.
  apply on_index_run, commitHead_run, Hc.
Qed.

Lemma slot_image ps (stale : list byte) i :
  fits ps -> (i <= length ps)%nat ->
  Buffer.readInt32BE (slots (offsets 0 ps) ++ stale) (Z.to_nat (4 * Z.of_nat i))
  = Z.of_nat (length (concat (take i ps))).
Proof.
  intros Hf Hi. replace (Z.to_nat (4 * Z.of_nat i)) with (4 * i)%nat by lia.
  erewrite slots_lookup; [| apply offsets_lookup, Hi | apply fits_offset; assumption].
  lia.
Qed.

Lemma length_image_tail ps (stale : list byte) :
  Z.of_nat (length (slots (offsets 0 ps) ++ stale))
  = 4 * (Z.of_nat (length ps) + 1) + Z.of_nat (length stale).
Proof. rewrite length_app, length_slots, length_offsets. lia. Qed.

Lemma write_run ps c stale p :
  fits (ps ++ [p]) -> p <> [] ->
  WriteAheadLog.write (JBuffer p) (image ps c stale)
  = (Resolved (Z.of_nat (length ps)), image (ps ++ [p]) c (drop 4 stale)).
Proof.
  intros Hf' Hne. pose proof (fits_snoc_inv _ _ Hf') as Hf.
  pose proof (fits_int32_length _ Hf) as Hn.
  unfold WriteAheadLog.write.
  erewrite bind_run by (apply on_index_run, head_run, Hn).
  erewrite then_run.
  2: { erewrite then_run
         by (apply on_index_run, offset_run;
             [exact Hn | lia | rewrite length_image_tail; lia]).
       rewrite slot_image by (assumption || lia). rewrite take_ge by lia.
       erewrite on_log_run by (apply file_write; [lia|exact Hne]). reflexivity. }
  erewrite on_index_run by (apply increment_run; [exact Hn | lia]).
  unfold settle, image. f_equal. f_equal.
  - unfold opened. f_equal.
    replace (Z.to_nat (Z.of_nat (length (concat ps)))) with (length (concat ps) + 0)%nat by lia.
    rewrite <- (app_nil_r (concat ps)) at 2. rewrite splice_skip. simpl.
    rewrite drop_nil, concat_app. simpl. rewrite !app_nil_r. reflexivity.
  - rewrite length_app. simpl.
    replace (Z.of_nat (length ps + 1)) with (Z.of_nat (length ps) + 1) by lia.
    f_equal.
    replace (Z.to_nat (4 * (Z.of_nat (length ps) + 1)))
      with (4 * length (offsets 0 ps))%nat by (rewrite length_offsets; lia).
    rewrite slots_splice, offsets_snoc.
    replace (0 + Z.of_nat (length (concat ps)) + Z.of_nat (length p))
      with (Z.of_nat (length (concat ps)) + Z.of_nat (length p)) by lia.
    reflexivity.
Qed.

Lemma read_run ps c stale i p :
  fits ps -> ps !! i = Some p ->
  WriteAheadLog.read (Z.of_nat i) (image ps c stale) = (Resolved p, image ps c stale).
Proof.
  intros Hf Hi. pose proof (lookup_lt_Some _ _ _ Hi) as Hlt.
  unfold WriteAheadLog.read.
  erewrite then_run
    by (apply on_index_run, get_run;
        [apply fits_int32_length, Hf | lia | rewrite length_image_tail; lia]).
  cbn [LogIndexFile.rec_offset LogIndexFile.rec_length].
  replace (Z.to_nat (4 * Z.of_nat i) + 4)%nat with (Z.to_nat (4 * Z.of_nat (S i))) by lia.
  rewrite !slot_image by (assumption || lia).
  pose proof (length_concat_take_le ps (S i)) as Hin.
  rewrite (take_S_r ps i p Hi), concat_app, length_app in *. simpl in *.
  rewrite app_nil_r in *.
  erewrite on_log_run by (apply file_read; lia).
  unfold settle. f_equal. f_equal.
  replace (Z.to_nat (Z.of_nat (length (concat (take i ps)) + length p)
                     - Z.of_nat (length (concat (take i ps))))) with (length p) by lia.
  rewrite Nat2Z.id. apply concat_lookup_slice, Hi.
Qed.

Lemma create_image : WriteAheadLog.create = Resolved (image [] (-1) []).
Proof. vm_compute. reflexivity. Qed.

Lemma write_all_run ps : forall qs c stale,
  fits (qs ++ ps) -> Forall (fun p => p <> []) ps ->
  write_all ps (image qs c stale)
  = (Resolved (Z.of_nat <$> seq (length qs) (length ps)),
     image (qs ++ ps) c (drop (4 * length ps) stale)).
Proof.
  induction ps as [|p ps IH]; intros qs c stale Hf Hne.
  - simpl. rewrite app_nil_r, drop_0. reflexivity.
  - assert (Hf' : fits ((qs ++ [p]) ++ ps)) by (rewrite <- app_assoc; exact Hf).
    assert (Hq : fits (qs ++ [p])).
    { revert Hf'. unfold fits. rewrite !concat_app, !length_app. lia. }
    apply Forall_cons in Hne as [Hp Hne].
    cbn [write_all].
    erewrite then_run by (apply write_run; [exact Hq|exact Hp]).
    erewrite then_run by (apply IH; [exact Hf'|exact Hne]).
    unfold ret, settle. rewrite <- app_assoc, drop_drop, length_app.
    change (length [p]) with 1%nat. change (length (p :: ps)) with (S (length ps)).
    replace (length qs + 1)%nat with (S (length qs)) by lia.
    replace (4 + 4 * length ps)%nat with (4 * S (length ps))%nat by lia.
    reflexivity.
Qed.

(** C1. Write/read round trip: the payloads [ps], each a non-empty
    buffer as [write] requires, written to a freshly created log by
    writes chained one after the other, get the LSNs 0, 1, ..., and
    afterwards [read(i)] resolves with exactly the i-th payload, for
    every i; [fits] says that the entries do not exceed what the index's
    32-bit fields can hold. *)
Theorem write_read_roundtrip (ps : list (list byte)) :
  fits ps -> Forall (fun p => p <> []) ps ->
  exists w0 w,
    WriteAheadLog.create = Resolved w0 /\
    write_all ps w0 = (Resolved (Z.of_nat <$> seq 0 (length ps)), w) /\
    forall i p, ps !! i = Some p ->
      WriteAheadLog.read (Z.of_nat i) w = (Resolved p, w).
Proof.
  intros Hf Hne. exists (image [] (-1) []), (image ps (-1) []).
  split; [apply create_image|]. split.
  - rewrite write_all_run by (exact Hf || exact Hne). rewrite drop_nil. reflexivity.
  - intros i p Hi. apply read_run; assumption.
Qed.

Lemma write_read_roundtrip_witness :
  exists w0 w,
    WriteAheadLog.create = Resolved w0 /\
    write_all [["a"; "b"]; ["c"]; ["g"]; ["d"; "e"; "f"]]%byte w0
    = (Resolved [0; 1; 2; 3], w) /\
    WriteAheadLog.read 1 w = (Resolved ["c"]%byte, w) /\
    WriteAheadLog.read 3 w = (Resolved ["d"; "e"; "f"]%byte, w).
Proof.
  destruct (write_read_roundtrip [["a"; "b"]; ["c"]; ["g"]; ["d"; "e"; "f"]]%byte)
    as (w0 & w & Hc & Hw & Hr).
  - unfold fits. simpl. lia.
  - repeat constructor; discriminate.
  - exists w0, w. split; [exact Hc|]. split; [exact Hw|]. split.
    + exact (Hr 1%nat _ eq_refl).
    + exact (Hr 3%nat _ eq_refl).
Defined.

(** ** [commit] on any open index *)

Lemma splice_shape n (data c : list byte) :
  exists pre rest,
    RandomAccessFile.splice n data c = pre ++ data ++ rest /\ length pre = n.
Proof.
  revert c. induction n as [|n IH]; intros c.
  - exists [], (drop (length data) c). split; reflexivity.
  - destruct c as [|b c]; simpl.
    + destruct (IH []) as (pre & rest & -> & Hl).
      exists (x00 :: pre), rest. split; [reflexivity | simpl; lia].
    + destruct (IH c) as (pre & rest & -> & Hl).
      exists (b :: pre), rest. split; [reflexivity | simpl; lia].
Qed.

Lemma splice_readInt32BE n v (c : list byte) :
  int32 v -> Buffer.readInt32BE (RandomAccessFile.splice n (Buffer.int32_octets v) c) n = v.
Proof.
  intros Hv. destruct (splice_shape n (Buffer.int32_octets v) c) as (pre & rest & -> & <-).
  exact (readInt32BE_octets pre rest v Hv).
Qed.

Lemma header_cells (hdr : list byte) :
  length hdr = 16%nat ->
  exists b0 b1 b2 b3 b4 b5 b6 b7 b8 b9 b10 b11 b12 b13 b14 b15,
    hdr = [b0; b1; b2; b3; b4; b5; b6; b7; b8; b9; b10; b11; b12; b13; b14; b15].
Proof.
  intros H. do 16 (destruct hdr as [|? hdr]; [discriminate|]).
  destruct hdr; [|discriminate]. repeat eexists.
Qed.

Lemma commit_of_open f ifile hdr :
  commit_of {| WriteAheadLog.file := f;
               WriteAheadLog.index := {| LogIndexFile.file := ifile;
                                         LogIndexFile.header := Some hdr |} |}
  = Buffer.readInt32BE hdr 12.
Proof. reflexivity. Qed.

Lemma next_of_open f ifile hdr :
  next_of {| WriteAheadLog.file := f;
             WriteAheadLog.index := {| LogIndexFile.file := ifile;
                                       LogIndexFile.header := Some hdr |} |}
  = Buffer.readInt32BE hdr 8.
Proof. reflexivity. Qed.

Lemma readInt32BE_int32 (buf : list byte) n : int32 (Buffer.readInt32BE buf n).
Proof.
  unfold Buffer.readInt32BE, Buffer.to_int32, int32.
  match goal with |- context [?a mod 2 ^ 32] =>
    pose proof (Z.mod_pos_bound a (2 ^ 32) ltac:(lia));
    destruct (Z.ltb_spec (a mod 2 ^ 32) (2 ^ 31)) end; lia.
Qed.

Lemma commit_advance (w : WriteAheadLog.t) (hdr : list byte) :
  LogIndexFile.header (WriteAheadLog.index w) = Some hdr ->
  length hdr = 16%nat ->
  RandomAccessFile.descriptor (LogIndexFile.file (WriteAheadLog.index w)) = true ->
  RandomAccessFile.writable (LogIndexFile.file (WriteAheadLog.index w)) = true ->
  commit_of w + 1 < 2 ^ 31 ->
  exists w' hdr',
    WriteAheadLog.commit (commit_of w + 1) w = (Resolved (commit_of w + 1), w') /\
    LogIndexFile.header (WriteAheadLog.index w') = Some hdr' /\
    commit_of w' = commit_of w + 1 /\
    next_of w' = next_of w /\
    WriteAheadLog.file w' = WriteAheadLog.file w /\
    RandomAccessFile.content (LogIndexFile.file (WriteAheadLog.index w'))
    = RandomAccessFile.splice 12 (Buffer.int32_octets (commit_of w + 1))
        (RandomAccessFile.content (LogIndexFile.file (WriteAheadLog.index w))).
Proof.
  destruct w as [lf [[ic id iw] hd]]. cbn [WriteAheadLog.index WriteAheadLog.file
    LogIndexFile.header LogIndexFile.file RandomAccessFile.descriptor
    RandomAccessFile.writable RandomAccessFile.content].
  intros -> Hlen -> -> Hc.
  rewrite commit_of_open in *. fold (opened ic).
  pose proof (readInt32BE_int32 hdr 12) as Hlow. unfold int32 in Hlow.
  destruct (header_cells hdr Hlen)
    as (b0 & b1 & b2 & b3 & b4 & b5 & b6 & b7 & b8 & b9 & b10 & b11
        & b12 & b13 & b14 & b15 & ->).
  set (C := Buffer.readInt32BE _ 12) in *.
  eexists. eexists. split; [|split; [|split; [|split; [|split]]]].
  - unfold WriteAheadLog.commit. apply on_index_run.
    unfold LogIndexFile.commit.
    erewrite bind_run by reflexivity. erewrite bind_run by reflexivity.
    change (Z.to_nat LogIndexFile.OFS_COMMIT) with 12%nat. fold C.
    rewrite Z.ltb_irrefl, Z.eqb_refl. cbn [negb].
    erewrite bind_run by reflexivity. erewrite bind_run by reflexivity.
    erewrite then_run.
    2: { apply on_file_run, file_write_part;
         unfold LogIndexFile.OFS_COMMIT, LogIndexFile.SIZEOF_INT; simpl; lia. }
    reflexivity.
  - reflexivity.
  - rewrite commit_of_open.
    exact (readInt32BE_octets [b0; b1; b2; b3; b4; b5; b6; b7; b8; b9; b10; b11] []
             (C + 1) ltac:(lia)).
  - reflexivity.
  - reflexivity.
  - reflexivity.
Qed.

(** C2. Ordered commit, on every log whose index is open on a writable
    file, with commit head [C] below the largest 32-bit integer:
    [commit(C + 1)] resolves with [C + 1], makes it the commit head, leaves
    the write head and the log file alone and stores the four octets of the
    new commit head at offset 12 of the index file, where a reader finds
    it; [commit(L)] with [L < C + 1] resolves with [L] and changes nothing;
    [commit(L)] with [L > C + 1] rejects with the error
    'Out of order commit; expected C+1 but received L.' and changes
    nothing. *)
Theorem ordered_commit (w : WriteAheadLog.t) (hdr : list byte) (L : Z) :
  LogIndexFile.header (WriteAheadLog.index w) = Some hdr ->
  length hdr = 16%nat ->
  RandomAccessFile.descriptor (LogIndexFile.file (WriteAheadLog.index w)) = true ->
  RandomAccessFile.writable (LogIndexFile.file (WriteAheadLog.index w)) = true ->
  commit_of w + 1 < 2 ^ 31 ->
  (L = commit_of w + 1 ->
   exists w',
     WriteAheadLog.commit L w = (Resolved L, w') /\
     commit_of w' = L /\
     next_of w' = next_of w /\
     WriteAheadLog.file w' = WriteAheadLog.file w /\
     RandomAccessFile.content (LogIndexFile.file (WriteAheadLog.index w'))
     = RandomAccessFile.splice 12 (Buffer.int32_octets L)
         (RandomAccessFile.content (LogIndexFile.file (WriteAheadLog.index w))) /\
     Buffer.readInt32BE
       (RandomAccessFile.content (LogIndexFile.file (WriteAheadLog.index w'))) 12 = L) /\
  (L < commit_of w + 1 -> WriteAheadLog.commit L w = (Resolved L, w)) /\
  (commit_of w + 1 < L ->
   WriteAheadLog.commit L w
   = (Rejected
        (Error (String.append "Out of order commit; expected "
                  (String.append (show (commit_of w + 1))
                     (String.append " but received " (String.append (show L) "."))))),
      w)).
Proof.
  intros Hhdr Hlen Hd Hw Hc.
  split; [|split].
  - intros ->.
    destruct (commit_advance w hdr Hhdr Hlen Hd Hw Hc)
      as (w' & hdr' & Hr & _ & Hcm & Hn & Hf & Hcontent).
    exists w'. repeat split; try assumption.
    rewrite Hcontent. apply (splice_readInt32BE 12).
    pose proof (readInt32BE_int32 hdr 12) as Hlow.
    destruct w as [lf [ifile hd]]. cbn in Hhdr. subst hd.
    rewrite commit_of_open in *. unfold int32 in *. lia.
  - intros HL. destruct w as [lf [ifile hd]]. cbn in Hhdr. subst hd.
    rewrite commit_of_open in *.
    unfold WriteAheadLog.commit. apply on_index_run.
    unfold LogIndexFile.commit.
    erewrite bind_run by reflexivity. erewrite bind_run by reflexivity.
    change (Z.to_nat LogIndexFile.OFS_COMMIT) with 12%nat.
    rewrite (proj2 (Z.ltb_lt L _)) by exact HL. reflexivity.
  - intros HL. destruct w as [lf [ifile hd]]. cbn in Hhdr. subst hd.
    rewrite commit_of_open in *.
    unfold WriteAheadLog.commit. apply on_index_run.
    unfold LogIndexFile.commit.
    erewrite bind_run by reflexivity. erewrite bind_run by reflexivity.
    change (Z.to_nat LogIndexFile.OFS_COMMIT) with 12%nat.
    rewrite (proj2 (Z.ltb_ge L _)) by lia.
    rewrite (proj2 (Z.eqb_neq L _)) by lia. reflexivity.
Qed.

Lemma ordered_commit_witness :
  let w := image [["a"]; ["b"]; ["c"]]%byte 0 [] in
  (exists w', WriteAheadLog.commit 1 w = (Resolved 1, w') /\ commit_of w' = 1
              /\ next_of w' = 3) /\
  WriteAheadLog.commit 0 w = (Resolved 0, w) /\
  WriteAheadLog.commit 2 w
  = (Rejected (Error "Out of order commit; expected 1 but received 2."), w).
Proof.
  intros w.
  assert (Hc : commit_of w + 1 < 2 ^ 31) by (vm_compute; reflexivity).
  pose proof (ordered_commit w (header_bytes 0 3 0) 1 eq_refl eq_refl eq_refl eq_refl Hc)
    as (H1 & _ & _).
  pose proof (ordered_commit w (header_bytes 0 3 0) 0 eq_refl eq_refl eq_refl eq_refl Hc)
    as (_ & H0 & _).
  pose proof (ordered_commit w (header_bytes 0 3 0) 2 eq_refl eq_refl eq_refl eq_refl Hc)
    as (_ & _ & H2).
  split; [|split].
  - destruct (H1 ltac:(vm_compute; reflexivity)) as (w' & Hr & Hcm & Hn & _).
    exists w'. split; [exact Hr|]. split; [exact Hcm|].
    rewrite Hn. vm_compute. reflexivity.
  - apply H0. vm_compute. reflexivity.
  - rewrite (H2 ltac:(vm_compute; reflexivity)). vm_compute. reflexivity.
Defined.

(** ** [truncate] *)

Lemma total_length_concat ps : total_length ps = Z.of_nat (length (concat ps)).
Proof.
  induction ps as [|p ps IH]; [reflexivity|].
  cbn [total_length concat]. rewrite IH, length_app. lia.
Qed.

Lemma slots_offsets_split ps (stale : list byte) t :
  (t <= length ps)%nat ->
  slots (offsets 0 ps) ++ stale
  = slots (offsets 0 (take t ps)) ++ slots (drop (S t) (offsets 0 ps)) ++ stale.
Proof.
  intros Ht. rewrite <- (offsets_take 0 ps t Ht), app_assoc, <- slots_app, take_drop.
  reflexivity.
Qed.

Lemma truncate_wal_run ps c stale t :
  fits ps -> int32 c -> c < Z.of_nat t < Z.of_nat (length ps) ->
  WriteAheadLog.truncate (Z.of_nat t) (image ps c stale)
  = (Resolved (Z.of_nat (length (concat (take t ps)))),
     image (take t ps) c (slots (drop (S t) (offsets 0 ps)) ++ stale)).
Proof.
  intros Hf Hc Ht. unfold WriteAheadLog.truncate.
  erewrite then_run
    by (apply on_index_run, truncate_run;
        [apply fits_int32_length, Hf | exact Hc | exact Ht | lia
        | rewrite length_image_tail; lia]).
  rewrite slot_image by (assumption || lia).
  erewrite on_log_run by (apply file_truncate; lia).
  unfold settle, image. rewrite Nat2Z.id, concat_take_resize.
  rewrite length_take, Nat.min_l by lia.
  rewrite (slots_offsets_split ps stale t) by lia. reflexivity.
Qed.

Lemma truncate_committed ps c stale T :
  int32 c -> T <= c ->
  WriteAheadLog.truncate T (image ps c stale)
  = (Thrown (AssertionError "cannot truncate a committed log entry"), image ps c stale).
Proof.
  intros Hc HT. unfold WriteAheadLog.truncate.
  erewrite then_thrown; [reflexivity|].
  apply on_index_run. unfold LogIndexFile.truncate. exec.
  rewrite (proj2 (Z.ltb_ge c T)) by lia. reflexivity.
Qed.

Lemma truncate_out_of_range ps c stale T :
  fits ps -> int32 c -> c < T -> Z.of_nat (length ps) <= T ->
  WriteAheadLog.truncate T (image ps c stale)
  = (Thrown (AssertionError "index out of range"), image ps c stale).
Proof.
  intros Hf Hc HT Hh. pose proof (fits_int32_length _ Hf).
  unfold WriteAheadLog.truncate.
  erewrite then_thrown; [reflexivity|].
  apply on_index_run. unfold LogIndexFile.truncate. exec.
  rewrite (proj2 (Z.ltb_ge T (Z.of_nat (length ps)))) by lia. reflexivity.
Qed.

Lemma chained_thrown {S A} (m : M S A) s e s' :
  m s = (Thrown e, s') -> chained m s = (Rejected e, s').
Proof. intros H. unfold chained, and_then, ret. rewrite H. reflexivity. Qed.

Lemma readInt32BE_app_r (pre buf : list byte) k :
  Buffer.readInt32BE (pre ++ buf) (length pre + k) = Buffer.readInt32BE buf k.
Proof.
  unfold Buffer.readInt32BE. rewrite <- !Nat.add_assoc, !octet_app_r. reflexivity.
Qed.

Lemma slot_of_image ps c stale l :
  0 <= l ->
  slot_of (image ps c stale) l
  = Buffer.readInt32BE (slots (offsets 0 ps) ++ stale) (Z.to_nat (4 * l)).
Proof.
  intros Hl. unfold slot_of, image, index_of.
  cbn [WriteAheadLog.index LogIndexFile.file RandomAccessFile.content opened].
  replace (Z.to_nat (LogIndexFile.HLEN + l * LogIndexFile.SIZEOF_INT))
    with (length (header_bytes 0 (Z.of_nat (length ps)) c) + Z.to_nat (4 * l))%nat
    by (rewrite header_length; unfold LogIndexFile.HLEN, LogIndexFile.SIZEOF_INT; lia).
  apply readInt32BE_app_r.
Qed.

Lemma next_of_image ps c stale : fits ps -> next_of (image ps c stale) = Z.of_nat (length ps).
Proof. intros Hf. unfold next_of. rewrite next_run by exact Hf. reflexivity. Qed.

Lemma commit_of_image ps c stale : int32 c -> commit_of (image ps c stale) = c.
Proof. intros Hc. unfold commit_of. rewrite commitHead_wal_run by exact Hc. reflexivity. Qed.

Lemma size_image ps c stale : WriteAheadLog.size (image ps c stale) = total_length ps.
Proof. rewrite total_length_concat. reflexivity. Qed.

(** C3. Truncation, on a log holding the entries [ps] with commit head
    [c]. When [c < T < next]: [truncate(T)] resolves with the new size of
    the log; afterwards the log holds the entries below [T], so that
    [next = T], the size is the sum of the lengths of the entries below
    [T], and the commit head is still [c]; the end offset the index
    returns is that sum, it is O(base) when [T] is the base and
    [get(T - 1).offset + get(T - 1).length] otherwise. When the
    precondition fails the assertion is raised before anything is touched:
    the call throws, a call chained in a [then] callback rejects, and the
    state is unchanged. *)
Theorem truncate_postcondition (ps : list (list byte)) (c : Z) (w : WriteAheadLog.t) (T : Z) :
  Represents ps c w ->
  (c < T < Z.of_nat (length ps) ->
   exists w',
     WriteAheadLog.truncate T w = (Resolved (total_length (take (Z.to_nat T) ps)), w') /\
     Represents (take (Z.to_nat T) ps) c w' /\
     next_of w' = T /\
     WriteAheadLog.size w' = total_length (take (Z.to_nat T) ps) /\
     commit_of w' = c /\
     exists end_offset i',
       LogIndexFile.truncate T (WriteAheadLog.index w) = (Resolved end_offset, i') /\
       end_offset = total_length (take (Z.to_nat T) ps) /\
       (T = 0 -> end_offset = slot_of w 0) /\
       (T <> 0 ->
        exists rec,
          LogIndexFile.get (T - 1) i' = (Resolved rec, i') /\
          end_offset = LogIndexFile.rec_offset rec + LogIndexFile.rec_length rec)) /\
  (~ (c < T < Z.of_nat (length ps)) ->
   let msg := if T <=? c then "cannot truncate a committed log entry"%string
              else "index out of range"%string in
   WriteAheadLog.truncate T w = (Thrown (AssertionError msg), w) /\
   chained (WriteAheadLog.truncate T) w = (Rejected (AssertionError msg), w)).
Proof.
  intros (Hf & Hc & stale & ->).
  assert (Hc32 : int32 c) by (unfold int32; lia).
  split.
  - intros HT. set (t := Z.to_nat T).
    assert (HTt : T = Z.of_nat t) by lia.
    assert (Htl : (t <= length ps)%nat) by lia.
    pose proof (fits_take ps t Hf) as Hft.
    exists (image (take t ps) c (slots (drop (S t) (offsets 0 ps)) ++ stale)).
    split; [|split; [|split; [|split; [|split]]]].
    + rewrite total_length_concat, HTt. apply truncate_wal_run; [assumption..|lia].
    + split; [exact Hft|]. split; [lia|]. eexists. reflexivity.
    + rewrite next_of_image by exact Hft. rewrite length_take. lia.
    + apply size_image.
    + apply commit_of_image, Hc32.
    + exists (Buffer.readInt32BE (slots (offsets 0 ps) ++ stale) (Z.to_nat (4 * T))),
        (index_of T c (slots (offsets 0 ps) ++ stale)).
      split; [|split; [|split]].
      * apply truncate_run;
          [apply fits_int32_length, Hf | exact Hc32 | exact HT | lia
          | rewrite length_image_tail; lia].
      * rewrite HTt at 1. rewrite slot_image by (assumption || lia).
        symmetry. apply total_length_concat.
      * intros ->. rewrite slot_of_image by lia. reflexivity.
      * intros Hne. eexists. split.
        -- pose proof (fits_int32_length _ Hf) as Hn.
           apply get_run; rewrite ?length_image_tail; unfold int32 in *; lia.
        -- cbn [LogIndexFile.rec_offset LogIndexFile.rec_length].
           replace (Z.to_nat (4 * T)) with (Z.to_nat (4 * (T - 1)) + 4)%nat by lia. lia.
  - intros HT. destruct (Z.leb_spec T c) as [Hle|Hgt]; cbv zeta.
    + split; [|apply chained_thrown]; apply truncate_committed; assumption.
    + split; [|apply chained_thrown]; apply truncate_out_of_range; (assumption || lia).
Qed.

Lemma truncate_postcondition_witness :
  let ps := [["a"; "b"]; ["c"]; ["d"; "e"; "f"]]%byte in
  let w := image ps 0 [] in
  (exists w', WriteAheadLog.truncate 1 w = (Resolved 2, w')
              /\ next_of w' = 1 /\ WriteAheadLog.size w' = 2 /\ commit_of w' = 0) /\
  WriteAheadLog.truncate 0 w
  = (Thrown (AssertionError "cannot truncate a committed log entry"), w) /\
  WriteAheadLog.truncate 3 w = (Thrown (AssertionError "index out of range"), w).
Proof.
  intros ps w.
  assert (HR : Represents ps 0 w).
  { split; [unfold fits; simpl; lia|]. split; [lia|]. exists []. reflexivity. }
  split; [|split].
  - destruct (truncate_postcondition ps 0 w 1 HR) as (Hok & _).
    destruct Hok as (w' & Hr & _ & Hn & Hs & Hcm & _); [simpl; lia|].
    exists w'. split; [exact Hr|]. split; [exact Hn|]. split; [exact Hs|exact Hcm].
  - destruct (truncate_postcondition ps 0 w 0 HR) as (_ & Hfail).
    destruct Hfail as (Hr & _); [simpl; lia|]. exact Hr.
  - destruct (truncate_postcondition ps 0 w 3 HR) as (_ & Hfail).
    destruct Hfail as (Hr & _); [simpl; lia|]. exact Hr.
Defined.

(** ** [recover] *)

Lemma on_wal_run {A} (m : M WriteAheadLog.t A) r w w' cs :
  m w = (r, w') ->
  WriteAheadLog.on_wal m (recovering w cs) = (r, recovering w' cs).
Proof. intros H. unfold WriteAheadLog.on_wal, zoom. simpl. rewrite H. reflexivity. Qed.

Lemma commit_wal_run ps c stale L :
  int32 c -> int32 L -> L = c + 1 ->
  WriteAheadLog.commit L (image ps c stale) = (Resolved L, image ps L stale).
Proof.
  intros Hc HL HeqL. unfold WriteAheadLog.commit, image.
  apply on_index_run, commit_run; assumption.
Qed.

Lemma truncAfterCommitHead_run ps c stale cs t :
  fits ps -> -1 <= c -> Z.of_nat t = c + 1 -> c + 1 < Z.of_nat (length ps) ->
  WriteAheadLog.truncAfterCommitHead (recovering (image ps c stale) cs)
  = (Resolved tt,
     recovering (image (take t ps) c (slots (drop (S t) (offsets 0 ps)) ++ stale)) cs).
Proof.
  intros Hf Hc Ht Hlt. assert (Hc32 : int32 c) by (unfold fits, int32 in *; lia).
  unfold WriteAheadLog.truncAfterCommitHead.
  erewrite bind_run by (apply on_wal_run, commitHead_wal_run, Hc32).
  rewrite <- Ht.
  erewrite then_run by (apply on_wal_run, truncate_wal_run; [assumption..|lia]).
  reflexivity.
Qed.

Lemma truncAfterCommitHead_at_head ps c stale cs :
  fits ps -> c + 1 = Z.of_nat (length ps) ->
  WriteAheadLog.truncAfterCommitHead (recovering (image ps c stale) cs)
  = (Thrown (AssertionError "index out of range"), recovering (image ps c stale) cs).
Proof.
  intros Hf Hc. assert (Hc32 : int32 c) by (unfold fits, int32 in *; lia).
  unfold WriteAheadLog.truncAfterCommitHead.
  erewrite bind_run by (apply on_wal_run, commitHead_wal_run, Hc32).
  erewrite then_thrown; [reflexivity|].
  apply on_wal_run, truncate_out_of_range; (assumption || lia).
Qed.

Lemma call_run h i d w cs :
  WriteAheadLog.call h i d (recovering w cs) = (Resolved (h i d), recovering w (cs ++ [(i, d)])).
Proof. reflexivity. Qed.

Lemma entries_from_cons k ps p :
  ps !! k = Some p -> entries_from k ps = (Z.of_nat k, p) :: entries_from (S k) ps.
Proof.
  intros Hk. pose proof (lookup_lt_Some _ _ _ Hk) as Hlt.
  unfold entries_from. rewrite (drop_S ps p k Hk).
  replace (length ps - k)%nat with (S (length ps - S k)) by lia. reflexivity.
Qed.

Lemma entries_from_end ps : entries_from (length ps) ps = [].
Proof. unfold entries_from. rewrite Nat.sub_diag. reflexivity. Qed.

Lemma settle_rejected {S B} (r : outcome B * S) e s :
  r = (Rejected e, s) -> settle r = (Rejected e, s).
Proof. intros ->. reflexivity. Qed.

Lemma settle_thrown {S B} (r : outcome B * S) e s :
  r = (Thrown e, s) -> settle r = (Rejected e, s).
Proof. intros ->. reflexivity. Qed.

Lemma settle_resolved {S B} (r : outcome B * S) b s :
  r = (Resolved b, s) -> settle r = (Resolved b, s).
Proof. intros ->. reflexivity. Qed.

Lemma possiblyRecover_accept h ps stale :
  accepts_all h -> fits ps ->
  forall m k cs budget,
    (k + S m = length ps)%nat -> (S m <= budget)%nat ->
    WriteAheadLog.possiblyRecover budget h (Z.of_nat (length ps)) (Z.of_nat k)
      (recovering (image ps (Z.of_nat k - 1) stale) cs)
    = (Rejected (AssertionError "index out of range"),
       recovering (image ps (Z.of_nat (length ps) - 1) stale) (cs ++ entries_from k ps)).
Proof.
  intros Hacc Hf. induction m as [|m IH]; intros k cs budget Hk Hb.
  all: destruct budget as [|budget]; [lia|].
  all: destruct (lookup_lt_is_Some_2 ps k ltac:(lia)) as [p Hp].
  all: pose proof (fits_int32_length _ Hf) as Hn.
  all: cbn [WriteAheadLog.possiblyRecover].
  all: erewrite then_run by (apply on_wal_run, read_run; eassumption).
  all: erewrite bind_run by apply call_run.
  all: erewrite (entries_from_cons k ps p Hp).
  - assert (Hlast : S k = length ps) by lia.
    assert (Hstep :
      ((WriteAheadLog.on_wal (WriteAheadLog.commit (Z.of_nat k)))
       .then (fun committed =>
                if committed + 1 <? Z.of_nat (length ps)
                then WriteAheadLog.possiblyRecover budget h (Z.of_nat (length ps)) (committed + 1)
                else WriteAheadLog.truncAfterCommitHead))
        (recovering (image ps (Z.of_nat k - 1) stale) (cs ++ [(Z.of_nat k, p)]))
      = (Rejected (AssertionError "index out of range"),
         recovering (image ps (Z.of_nat (length ps) - 1) stale)
           (cs ++ (Z.of_nat k, p) :: entries_from (S k) ps))).
    { erewrite then_run
        by (apply on_wal_run, commit_wal_run; unfold int32 in *; lia).
      rewrite (proj2 (Z.ltb_ge (Z.of_nat k + 1) (Z.of_nat (length ps)))) by lia.
      rewrite truncAfterCommitHead_at_head by (assumption || lia).
      rewrite Hlast, entries_from_end.
      replace (Z.of_nat (length ps) - 1) with (Z.of_nat k) by lia. reflexivity. }
    destruct (Hacc (Z.of_nat k) p) as [-> | ->].
    + apply settle_rejected. exact Hstep.
    + apply settle_rejected. erewrite then_run by reflexivity.
      apply settle_rejected. exact Hstep.
  - assert (Hstep :
      ((WriteAheadLog.on_wal (WriteAheadLog.commit (Z.of_nat k)))
       .then (fun committed =>
                if committed + 1 <? Z.of_nat (length ps)
                then WriteAheadLog.possiblyRecover budget h (Z.of_nat (length ps)) (committed + 1)
                else WriteAheadLog.truncAfterCommitHead))
        (recovering (image ps (Z.of_nat k - 1) stale) (cs ++ [(Z.of_nat k, p)]))
      = (Rejected (AssertionError "index out of range"),
         recovering (image ps (Z.of_nat (length ps) - 1) stale)
           (cs ++ (Z.of_nat k, p) :: entries_from (S k) ps))).
    { erewrite then_run
        by (apply on_wal_run, commit_wal_run; unfold int32 in *; lia).
      rewrite (proj2 (Z.ltb_lt (Z.of_nat k + 1) (Z.of_nat (length ps)))) by lia.
      replace (Z.of_nat k + 1) with (Z.of_nat (S k)) by lia.
      replace (Z.of_nat k) with (Z.of_nat (S k) - 1) at 1 by lia.
      rewrite IH by lia. rewrite <- app_assoc. reflexivity. }
    destruct (Hacc (Z.of_nat k) p) as [-> | ->].
    + apply settle_rejected. exact Hstep.
    + apply settle_rejected. erewrite then_run by reflexivity.
      apply settle_rejected. exact Hstep.
Qed.

Lemma recover_start ps c stale cs budget h :
  fits ps -> int32 c ->
  WriteAheadLog.recover budget (WriteAheadLog.Callable h) (recovering (image ps c stale) cs)
  = (if c + 1 <? Z.of_nat (length ps)
     then WriteAheadLog.possiblyRecover budget h (Z.of_nat (length ps)) (c + 1)
     else ret tt) (recovering (image ps c stale) cs).
Proof.
  intros Hf Hc. unfold WriteAheadLog.recover.
  erewrite bind_run by (apply on_wal_run, next_run, Hf).
  erewrite bind_run by (apply on_wal_run, commitHead_wal_run, Hc).
  reflexivity.
Qed.

(** C4. Recovery with a handler that accepts every entry, on a log with
    commit head [c] and write head [H], [c + 1 < H], given a budget of at
    least [H - c - 1] callbacks: the handler is called once for each
    uncommitted LSN [c + 1, ..., H - 1], in increasing order and with that
    entry's payload, each entry is committed in turn, and afterwards
    [next = H] and [commit = H - 1]. The promise does not resolve, though:
    after the last commit [truncate(commit + 1)] is a [truncate(H)], and
    the assertion 'index out of range' of the index rejects it. *)
Theorem recover_accepting_handler (ps : list (list byte)) (c : Z) (w : WriteAheadLog.t)
    (h : Z -> list byte -> WriteAheadLog.decision) (budget : nat) :
  Represents ps c w -> accepts_all h ->
  c + 1 < Z.of_nat (length ps) ->
  (length ps - Z.to_nat (c + 1) <= budget)%nat ->
  exists w',
    WriteAheadLog.recover budget (WriteAheadLog.Callable h) (recovering w [])
    = (Rejected (AssertionError "index out of range"),
       recovering w' (entries_from (Z.to_nat (c + 1)) ps)) /\
    Represents ps (Z.of_nat (length ps) - 1) w' /\
    next_of w' = Z.of_nat (length ps) /\
    commit_of w' = Z.of_nat (length ps) - 1.
Proof.
  intros (Hf & Hc & stale & ->) Hacc Hlt Hb.
  pose proof (fits_int32_length _ Hf) as Hn.
  assert (Hc32 : int32 c) by (unfold int32; lia).
  exists (image ps (Z.of_nat (length ps) - 1) stale).
  split; [|split; [|split]].
  - rewrite recover_start by assumption.
    rewrite (proj2 (Z.ltb_lt (c + 1) (Z.of_nat (length ps)))) by exact Hlt.
    set (k := Z.to_nat (c + 1)).
    replace (c + 1) with (Z.of_nat k) by lia.
    replace c with (Z.of_nat k - 1) at 1 by lia.
    rewrite (possiblyRecover_accept h ps stale Hacc Hf (length ps - S k) k [] budget)
      by lia.
    reflexivity.
  - split; [exact Hf|]. split; [unfold fits in Hf; lia|]. eexists. reflexivity.
  - apply next_of_image, Hf.
  - apply commit_of_image. unfold int32 in *. lia.
Qed.

Lemma recover_accepting_handler_witness :
  let ps := [["a"]; ["b"; "c"]; ["d"]; ["e"; "f"]]%byte in
  exists w',
    WriteAheadLog.recover 2 (WriteAheadLog.Callable (fun _ _ => WriteAheadLog.Now true))
      (recovering (image ps 1 []) [])
    = (Rejected (AssertionError "index out of range"),
       recovering w' [(2, ["d"]%byte); (3, ["e"; "f"]%byte)]) /\
    next_of w' = 4 /\ commit_of w' = 3.
Proof.
  intros ps.
  destruct (recover_accepting_handler ps 1 (image ps 1 [])
              (fun _ _ => WriteAheadLog.Now true) 2)
    as (w' & Hr & _ & Hn & Hc).
  - split; [unfold fits; simpl; lia|]. split; [lia|]. exists []. reflexivity.
  - intros i d. left. reflexivity.
  - simpl. lia.
  - simpl. lia.
  - exists w'. split; [exact Hr|]. split; [exact Hn | exact Hc].
Defined.



(** ** [isCommitted] *)

Lemma isCommitted_open f ifile hdr L :
  WriteAheadLog.isCommitted L
    {| WriteAheadLog.file := f;
       WriteAheadLog.index := {| LogIndexFile.file := ifile;
                                 LogIndexFile.header := Some hdr |} |}
  = (Resolved (L <? Buffer.readInt32BE hdr 12),
     {| WriteAheadLog.file := f;
        WriteAheadLog.index := {| LogIndexFile.file := ifile;
                                  LogIndexFile.header := Some hdr |} |}).
Proof. reflexivity. Qed.

(** C8. On every log whose index is open, [isCommitted(L)] returns
    whether [L] is strictly below the commit head; so, right after
    [commit(L)] has advanced the commit head to [L], [isCommitted(L)]
    returns false for that most recently committed LSN. *)
Theorem isCommitted_strict (w : WriteAheadLog.t) (hdr : list byte) (L : Z) :
  LogIndexFile.header (WriteAheadLog.index w) = Some hdr ->
  WriteAheadLog.isCommitted L w = (Resolved (L <? commit_of w), w) /\
  ((L <? commit_of w) = true <-> L < commit_of w) /\
  (length hdr = 16%nat ->
   RandomAccessFile.descriptor (LogIndexFile.file (WriteAheadLog.index w)) = true ->
   RandomAccessFile.writable (LogIndexFile.file (WriteAheadLog.index w)) = true ->
   commit_of w + 1 < 2 ^ 31 ->
   L = commit_of w + 1 ->
   exists w',
     WriteAheadLog.commit L w = (Resolved L, w') /\
     commit_of w' = L /\
     WriteAheadLog.isCommitted L w' = (Resolved false, w')).
Proof.
  intros Hhdr. split; [|split].
  - destruct w as [lf [ifile hd]]. cbn in Hhdr. subst hd.
    rewrite commit_of_open. apply isCommitted_open.
  - apply Z.ltb_lt.
  - intros Hlen Hd Hw Hc ->.
    destruct (commit_advance w hdr Hhdr Hlen Hd Hw Hc)
      as (w' & hdr' & Hr & Hhdr' & Hcm & _).
    exists w'. split; [exact Hr|]. split; [exact Hcm|].
    destruct w' as [lf' [ifile' hd']]. cbn in Hhdr'. subst hd'.
    rewrite isCommitted_open. rewrite commit_of_open in Hcm.
    rewrite Hcm, Z.ltb_irrefl. reflexivity.
Qed.

Lemma isCommitted_strict_witness :
  let w := image [["a"]; ["b"]; ["c"]]%byte 0 [] in
  WriteAheadLog.isCommitted 0 w = (Resolved false, w) /\
  WriteAheadLog.isCommitted (-1) w = (Resolved true, w) /\
  exists w',
    WriteAheadLog.commit 1 w = (Resolved 1, w') /\
    WriteAheadLog.isCommitted 1 w' = (Resolved false, w').
Proof.
  intros w.
  pose proof (isCommitted_strict w (header_bytes 0 3 0) 0 eq_refl) as (H0 & _ & _).
  pose proof (isCommitted_strict w (header_bytes 0 3 0) (-1) eq_refl) as (Hm & _ & _).
  pose proof (isCommitted_strict w (header_bytes 0 3 0) 1 eq_refl) as (_ & _ & H1).
  split; [exact H0|]. split; [exact Hm|].
  destruct (H1 eq_refl eq_refl eq_refl ltac:(vm_compute; reflexivity)
               ltac:(vm_compute; reflexivity)) as (w' & Hr & _ & Hi).
  exists w'. split; [exact Hr | exact Hi].
Defined.

(** ** A closed index *)

(** C10. Once [close()] has resolved on an index, its cached header is
    cleared, and [marker], [baseIndex], [head], [commitHead],
    [isCommitted], [commit], [offset], [get], [getRange] and [increment]
    all fail with the assertion 'index must be open', leaving the object
    as it is. *)
Theorem closed_index_must_be_open (idx idx' : LogIndexFile.t) :
  LogIndexFile.close idx = (Resolved tt, idx') ->
  LogIndexFile.header idx' = None /\
  LogIndexFile.marker idx' = (Thrown (AssertionError "index must be open"), idx') /\
  LogIndexFile.baseIndex idx' = (Thrown (AssertionError "index must be open"), idx') /\
  LogIndexFile.head idx' = (Thrown (AssertionError "index must be open"), idx') /\
  LogIndexFile.commitHead idx' = (Thrown (AssertionError "index must be open"), idx') /\
  (forall L, LogIndexFile.isCommitted L idx'
             = (Thrown (AssertionError "index must be open"), idx')) /\
  (forall L, LogIndexFile.commit L idx'
             = (Thrown (AssertionError "index must be open"), idx')) /\
  (forall L, LogIndexFile.offset L idx'
             = (Thrown (AssertionError "index must be open"), idx')) /\
  (forall L, LogIndexFile.get L idx'
             = (Thrown (AssertionError "index must be open"), idx')) /\
  (forall L count, LogIndexFile.getRange L count idx'
                   = (Thrown (AssertionError "index must be open"), idx')) /\
  (forall o, LogIndexFile.increment o idx'
             = (Thrown (AssertionError "index must be open"), idx')).
Proof.
  intros Hclose.
  assert (Hnone : LogIndexFile.header idx' = None).
  { revert Hclose. unfold LogIndexFile.close, and_then, LogIndexFile.on_file, zoom.
    destruct (RandomAccessFile.close (LogIndexFile.file idx)) as [[u|e|e|] f'];
      cbn; intros Heq; inversion Heq. reflexivity. }
  destruct idx' as [f' hd']. cbn in Hnone. subst hd'.
  split; [reflexivity|]. repeat split; intros; reflexivity.
Qed.

Lemma closed_index_must_be_open_witness :
  exists idx',
    LogIndexFile.close (index_of 2 0 (slots [0; 3; 5])) = (Resolved tt, idx') /\
    LogIndexFile.head idx' = (Thrown (AssertionError "index must be open"), idx') /\
    LogIndexFile.get 1 idx' = (Thrown (AssertionError "index must be open"), idx').
Proof.
  eexists. split; [reflexivity|].
  destruct (closed_index_must_be_open (index_of 2 0 (slots [0; 3; 5])) _ eq_refl)
    as (_ & _ & _ & Hh & _ & _ & _ & _ & Hg & _).
  split; [exact Hh | exact (Hg 1)].
Defined.

(** ** [write] and its payload *)

Lemma file_read_frame off len f :
  exists r, RandomAccessFile.read off len f = (r, f) /\ r <> Pending.
Proof.
  unfold RandomAccessFile.read.
  destruct (negb (RandomAccessFile.descriptor f)); [eexists; split; [reflexivity|discriminate]|].
  destruct ((off <? 0) || (len <? 0)); [eexists; split; [reflexivity|discriminate]|].
  destruct (_ <? _); eexists; (split; [reflexivity|discriminate]).
Qed.

Lemma offset_head_frame f ifile hdr :
  exists r,
    WriteAheadLog.on_index
      (LogIndexFile.offset (Buffer.readInt32BE hdr 8))
      {| WriteAheadLog.file := f;
         WriteAheadLog.index := {| LogIndexFile.file := ifile;
                                   LogIndexFile.header := Some hdr |} |}
    = (r, {| WriteAheadLog.file := f;
             WriteAheadLog.index := {| LogIndexFile.file := ifile;
                                       LogIndexFile.header := Some hdr |} |})
    /\ r <> Pending /\ forall e, r <> Thrown e.
Proof.
  set (i := {| LogIndexFile.file := ifile; LogIndexFile.header := Some hdr |}).
  set (ofs := LogIndexFile.HLEN
              + (Buffer.readInt32BE hdr 8 - Buffer.readInt32BE hdr 4) * LogIndexFile.SIZEOF_INT).
  destruct (file_read_frame ofs LogIndexFile.SIZEOF_INT ifile) as (r & Hr & Hp).
  assert (Hoff : LogIndexFile.offset (Buffer.readInt32BE hdr 8) i
                 = (match r with
                    | Resolved data => Resolved (Buffer.readInt32BE data 0)
                    | Rejected e => Rejected e
                    | Thrown e => Thrown e
                    | Pending => Pending
                    end, i)).
  { unfold LogIndexFile.offset.
    erewrite bind_run by reflexivity.
    change (Z.to_nat LogIndexFile.OFS_HEAD) with 8%nat.
    rewrite Z.leb_refl.
    erewrite bind_run by reflexivity. erewrite bind_run by reflexivity.
    erewrite bind_run by reflexivity.
    unfold and_then, LogIndexFile.on_file, zoom. cbn [LogIndexFile.file i].
    change (Z.to_nat LogIndexFile.OFS_BASEINDEX) with 4%nat. fold ofs.
    rewrite Hr. destruct r; reflexivity. }
  eexists. split; [apply on_index_run, Hoff|].
  assert (Hnt : forall e, r <> Thrown e).
  { intros e ->. revert Hr. unfold RandomAccessFile.read.
    destruct (negb _); [discriminate|]. destruct (_ || _); [discriminate|].
    destruct (_ <? _); discriminate. }
  split; [destruct r; congruence|].
  intros e. destruct r; try discriminate. intros [= ->]. exact (Hnt e eq_refl).
Qed.

Lemma file_write_refused (data : jsval) (off : Z) (f : RandomAccessFile.t) :
  is_payload data = false ->
  exists e,
    settle (RandomAccessFile.write off data None None f) = (Rejected e, f) /\
    (RandomAccessFile.descriptor f = true -> RandomAccessFile.writable f = true ->
     0 <= off ->
     e = if is_buffer data then Error "Unexpected end of file"
         else AssertionError "data (Buffer) is required").
Proof.
  intros Hdata. destruct data as [| | |[|b buf]]; try discriminate.
  1-3: eexists; split; [reflexivity|]; intros; reflexivity.
  unfold RandomAccessFile.write. cbn [default length Buffer.slice take drop].
  destruct (RandomAccessFile.descriptor f), (RandomAccessFile.writable f); cbn [andb negb].
  2-4: eexists; split; [reflexivity|]; intros; discriminate.
  destruct (Z.ltb_spec off 0) as [Hneg|Hpos]; cbn [orb].
  - eexists. split; [reflexivity|]. intros. lia.
  - eexists. split; [reflexivity|]. intros. reflexivity.
Qed.

Lemma write_not_payload data (w : WriteAheadLog.t) :
  is_payload data = false -> fails_unchanged (WriteAheadLog.write data) w.
Proof.
  intros Hdata. destruct w as [lf [ifile [hdr|]]].
  - destruct (offset_head_frame lf ifile hdr) as (r & Hr & Hp & Ht).
    unfold fails_unchanged, WriteAheadLog.write.
    erewrite bind_run by reflexivity.
    change (Z.to_nat LogIndexFile.OFS_HEAD) with 8%nat.
    destruct r as [firstByte|e|e|]; [| | |congruence].
    + destruct (file_write_refused data firstByte lf Hdata) as (e & He & _).
      exists e. right.
      apply then_rejected. erewrite then_run by exact Hr.
      unfold WriteAheadLog.on_log, zoom. cbn [WriteAheadLog.file WriteAheadLog.index].
      destruct (RandomAccessFile.write firstByte data None None lf) as [[a|e'|e'|] lf'];
        cbn [settle] in He |- *; congruence.
    + exists e. right. apply then_rejected, then_rejected, Hr.
    + exfalso. exact (Ht e eq_refl).
  - eexists. left. reflexivity.
Qed.

Lemma write_refused_image ps c stale data :
  fits ps -> is_payload data = false ->
  WriteAheadLog.write data (image ps c stale)
  = (Rejected (if is_buffer data then Error "Unexpected end of file"
               else AssertionError "data (Buffer) is required"), image ps c stale).
Proof.
  intros Hf Hdata. pose proof (fits_int32_length _ Hf) as Hn.
  unfold WriteAheadLog.write.
  erewrite bind_run by (apply on_index_run, head_run, Hn).
  apply then_rejected.
  erewrite then_run
    by (apply on_index_run, offset_run; [exact Hn | lia | rewrite length_image_tail; lia]).
  rewrite slot_image by (assumption || lia).
  destruct (file_write_refused data (Z.of_nat (length (concat (take (length ps) ps))))
              (opened (concat ps)) Hdata) as (e & He & Hcode).
  rewrite <- (Hcode eq_refl eq_refl ltac:(lia)).
  unfold WriteAheadLog.on_log, zoom. cbn [WriteAheadLog.file WriteAheadLog.index].
  destruct (RandomAccessFile.write _ data None None (opened (concat ps))) as [[a|e'|e'|] lf'];
    cbn [settle] in He |- *; try discriminate; injection He as -> ->; reflexivity.
Qed.

(** C9. [write] requires a non-empty Buffer: on every log, a call whose
    payload is missing, is not a Buffer or is an empty Buffer fails and
    leaves the log (write head, commit head, size and all) unchanged. On
    a log that holds entries the failure is a rejection, and the write
    head, the commit head and the size are what they were: 'data (Buffer)
    is required' for a payload that is not a Buffer, 'Unexpected end of
    file' for an empty one. *)
Theorem write_requires_buffer (data : jsval) (w : WriteAheadLog.t) :
  is_payload data = false ->
  fails_unchanged (WriteAheadLog.write data) w /\
  (forall ps c,
     Represents ps c w ->
     exists w',
       WriteAheadLog.write data w
       = (Rejected (if is_buffer data then Error "Unexpected end of file"
                    else AssertionError "data (Buffer) is required"), w') /\
       w' = w /\
       next_of w' = next_of w /\
       commit_of w' = commit_of w /\
       WriteAheadLog.size w' = WriteAheadLog.size w).
Proof.
  intros Hdata. split; [apply write_not_payload, Hdata|].
  intros ps c (Hf & Hc & stale & ->).
  exists (image ps c stale).
  split; [apply write_refused_image; assumption|].
  repeat split.
Qed.

Lemma write_requires_buffer_witness :
  let w := image [["a"; "b"]]%byte (-1) [] in
  WriteAheadLog.write JUndefined w
  = (Rejected (AssertionError "data (Buffer) is required"), w) /\
  WriteAheadLog.write (JString "This is string data.") w
  = (Rejected (AssertionError "data (Buffer) is required"), w) /\
  WriteAheadLog.write (JBuffer []) w
  = (Rejected (Error "Unexpected end of file"), w) /\
  next_of w = 1.
Proof.
  intros w.
  assert (HR : Represents [["a"; "b"]]%byte (-1) w).
  { split; [unfold fits; simpl; lia|]. split; [lia|]. exists []. reflexivity. }
  split; [|split; [|split]].
  - destruct (proj2 (write_requires_buffer JUndefined w eq_refl) _ _ HR)
      as (w' & Hw & -> & _). exact Hw.
  - destruct (proj2 (write_requires_buffer (JString "This is string data.") w eq_refl)
                _ _ HR) as (w' & Hw & -> & _). exact Hw.
  - destruct (proj2 (write_requires_buffer (JBuffer []) w eq_refl) _ _ HR)
      as (w' & Hw & -> & _). exact Hw.
  - vm_compute. reflexivity.
Defined.

(** ** The index file and the log file agree *)

Lemma base_of_image ps c stale : base_of (image ps c stale) = 0.
Proof.
  unfold base_of, image. erewrite on_index_run by apply baseIndex_run. reflexivity.
Qed.

Lemma index_extent_image ps c stale :
  fits ps -> index_extent (image ps c stale) = 16 + 4 * (Z.of_nat (length ps) + 1).
Proof.
  intros Hf. unfold index_extent. rewrite next_of_image, base_of_image by exact Hf.
  unfold LogIndexFile.HLEN, LogIndexFile.SIZEOF_INT. lia.
Qed.

Lemma index_size_image ps c stale :
  index_size (image ps c stale)
  = 16 + 4 * (Z.of_nat (length ps) + 1) + Z.of_nat (length stale).
Proof.
  unfold index_size, image, index_of, RandomAccessFile.size.
  cbn [WriteAheadLog.index LogIndexFile.file RandomAccessFile.content opened].
  rewrite !length_app, header_length, length_slots, length_offsets. lia.
Qed.

Lemma index_covers_image ps c stale : fits ps -> index_covers (image ps c stale).
Proof.
  intros Hf. unfold index_covers.
  rewrite index_extent_image, index_size_image by exact Hf. lia.
Qed.

Lemma index_exact_image ps c stale :
  fits ps -> index_exact (image ps c stale) <-> stale = [].
Proof.
  intros Hf. unfold index_exact.
  rewrite index_extent_image, index_size_image by exact Hf.
  split.
  - intros H. apply length_zero_iff_nil. lia.
  - intros ->. simpl. lia.
Qed.

Lemma head_slot_image ps c stale : fits ps -> head_slot_is_size (image ps c stale).
Proof.
  intros Hf. unfold head_slot_is_size.
  rewrite next_of_image, slot_of_image, slot_image, take_ge by (assumption || lia).
  reflexivity.
Qed.

Lemma commit_image_cases ps c stale L :
  int32 c ->
  exists r c', WriteAheadLog.commit L (image ps c stale) = (r, image ps c' stale).
Proof.
  intros Hc. unfold WriteAheadLog.commit, image.
  destruct (Z.lt_trichotomy L (c + 1)) as [Hlt | [Heq | Hgt]].
  - exists (Resolved L), c. apply on_index_run, commit_idle; assumption.
  - subst L. eexists. eexists. apply on_index_run.
    unfold LogIndexFile.commit. exec.
    rewrite Z.ltb_irrefl, Z.eqb_refl. cbn [negb]. exec.
    change (Z.to_nat LogIndexFile.OFS_COMMIT) with 12%nat. rewrite header_set_commit.
    unfold index_of at 1. cbn [LogIndexFile.file].
    erewrite then_run by apply index_flush_commit.
    reflexivity.
  - eexists. exists c. apply on_index_run, commit_out_of_order; assumption.
Qed.

(** C7 (as amended). On a log holding the entries [ps], the index file
    is at least [HLEN + (head - base + 1) * 4] octets long and the slot of
    the write head holds the size of the log file, and [create], [write],
    [commit] and [truncate] keep it so: a [write] of a non-empty payload
    appends, and a [write] of an empty Buffer is rejected and leaves the
    log as it is. [create] makes the index file exactly that long,
    [write] and [commit] keep it exactly that long when it was;
    [truncate] leaves the length of the index file as it is, so that
    afterwards the file is longer than the slots in use. *)
Theorem index_log_consistency (ps : list (list byte)) (c : Z) (w : WriteAheadLog.t) :
  Represents ps c w ->
  (index_covers w /\ head_slot_is_size w) /\
  (exists w0,
     WriteAheadLog.create = Resolved w0 /\ index_exact w0 /\ head_slot_is_size w0) /\
  (forall p,
     fits (ps ++ [p]) -> p <> [] ->
     exists w',
       WriteAheadLog.write (JBuffer p) w = (Resolved (Z.of_nat (length ps)), w') /\
       Represents (ps ++ [p]) c w' /\
       index_covers w' /\ head_slot_is_size w' /\
       (index_exact w -> index_exact w')) /\
  WriteAheadLog.write (JBuffer []) w = (Rejected (Error "Unexpected end of file"), w) /\
  (forall L,
     exists r w',
       WriteAheadLog.commit L w = (r, w') /\
       index_covers w' /\ head_slot_is_size w' /\
       (index_exact w -> index_exact w')) /\
  (forall T,
     c < T < Z.of_nat (length ps) ->
     exists n w',
       WriteAheadLog.truncate T w = (Resolved n, w') /\
       Represents (take (Z.to_nat T) ps) c w' /\
       index_covers w' /\ head_slot_is_size w' /\
       index_size w' = index_size w /\
       index_extent w' < index_size w').
Proof.
  intros (Hf & Hc & stale & ->).
  assert (Hc32 : int32 c) by (unfold int32; lia).
  split; [|split; [|split; [|split; [|split]]]].
  - split; [apply index_covers_image | apply head_slot_image]; exact Hf.
  - exists (image [] (-1) []).
    assert (Hf0 : fits []) by (unfold fits; simpl; lia).
    split; [apply create_image|]. split.
    + apply index_exact_image; [exact Hf0 | reflexivity].
    + apply head_slot_image, Hf0.
  - intros p Hfp Hne. exists (image (ps ++ [p]) c (drop 4 stale)).
    split; [apply write_run; [exact Hfp|exact Hne]|].
    split; [split; [exact Hfp|]; split; [lia|]; eexists; reflexivity|].
    split; [apply index_covers_image, Hfp|].
    split; [apply head_slot_image, Hfp|].
    intros Hex. apply (index_exact_image _ _ _ Hf) in Hex. subst stale.
    apply index_exact_image; [exact Hfp | reflexivity].
  - exact (write_refused_image ps c stale (JBuffer []) Hf eq_refl).
  - intros L. destruct (commit_image_cases ps c stale L Hc32) as (r & c' & Hr).
    exists r, (image ps c' stale). split; [exact Hr|].
    split; [apply index_covers_image, Hf|].
    split; [apply head_slot_image, Hf|].
    intros Hex. apply (index_exact_image _ _ _ Hf) in Hex.
    apply index_exact_image; assumption.
  - intros T HT. set (t := Z.to_nat T).
    assert (HTt : T = Z.of_nat t) by lia.
    pose proof (fits_take ps t Hf) as Hft.
    exists (Z.of_nat (length (concat (take t ps)))),
      (image (take t ps) c (slots (drop (S t) (offsets 0 ps)) ++ stale)).
    split; [rewrite HTt; apply truncate_wal_run; (assumption || lia)|].
    split; [split; [exact Hft|]; split; [lia|]; eexists; reflexivity|].
    split; [apply index_covers_image, Hft|].
    split; [apply head_slot_image, Hft|].
    assert (Hsize : index_size (image (take t ps) c (slots (drop (S t) (offsets 0 ps)) ++ stale))
                    = index_size (image ps c stale)).
    { rewrite !index_size_image, length_app, length_slots, length_drop,
        length_offsets, length_take. lia. }
    split; [exact Hsize|].
    rewrite Hsize, index_extent_image, index_size_image, length_take by exact Hft. lia.
Qed.

Lemma index_log_consistency_witness :
  let ps := [["a"; "b"]; ["c"]]%byte in
  let w := image ps 0 [] in
  (index_covers w /\ head_slot_is_size w) /\
  (exists w', WriteAheadLog.write (JBuffer ["d"]%byte) w = (Resolved 2, w')
              /\ index_covers w' /\ head_slot_is_size w') /\
  (exists n w', WriteAheadLog.truncate 1 w = (Resolved n, w')
                /\ index_covers w' /\ head_slot_is_size w').
Proof.
  intros ps w.
  destruct (index_log_consistency ps 0 w) as (Hnow & _ & Hwrite & _ & _ & Htrunc).
  - split; [unfold fits; simpl; lia|]. split; [lia|]. exists []. reflexivity.
  - split; [exact Hnow|]. split.
    + destruct (Hwrite ["d"]%byte) as (w' & Hr & _ & Hcov & Hslot & _).
      * unfold fits. simpl. lia.
      * discriminate.
      * exists w'. split; [exact Hr|]. split; assumption.
    + destruct (Htrunc 1) as (n & w' & Hr & _ & Hcov & Hslot & _).
      * simpl. lia.
      * exists n, w'. split; [exact Hr|]. split; assumption.
Defined.

(** The claim C7 as stated fails on [truncate]: after two writes to a
    fresh log the index file has the 28 octets its three slots need;
    [truncate(1)] leaves it 28 octets long, four more than the two slots
    in use. *)
Lemma truncate_keeps_index_length :
  let w0 := image [] (-1) [] in
  let w := image [["a"; "b"]; ["c"]]%byte (-1) [] in
  let w' := image [["a"; "b"]]%byte (-1) (Buffer.int32_octets 3) in
  WriteAheadLog.create = Resolved w0 /\
  write_all [["a"; "b"]; ["c"]]%byte w0 = (Resolved [0; 1], w) /\
  index_exact w /\
  WriteAheadLog.truncate 1 w = (Resolved 2, w') /\
  index_size w' = 28 /\ index_extent w' = 24 /\
  ~ index_exact w'.
Proof.
  intros w0 w w'.
  split; [apply create_image|].
  split; [vm_compute; reflexivity|].
  split; [vm_compute; reflexivity|].
  split; [vm_compute; reflexivity|].
  split; [vm_compute; reflexivity|].
  split; [vm_compute; reflexivity|].
  unfold index_exact. vm_compute. discriminate.
Qed.

(** ** The queue *)

Module QueueFacts.

Lemma length_waiting {A} (q : Queue.t A) :
  queue_wf q -> Queue.length q = Z.of_nat (length (waiting q)).
Proof.
  unfold queue_wf, Queue.length, waiting. intros H. rewrite length_drop. lia.
Qed.

Lemma enqueue_waiting {A} (x : A) (q : Queue.t A) :
  queue_wf q -> waiting (Queue.enqueue x q) = waiting q ++ [x] /\ queue_wf (Queue.enqueue x q).
Proof.
  unfold queue_wf, waiting, Queue.enqueue. simpl. intros H. split.
  - rewrite drop_app_le by exact H. reflexivity.
  - rewrite length_app. simpl. lia.
Qed.

Lemma dequeue_waiting {A} (x : A) (rest : list A) (q : Queue.t A) :
  queue_wf q -> waiting q = x :: rest ->
  exists q', Queue.dequeue q = (Some x, q') /\ waiting q' = rest /\ queue_wf q'.
Proof.
  intros Hwf Hw. pose proof (length_waiting q Hwf) as Hlen. rewrite Hw in Hlen.
  assert (Hx : Queue.queue q !! Queue.offset q = Some x).
  { unfold waiting in Hw. rewrite <- (Nat.add_0_r (Queue.offset q)), <- lookup_drop, Hw.
    reflexivity. }
  assert (Hrest : drop (S (Queue.offset q)) (Queue.queue q) = rest).
  { unfold waiting in Hw. rewrite (drop_S _ _ _ Hx) in Hw. congruence. }
  unfold Queue.dequeue.
  rewrite (proj2 (Z.eqb_neq (Queue.length q) 0)) by (rewrite Hlen; simpl; lia).
  rewrite Hx. pose proof (lookup_lt_Some _ _ _ Hx) as Hlt.
  destruct (_ <=? _).
  - eexists. split; [reflexivity|]. split.
    + unfold waiting. simpl. rewrite drop_0. exact Hrest.
    + unfold queue_wf. simpl. lia.
  - eexists. split; [reflexivity|]. split.
    + exact Hrest.
    + unfold queue_wf. simpl. lia.
Qed.

Lemma isEmpty_waiting {A} (q : Queue.t A) :
  queue_wf q -> Queue.isEmpty q = true <-> waiting q = [].
Proof.
  intros Hwf. unfold Queue.isEmpty. rewrite (length_waiting q Hwf), Z.eqb_eq.
  rewrite <- length_zero_iff_nil. lia.
Qed.

End QueueFacts.

(** ** The closures of [readRange] *)

Section ReaderFacts.

Variable more : Readable.t -> bool.

Lemma send_loop_spec turns : forall r,
  queue_wf (WriteAheadLog.ready r) ->
  (length (waiting (WriteAheadLog.ready r)) <= turns)%nat ->
  exists moved rest,
    waiting (WriteAheadLog.ready r) = moved ++ rest /\
    WriteAheadLog.stream (WriteAheadLog.send_loop more turns r)
    = WriteAheadLog.stream r ++ pushed moved /\
    waiting (WriteAheadLog.ready (WriteAheadLog.send_loop more turns r)) = rest /\
    queue_wf (WriteAheadLog.ready (WriteAheadLog.send_loop more turns r)) /\
    WriteAheadLog.ended (WriteAheadLog.send_loop more turns r) = WriteAheadLog.ended r /\
    WriteAheadLog.range (WriteAheadLog.send_loop more turns r) = WriteAheadLog.range r /\
    WriteAheadLog.reading (WriteAheadLog.send_loop more turns r) = WriteAheadLog.reading r /\
    (WriteAheadLog.sending (WriteAheadLog.send_loop more turns r) = true -> rest = []) /\
    (WriteAheadLog.sending r = false ->
     moved = [] /\ WriteAheadLog.sending (WriteAheadLog.send_loop more turns r) = false) /\
    (WriteAheadLog.sending r = true -> waiting (WriteAheadLog.ready r) <> [] -> moved <> []).
Proof.
  induction turns as [|turns IH]; intros r Hwf Hlen.
  - assert (Hnil : waiting (WriteAheadLog.ready r) = []).
    { apply length_zero_iff_nil. lia. }
    exists [], []. cbn [WriteAheadLog.send_loop]. rewrite Hnil.
    repeat split; try reflexivity; try (rewrite app_nil_r; reflexivity);
      try assumption; try tauto.
  - cbn [WriteAheadLog.send_loop].
    destruct (WriteAheadLog.sending r) eqn:Hs.
    + destruct (waiting (WriteAheadLog.ready r)) as [|x xs] eqn:Hw.
      * rewrite (QueueFacts.length_waiting _ Hwf), Hw. cbn [andb negb length Z.of_nat Z.eqb].
        exists [], []. repeat split; try reflexivity; try (rewrite app_nil_r; reflexivity);
          try assumption; try congruence; try tauto.
      * rewrite (QueueFacts.length_waiting _ Hwf), Hw.
        replace (Z.of_nat (length (x :: xs)) =? 0) with false
          by (symmetry; apply Z.eqb_neq; simpl; lia).
        cbn [andb negb].
        destruct (QueueFacts.dequeue_waiting x xs _ Hwf Hw) as (q' & -> & Hq' & Hwf').
        cbn [Readable.push].
        match goal with |- context [WriteAheadLog.send_loop more turns ?r1] =>
          destruct (IH r1) as (moved & rest & Hsplit & Hst & Hwt & Hwf2 & He & Hr & Hrd
                               & Hsend & _ & _)
        end.
        { exact Hwf'. }
        { cbn [WriteAheadLog.ready]. rewrite Hq'. simpl in Hlen. lia. }
        cbn [WriteAheadLog.ready WriteAheadLog.stream WriteAheadLog.ended
               WriteAheadLog.range WriteAheadLog.reading] in *.
        exists (x :: moved), rest. rewrite Hq' in Hsplit.
        split; [rewrite Hsplit; reflexivity|].
        split; [rewrite Hst, <- app_assoc; reflexivity|].
        repeat split; try assumption; try discriminate.
    + cbn [andb]. exists [], (waiting (WriteAheadLog.ready r)).
      repeat split; try reflexivity; try (rewrite app_nil_r; reflexivity);
        try assumption; try congruence.
Qed.

Lemma sendUntilPaused_spec r :
  queue_wf (WriteAheadLog.ready r) ->
  exists moved rest,
    waiting (WriteAheadLog.ready r) = moved ++ rest /\
    waiting (WriteAheadLog.ready (WriteAheadLog.sendUntilPaused more r)) = rest /\
    queue_wf (WriteAheadLog.ready (WriteAheadLog.sendUntilPaused more r)) /\
    WriteAheadLog.ended (WriteAheadLog.sendUntilPaused more r) = WriteAheadLog.ended r /\
    WriteAheadLog.range (WriteAheadLog.sendUntilPaused more r) = WriteAheadLog.range r /\
    WriteAheadLog.reading (WriteAheadLog.sendUntilPaused more r) = WriteAheadLog.reading r /\
    (WriteAheadLog.sending (WriteAheadLog.sendUntilPaused more r) = true -> rest = []) /\
    (WriteAheadLog.sending r = false ->
     moved = [] /\ WriteAheadLog.sending (WriteAheadLog.sendUntilPaused more r) = false) /\
    (WriteAheadLog.sending r = true -> waiting (WriteAheadLog.ready r) <> [] -> moved <> []) /\
    ((WriteAheadLog.ended r = true /\ rest = [] /\
      WriteAheadLog.stream (WriteAheadLog.sendUntilPaused more r)
      = WriteAheadLog.stream r ++ pushed moved ++ [Readable.Push None; Readable.Emit_end])
     \/
     ((WriteAheadLog.ended r = false \/ rest <> []) /\
      WriteAheadLog.stream (WriteAheadLog.sendUntilPaused more r)
      = WriteAheadLog.stream r ++ pushed moved)).
Proof.
  intros Hwf. unfold WriteAheadLog.sendUntilPaused.
  destruct (send_loop_spec (Z.to_nat (Queue.length (WriteAheadLog.ready r))) r Hwf)
    as (moved & rest & Hsplit & Hst & Hwt & Hwf' & He & Hr & Hrd & Hs1 & Hs2 & Hs3).
  { rewrite (QueueFacts.length_waiting _ Hwf). lia. }
  set (r1 := WriteAheadLog.send_loop more _ r) in *.
  exists moved, rest.
  destruct (WriteAheadLog.ended r1 && Queue.isEmpty (WriteAheadLog.ready r1)) eqn:Hend.
  - apply andb_true_iff in Hend as [Hended Hempty].
    apply (QueueFacts.isEmpty_waiting _ Hwf') in Hempty.
    cbn [Readable.push WriteAheadLog.ready WriteAheadLog.ended WriteAheadLog.range
           WriteAheadLog.reading WriteAheadLog.sending WriteAheadLog.stream].
    repeat (split; [assumption|]).
    left. split; [congruence|]. split; [congruence|].
    unfold Readable.emit. rewrite Hst, <- !app_assoc. reflexivity.
  - repeat (split; [assumption|]).
    right. split; [|exact Hst].
    apply andb_false_iff in Hend as [Hended | Hempty].
    + left. congruence.
    + right. intros Hnil. rewrite <- Hwt in Hnil.
      apply (QueueFacts.isEmpty_waiting _ Hwf') in Hnil. congruence.
Qed.

Lemma finished_pushed sent : Readable.finished (pushed sent) = false.
Proof. induction sent as [|p sent IH]; [reflexivity | exact IH]. Qed.

Lemma finished_delivered ps : Readable.finished (delivered ps) = true.
Proof.
  unfold Readable.finished, delivered. rewrite existsb_app.
  apply orb_true_iff. right. reflexivity.
Qed.

Lemma chunks_pushed sent : Readable.chunks (pushed sent) = sent.
Proof. induction sent as [|p sent IH]; [reflexivity|]. simpl. rewrite IH. reflexivity. Qed.

Lemma chunks_delivered ps : Readable.chunks (delivered ps) = ps.
Proof.
  unfold delivered. induction ps as [|p ps IH]; [reflexivity|]. simpl. rewrite IH. reflexivity.
Qed.

Lemma pushed_app a b : pushed (a ++ b) = pushed a ++ pushed b.
Proof. unfold pushed. apply fmap_app. Qed.

Lemma produce_phase lg exp r :
  reader_phase lg exp r -> reader_phase lg exp (WriteAheadLog.produce more lg r).
Proof.
  intros [sent queued todo Hexp Hst Hw Hwf Hreads Hrd Hend Hsend
         | sent queued Hexp Hne Hst Hw Hwf Hrd Hend Hsend
         | Hst Hrd].
  - unfold WriteAheadLog.produce. rewrite Hrd.
    destruct Hreads as [|rec p recs todo' Hread Hrest].
    + destruct (Queue.isEmpty (WriteAheadLog.ready r)) eqn:Hempty.
      * apply (QueueFacts.isEmpty_waiting _ Hwf) in Hempty.
        apply Finished; [|reflexivity].
        cbn [Readable.push WriteAheadLog.stream]. unfold Readable.emit.
        rewrite Hst, <- app_assoc. rewrite Hexp, <- Hw, Hempty, !app_nil_r. reflexivity.
      * assert (Hq : queued <> []).
        { intros Hnil. rewrite <- Hw in Hnil.
          apply (QueueFacts.isEmpty_waiting _ Hwf) in Hnil. congruence. }
        assert (Hs : WriteAheadLog.sending r = false).
        { destruct (WriteAheadLog.sending r); [|reflexivity]. exfalso. auto. }
        match goal with |- reader_phase _ _ (WriteAheadLog.sendUntilPaused more ?r1) =>
          destruct (sendUntilPaused_spec r1 Hwf)
            as (moved & rest & Hsplit & Hwt & Hwf' & He & Hr & Hrd' & _ & Hs2 & _ & Hcase)
        end.
        cbn [WriteAheadLog.ready WriteAheadLog.stream WriteAheadLog.ended
               WriteAheadLog.range WriteAheadLog.reading WriteAheadLog.sending] in *.
        destruct (Hs2 Hs) as [-> Hs'].
        rewrite Hw in Hsplit. cbn [app] in Hsplit. subst rest.
        destruct Hcase as [(_ & Hnil & _) | (_ & Hst')]; [congruence|].
        apply (Draining lg exp _ sent queued); try assumption.
        -- rewrite Hexp, app_nil_r. reflexivity.
        -- rewrite Hst', Hst. unfold pushed at 2. cbn [fmap list_fmap]. apply app_nil_r.
    + rewrite Hread. unfold WriteAheadLog.readyToSend.
      destruct (QueueFacts.enqueue_waiting p _ Hwf) as (Henq & Hwfe).
      match goal with |- reader_phase _ _ (WriteAheadLog.sendUntilPaused more ?r1) =>
        destruct (sendUntilPaused_spec r1 Hwfe)
          as (moved & rest & Hsplit & Hwt & Hwf' & He & Hr & Hrd' & Hs1 & _ & _ & Hcase)
      end.
      cbn [WriteAheadLog.ready WriteAheadLog.stream WriteAheadLog.ended
             WriteAheadLog.range WriteAheadLog.reading WriteAheadLog.sending] in *.
      destruct Hcase as [(Hcontra & _) | (_ & Hst')]; [congruence|].
      apply (Producing lg exp _ (sent ++ moved) rest todo'); try assumption.
      * rewrite Hexp, <- Hw, <- !app_assoc. f_equal.
        rewrite Henq in Hsplit.
        change (waiting (WriteAheadLog.ready r) ++ p :: todo')
          with (waiting (WriteAheadLog.ready r) ++ [p] ++ todo').
        rewrite (app_assoc _ [p]), Hsplit, <- app_assoc. reflexivity.
      * rewrite Hst', Hst, pushed_app. reflexivity.
      * rewrite Hr. exact Hrest.
      * congruence.
  - unfold WriteAheadLog.produce. rewrite Hrd.
    apply (Draining lg exp _ sent queued); assumption.
  - unfold WriteAheadLog.produce. rewrite Hrd. apply Finished; assumption.
Qed.

Lemma demand_phase lg exp r :
  reader_phase lg exp r -> reader_phase lg exp (WriteAheadLog.demand more r).
Proof.
  intros [sent queued todo Hexp Hst Hw Hwf Hreads Hrd Hend Hsend
         | sent queued Hexp Hne Hst Hw Hwf Hrd Hend Hsend
         | Hst Hrd].
  - unfold WriteAheadLog.demand. rewrite Hst, finished_pushed.
    unfold WriteAheadLog.clearToSend.
    match goal with |- reader_phase _ _ (WriteAheadLog.sendUntilPaused more ?r1) =>
      destruct (sendUntilPaused_spec r1 Hwf)
        as (moved & rest & Hsplit & Hwt & Hwf' & He & Hr & Hrd' & Hs1 & _ & _ & Hcase)
    end.
    cbn [WriteAheadLog.ready WriteAheadLog.stream WriteAheadLog.ended
           WriteAheadLog.range WriteAheadLog.reading WriteAheadLog.sending] in *.
    destruct Hcase as [(Hcontra & _) | (_ & Hst')]; [congruence|].
    apply (Producing lg exp _ (sent ++ moved) rest todo); try assumption.
    + rewrite Hexp, <- Hw, Hsplit, <- !app_assoc. reflexivity.
    + rewrite Hst', Hst, pushed_app. reflexivity.
    + rewrite Hr. exact Hreads.
    + congruence.
    + congruence.
  - unfold WriteAheadLog.demand. rewrite Hst, finished_pushed.
    unfold WriteAheadLog.clearToSend.
    match goal with |- reader_phase _ _ (WriteAheadLog.sendUntilPaused more ?r1) =>
      destruct (sendUntilPaused_spec r1 Hwf)
        as (moved & rest & Hsplit & Hwt & Hwf' & He & Hr & Hrd' & Hs1 & _ & _ & Hcase)
    end.
    cbn [WriteAheadLog.ready WriteAheadLog.stream WriteAheadLog.ended
           WriteAheadLog.range WriteAheadLog.reading WriteAheadLog.sending] in *.
    destruct Hcase as [(_ & Hnil & Hst') | ([Hcontra | Hrest] & Hst')]; [| congruence |].
    + apply Finished; [|congruence].
      unfold delivered. rewrite Hst', Hst, Hexp, <- Hw, Hsplit, Hnil, app_nil_r, pushed_app.
      rewrite <- app_assoc. reflexivity.
    + apply (Draining lg exp _ (sent ++ moved) rest); try assumption.
      * rewrite Hexp, <- Hw, Hsplit, <- app_assoc. reflexivity.
      * rewrite Hst', Hst, pushed_app. reflexivity.
      * congruence.
      * congruence.
      * destruct (WriteAheadLog.sending (WriteAheadLog.sendUntilPaused more _));
          [|reflexivity]. exfalso. apply Hrest, Hs1. reflexivity.
  - unfold WriteAheadLog.demand. rewrite Hst, finished_delivered.
    apply Finished; assumption.
Qed.

Lemma run_phase lg exp schedule : forall r,
  reader_phase lg exp r -> reader_phase lg exp (WriteAheadLog.run more lg schedule r).
Proof.
  unfold WriteAheadLog.run.
  induction schedule as [|k schedule IH]; intros r Hr; [exact Hr|].
  cbn [foldl]. apply IH. destruct k; [apply produce_phase | apply demand_phase]; exact Hr.
Qed.

Lemma produce_idle lg r :
  WriteAheadLog.reading r = false -> WriteAheadLog.produce more lg r = r.
Proof. intros H. unfold WriteAheadLog.produce. rewrite H. reflexivity. Qed.

Lemma run_produce_idle lg n : forall r,
  WriteAheadLog.reading r = false ->
  WriteAheadLog.run more lg (replicate n WriteAheadLog.Produce) r = r.
Proof.
  unfold WriteAheadLog.run. induction n as [|n IH]; intros r Hr; [reflexivity|].
  cbn [replicate foldl WriteAheadLog.step]. rewrite produce_idle by exact Hr.
  apply IH, Hr.
Qed.

Lemma demand_idle r :
  Readable.finished (WriteAheadLog.stream r) = true -> WriteAheadLog.demand more r = r.
Proof. intros H. unfold WriteAheadLog.demand. rewrite H. reflexivity. Qed.

Lemma run_demand_idle lg n : forall r,
  Readable.finished (WriteAheadLog.stream r) = true ->
  WriteAheadLog.run more lg (replicate n WriteAheadLog.Demand) r = r.
Proof.
  unfold WriteAheadLog.run. induction n as [|n IH]; intros r Hr; [reflexivity|].
  cbn [replicate foldl WriteAheadLog.step]. rewrite demand_idle by exact Hr.
  apply IH, Hr.
Qed.

Lemma produce_progress lg exp r :
  reader_phase lg exp r ->
  WriteAheadLog.reading (WriteAheadLog.produce more lg r) = false \/
  (length (WriteAheadLog.range (WriteAheadLog.produce more lg r))
   < length (WriteAheadLog.range r))%nat.
Proof.
  intros [sent queued todo Hexp Hst Hw Hwf Hreads Hrd Hend Hsend
         | sent queued Hexp Hne Hst Hw Hwf Hrd Hend Hsend
         | Hst Hrd].
  - unfold WriteAheadLog.produce. rewrite Hrd.
    destruct Hreads as [|rec p recs todo' Hread Hrest].
    + left. destruct (Queue.isEmpty (WriteAheadLog.ready r)); [reflexivity|].
      match goal with |- WriteAheadLog.reading (WriteAheadLog.sendUntilPaused more ?r1) = _ =>
        destruct (sendUntilPaused_spec r1 Hwf) as (? & ? & _ & _ & _ & _ & _ & Hrd' & _)
      end.
      exact Hrd'.
    + right. rewrite Hread. unfold WriteAheadLog.readyToSend.
      destruct (QueueFacts.enqueue_waiting p _ Hwf) as (_ & Hwfe).
      match goal with |- context [WriteAheadLog.sendUntilPaused more ?r1] =>
        destruct (sendUntilPaused_spec r1 Hwfe) as (? & ? & _ & _ & _ & _ & Hr & _)
      end.
      rewrite Hr. simpl. lia.
  - left. rewrite produce_idle by exact Hrd. exact Hrd.
  - left. rewrite produce_idle by exact Hrd. exact Hrd.
Qed.

Lemma produce_settles lg exp n : forall r,
  reader_phase lg exp r ->
  (length (WriteAheadLog.range r) < n)%nat ->
  WriteAheadLog.reading
    (WriteAheadLog.run more lg (replicate n WriteAheadLog.Produce) r) = false.
Proof.
  induction n as [|n IH]; intros r Hph Hlen; [lia|].
  change (WriteAheadLog.run more lg (replicate (S n) WriteAheadLog.Produce) r)
    with (WriteAheadLog.run more lg (replicate n WriteAheadLog.Produce)
            (WriteAheadLog.produce more lg r)).
  destruct (produce_progress lg exp r Hph) as [Hdone | Hless].
  - rewrite run_produce_idle by exact Hdone. exact Hdone.
  - apply IH; [apply produce_phase, Hph | lia].
Qed.

Lemma demand_progress lg exp r :
  reader_phase lg exp r ->
  WriteAheadLog.reading r = false ->
  WriteAheadLog.stream (WriteAheadLog.demand more r) = delivered exp \/
  (length (waiting (WriteAheadLog.ready (WriteAheadLog.demand more r)))
   < length (waiting (WriteAheadLog.ready r)))%nat.
Proof.
  intros [sent queued todo Hexp Hst Hw Hwf Hreads Hrd Hend Hsend
         | sent queued Hexp Hne Hst Hw Hwf Hrd Hend Hsend
         | Hst Hrd] Hidle.
  - congruence.
  - unfold WriteAheadLog.demand. rewrite Hst, finished_pushed.
    unfold WriteAheadLog.clearToSend.
    match goal with |- context [WriteAheadLog.sendUntilPaused more ?r1] =>
      destruct (sendUntilPaused_spec r1 Hwf)
        as (moved & rest & Hsplit & Hwt & _ & _ & _ & _ & _ & _ & Hmoved & _)
    end.
    cbn [WriteAheadLog.ready WriteAheadLog.sending] in *.
    right. rewrite Hwt, Hsplit, length_app.
    assert (moved <> []) by (apply Hmoved; [reflexivity | congruence]).
    destruct moved; [congruence | simpl; lia].
  - left. rewrite demand_idle by (rewrite Hst; apply finished_delivered). exact Hst.
Qed.

Lemma demand_drains lg exp n : forall r,
  reader_phase lg exp r ->
  WriteAheadLog.reading r = false ->
  (length (waiting (WriteAheadLog.ready r)) <= n)%nat ->
  WriteAheadLog.stream
    (WriteAheadLog.run more lg (replicate (S n) WriteAheadLog.Demand) r) = delivered exp.
Proof.
  induction n as [|n IH]; intros r Hph Hidle Hlen.
  all: change (WriteAheadLog.run more lg (replicate (S ?m) WriteAheadLog.Demand) r)
         with (WriteAheadLog.run more lg (replicate m WriteAheadLog.Demand)
                 (WriteAheadLog.demand more r)).
  - destruct (demand_progress lg exp r Hph Hidle) as [Hdone | Hless]; [exact Hdone | lia].
  - destruct (demand_progress lg exp r Hph Hidle) as [Hdone | Hless].
    + rewrite run_demand_idle by (rewrite Hdone; apply finished_delivered). exact Hdone.
    + apply IH; [apply demand_phase, Hph | | lia].
      pose proof (demand_phase lg exp r Hph) as Hph'.
      destruct Hph as [? ? ? ? ? ? ? ? Hrd | ? ? ? ? ? ? ? ? ? Hs | Hst Hrd]; [congruence| |].
      * destruct Hph' as [? ? ? ? ? ? ? ? Hrd' | | ]; [|assumption..].
        exfalso. revert Hrd'. unfold WriteAheadLog.demand.
        destruct (Readable.finished _); [congruence|].
        unfold WriteAheadLog.clearToSend.
        match goal with |- context [WriteAheadLog.sendUntilPaused more ?r1] =>
          destruct (sendUntilPaused_spec r1 ltac:(assumption))
            as (? & ? & _ & _ & _ & _ & _ & Hk & _)
        end.
        rewrite Hk. cbn [WriteAheadLog.reading]. congruence.
      * rewrite demand_idle by (rewrite Hst; apply finished_delivered). exact Hrd.
Qed.

Lemma phase_bounds lg exp r :
  reader_phase lg exp r ->
  (WriteAheadLog.reading r = true ->
   (length (WriteAheadLog.range r) <= length exp)%nat) /\
  (WriteAheadLog.reading r = false ->
   WriteAheadLog.stream r = delivered exp \/
   (length (waiting (WriteAheadLog.ready r)) <= length exp)%nat).
Proof.
  intros [sent queued todo Hexp Hst Hw Hwf Hreads Hrd Hend Hsend
         | sent queued Hexp Hne Hst Hw Hwf Hrd Hend Hsend
         | Hst Hrd].
  - split; [|congruence]. intros _.
    rewrite (Forall2_length _ _ _ Hreads), Hexp, !length_app. lia.
  - split; [congruence|]. intros _. right. rewrite Hw, Hexp, length_app. lia.
  - split; [congruence|]. intros _. left. exact Hst.
Qed.

Lemma phase_stream lg exp r :
  reader_phase lg exp r ->
  Readable.chunks (WriteAheadLog.stream r) `prefix_of` exp /\
  (Readable.finished (WriteAheadLog.stream r) = true ->
   WriteAheadLog.stream r = delivered exp).
Proof.
  intros [sent queued todo Hexp Hst Hw Hwf Hreads Hrd Hend Hsend
         | sent queued Hexp Hne Hst Hw Hwf Hrd Hend Hsend
         | Hst Hrd].
  - rewrite Hst, chunks_pushed, finished_pushed. split; [|discriminate].
    exists (queued ++ todo). exact Hexp.
  - rewrite Hst, chunks_pushed, finished_pushed. split; [|discriminate].
    exists queued. exact Hexp.
  - rewrite Hst, chunks_delivered. split; [reflexivity | intros _; reflexivity].
Qed.

Lemma run_completes lg exp schedule r :
  reader_phase lg exp r ->
  WriteAheadLog.stream
    (WriteAheadLog.run more lg
       (schedule ++ replicate (S (length exp)) WriteAheadLog.Produce
                 ++ replicate (S (length exp)) WriteAheadLog.Demand) r)
  = delivered exp.
Proof.
  intros Hph. unfold WriteAheadLog.run. rewrite !foldl_app.
  fold (WriteAheadLog.run more lg schedule r).
  pose proof (run_phase lg exp schedule r Hph) as Hph1.
  set (r1 := WriteAheadLog.run more lg schedule r) in *.
  fold (WriteAheadLog.run more lg (replicate (S (length exp)) WriteAheadLog.Produce) r1).
  pose proof (run_phase lg exp (replicate (S (length exp)) WriteAheadLog.Produce) r1 Hph1)
    as Hph2.
  assert (Hidle : WriteAheadLog.reading
                    (WriteAheadLog.run more lg
                       (replicate (S (length exp)) WriteAheadLog.Produce) r1) = false).
  { destruct (WriteAheadLog.reading r1) eqn:Hrd.
    - apply (produce_settles lg exp); [exact Hph1|].
      pose proof (proj1 (phase_bounds lg exp r1 Hph1) Hrd). lia.
    - rewrite run_produce_idle by exact Hrd. exact Hrd. }
  set (r2 := WriteAheadLog.run more lg _ r1) in *.
  fold (WriteAheadLog.run more lg (replicate (S (length exp)) WriteAheadLog.Demand) r2).
  destruct (proj2 (phase_bounds lg exp r2 Hph2) Hidle) as [Hdone | Hlen].
  - rewrite run_demand_idle by (rewrite Hdone; apply finished_delivered). exact Hdone.
  - apply demand_drains; assumption.
Qed.

End ReaderFacts.

(** ** [getRange] and [readRange] on [image] *)

Lemma getRange_loop_spec n : forall i L data,
  LogIndexFile.getRange_loop n i L data
  = (fun j =>
       {| LogIndexFile.rng_index := L + Z.of_nat j;
          LogIndexFile.rng_offset := Buffer.readInt32BE data (j * 4);
          LogIndexFile.rng_length :=
            Buffer.readInt32BE data ((j + 1) * 4) - Buffer.readInt32BE data (j * 4) |})
      <$> seq i n.
Proof.
  induction n as [|n IH]; intros i L data; [reflexivity|].
  cbn [LogIndexFile.getRange_loop seq fmap list_fmap]. rewrite IH. reflexivity.
Qed.

Lemma getRange_image ps c stale f n :
  fits ps -> (f < length ps)%nat -> (n <= length ps - f)%nat ->
  LogIndexFile.getRange (Z.of_nat f) (Z.of_nat n)
    (index_of (Z.of_nat (length ps)) c (slots (offsets 0 ps) ++ stale))
  = (Resolved (range_records f n ps),
     index_of (Z.of_nat (length ps)) c (slots (offsets 0 ps) ++ stale)).
Proof.
  intros Hf Hlt Hn.
  rewrite getRange_run
    by (try apply fits_int32_length; rewrite ?length_image_tail; (assumption || lia)).
  f_equal. f_equal. rewrite getRange_loop_spec, Nat2Z.id. unfold range_records.
  apply list_fmap_ext. intros i j Hj. apply lookup_seq in Hj as [Hji Hi].
  cbn [Nat.add] in Hji. subst j.
  rewrite !readInt32BE_slice by lia.
  replace (Z.to_nat (4 * Z.of_nat f) + i * 4)%nat
    with (Z.to_nat (4 * Z.of_nat (f + i))) by lia.
  replace (Z.to_nat (4 * Z.of_nat f) + (i + 1) * 4)%nat
    with (Z.to_nat (4 * Z.of_nat (f + i + 1))) by lia.
  rewrite !slot_image by (assumption || lia). reflexivity.
Qed.

Lemma range_records_reads ps f n :
  fits ps -> (f + n <= length ps)%nat ->
  Forall2 (reads (opened (concat ps))) (range_records f n ps) (take n (drop f ps)).
Proof.
  intros Hf Hn. apply Forall2_same_length_lookup_2.
  - unfold range_records. rewrite length_fmap, length_seq, length_take, length_drop. lia.
  - intros i rec p Hrec Hp. unfold range_records in Hrec.
    rewrite list_lookup_fmap in Hrec.
    destruct (seq 0 n !! i) as [j|] eqn:Hj; [|discriminate].
    apply lookup_seq in Hj as [Hji Hi]. cbn [Nat.add] in Hji. subst j.
    injection Hrec as <-.
    rewrite lookup_take_lt, lookup_drop in Hp by lia.
    unfold reads. cbn [LogIndexFile.rng_offset LogIndexFile.rng_length].
    replace (f + i + 1)%nat with (S (f + i)) by lia.
    pose proof (length_concat_take_le ps (S (f + i))) as Hin.
    rewrite (take_S_r ps (f + i) p Hp), concat_app, length_app in *. simpl in *.
    rewrite app_nil_r in *.
    rewrite file_read by lia. f_equal. f_equal.
    replace (Z.to_nat (Z.of_nat (length (concat (take (f + i) ps)) + length p)
                       - Z.of_nat (length (concat (take (f + i) ps))))) with (length p) by lia.
    rewrite Nat2Z.id. apply concat_lookup_slice, Hp.
Qed.

Lemma readRange_image ps c stale f n :
  fits ps -> (f < length ps)%nat -> (n <= length ps - f)%nat ->
  WriteAheadLog.readRange (Z.of_nat f) (Some (Z.of_nat n)) (image ps c stale)
  = (Resolved {| WriteAheadLog.sending := false; WriteAheadLog.ended := false;
                 WriteAheadLog.ready := Queue.new; WriteAheadLog.stream := [];
                 WriteAheadLog.range := range_records f n ps;
                 WriteAheadLog.reading := true |},
     image ps c stale).
Proof.
  intros Hf Hlt Hn. unfold WriteAheadLog.readRange.
  erewrite bind_run by reflexivity.
  unfold image at 1.
  erewrite on_index_run by (apply getRange_image; assumption).
  reflexivity.
Qed.

Lemma readRange_default ps c stale first :
  fits ps ->
  WriteAheadLog.readRange first None (image ps c stale)
  = WriteAheadLog.readRange first (Some (Z.of_nat (length ps) - first)) (image ps c stale).
Proof.
  intros Hf. unfold WriteAheadLog.readRange.
  erewrite (bind_run (bind _ _)).
  2: { erewrite bind_run by (apply on_index_run, head_run, fits_int32_length, Hf).
       reflexivity. }
  erewrite bind_run by reflexivity. reflexivity.
Qed.

Lemma readRange_phase ps f n :
  fits ps -> (f + n <= length ps)%nat ->
  reader_phase (opened (concat ps)) (take n (drop f ps))
    {| WriteAheadLog.sending := false; WriteAheadLog.ended := false;
       WriteAheadLog.ready := Queue.new; WriteAheadLog.stream := [];
       WriteAheadLog.range := range_records f n ps;
       WriteAheadLog.reading := true |}.
Proof.
  intros Hf Hn. apply (Producing _ _ _ [] [] (take n (drop f ps))); try reflexivity.
  all: first [ apply range_records_reads; assumption
             | discriminate
             | unfold queue_wf; simpl; lia ].
Qed.

(** C6. Range reads, on a log holding the entries [ps], for a range with
    [0 <= first < next] and [0 <= count <= next - first]. The index's
    [getRange(first, count)] resolves with [count] records, the i-th with
    index [first + i], offset O(first + i) and length
    O(first + i + 1) - O(first + i). [readRange(first, count)] returns a
    stream that has received nothing yet; whatever [push] answers and
    however the calls of [read] and the callbacks of the reads interleave,
    the payloads the stream receives are, in order, an initial part of the
    entries [first, ..., first + count - 1]; once it has received
    [push(null)] it has received exactly these [count] payloads, then
    [push(null)] and [emit('end')]; and this is reached as soon as the
    chain of reads has run and the consumer has asked often enough. With
    [count] omitted the call is [readRange(first, next - first)]. *)
Theorem readRange_delivers (ps : list (list byte)) (c : Z) (w : WriteAheadLog.t)
    (first count : Z) :
  Represents ps c w ->
  0 <= first < Z.of_nat (length ps) ->
  0 <= count <= Z.of_nat (length ps) - first ->
  (exists recs,
     WriteAheadLog.on_index (LogIndexFile.getRange first count) w = (Resolved recs, w) /\
     length recs = Z.to_nat count /\
     forall i, (i < Z.to_nat count)%nat ->
       recs !! i
       = Some {| LogIndexFile.rng_index := first + Z.of_nat i;
                 LogIndexFile.rng_offset := slot_of w (first + Z.of_nat i);
                 LogIndexFile.rng_length :=
                   slot_of w (first + Z.of_nat i + 1) - slot_of w (first + Z.of_nat i) |}) /\
  (exists r0,
     WriteAheadLog.readRange first (Some count) w = (Resolved r0, w) /\
     WriteAheadLog.stream r0 = [] /\
     forall (more : Readable.t -> bool) (schedule : list WriteAheadLog.tick),
       let exp := take (Z.to_nat count) (drop (Z.to_nat first) ps) in
       let r := WriteAheadLog.run more (WriteAheadLog.file w) schedule r0 in
       length exp = Z.to_nat count /\
       Readable.chunks (WriteAheadLog.stream r) `prefix_of` exp /\
       (Readable.finished (WriteAheadLog.stream r) = true ->
        WriteAheadLog.stream r = delivered exp) /\
       WriteAheadLog.stream
         (WriteAheadLog.run more (WriteAheadLog.file w)
            (schedule ++ replicate (S (length exp)) WriteAheadLog.Produce
                      ++ replicate (S (length exp)) WriteAheadLog.Demand) r0)
       = delivered exp) /\
  WriteAheadLog.readRange first None w
  = WriteAheadLog.readRange first (Some (Z.of_nat (length ps) - first)) w.
Proof.
  intros (Hf & Hc & stale & ->) Hfirst Hcount.
  set (f := Z.to_nat first). set (n := Z.to_nat count).
  assert (Hff : first = Z.of_nat f) by lia.
  assert (Hnn : count = Z.of_nat n) by lia.
  assert (Hlt : (f < length ps)%nat) by lia.
  assert (Hn : (n <= length ps - f)%nat) by lia.
  split; [|split].
  - exists (range_records f n ps). split; [|split].
    + rewrite Hff, Hnn. unfold image. apply on_index_run, getRange_image; assumption.
    + unfold range_records. rewrite length_fmap, length_seq. reflexivity.
    + intros i Hi. unfold range_records.
      rewrite list_lookup_fmap, lookup_seq_lt by exact Hi. cbn [fmap option_fmap option_map Nat.add].
      rewrite !slot_of_image by lia.
      replace (first + Z.of_nat i) with (Z.of_nat (f + i)) by lia.
      replace (Z.of_nat (f + i) + 1) with (Z.of_nat (f + i + 1)) by lia.
      rewrite !slot_image by (assumption || lia).
      rewrite Nat2Z.inj_add. reflexivity.
  - eexists. split; [|split].
    + rewrite Hff, Hnn. apply readRange_image; assumption.
    + reflexivity.
    + intros more schedule exp r.
      assert (Hph : reader_phase (opened (concat ps)) exp
                      {| WriteAheadLog.sending := false; WriteAheadLog.ended := false;
                         WriteAheadLog.ready := Queue.new; WriteAheadLog.stream := [];
                         WriteAheadLog.range := range_records f n ps;
                         WriteAheadLog.reading := true |})
        by (apply readRange_phase; [exact Hf | lia]).
      split; [|split; [|split]].
      * unfold exp. rewrite length_take, length_drop. lia.
      * apply (phase_stream (opened (concat ps)) exp r).
        apply run_phase, Hph.
      * apply (phase_stream (opened (concat ps)) exp r).
        apply run_phase, Hph.
      * apply run_completes, Hph.
  - apply readRange_default, Hf.
Qed.

Lemma readRange_delivers_witness :
  let ps := [["a"]; ["b"; "c"]; ["d"]; ["e"; "f"]]%byte in
  let w := image ps 3 [] in
  exists r0,
    WriteAheadLog.readRange 1 (Some 2) w = (Resolved r0, w) /\
    WriteAheadLog.stream
      (WriteAheadLog.run (fun _ => false) (WriteAheadLog.file w)
         ([WriteAheadLog.Demand; WriteAheadLog.Produce]
            ++ replicate 3 WriteAheadLog.Produce ++ replicate 3 WriteAheadLog.Demand) r0)
    = [Readable.Push (Some ["b"; "c"]%byte); Readable.Push (Some ["d"]%byte);
       Readable.Push None; Readable.Emit_end].
Proof.
  intros ps w.
  destruct (readRange_delivers ps 3 w 1 2) as (_ & (r0 & Hr & _ & Hrun) & _).
  - split; [unfold fits; simpl; lia|]. split; [lia|]. exists []. reflexivity.
  - simpl. lia.
  - simpl. lia.
  - exists r0. split; [exact Hr|].
    exact (proj2 (proj2 (proj2 (Hrun (fun _ => false)
                                  [WriteAheadLog.Demand; WriteAheadLog.Produce])))).
Defined.

(** * Further properties

    Properties of the code beyond the protocol above: the queue, the
    creation and validation of index files, bounds, recovery with any
    handler, closing and opening again, and the flow control of
    [readRange]. *)

(** ** The queue is first in, first out *)

Lemma dequeue_empty {A} (q : Queue.t A) :
  queue_wf q -> waiting q = [] -> Queue.dequeue q = (None, q).
Proof.
  intros Hwf Hw. unfold Queue.dequeue.
  rewrite (QueueFacts.length_waiting q Hwf), Hw. reflexivity.
Qed.

Lemma queue_run_fifo {A} (ops : list (queue_op A)) : forall q,
  queue_wf q ->
  fst (queue_run ops q) = fst (fifo_run ops (waiting q)) /\
  waiting (snd (queue_run ops q)) = snd (fifo_run ops (waiting q)) /\
  queue_wf (snd (queue_run ops q)).
Proof.
  induction ops as [|[x|] ops IH]; intros q Hwf; simpl.
  - auto.
  - destruct (QueueFacts.enqueue_waiting x q Hwf) as [Hw Hwf'].
    rewrite <- Hw. apply IH, Hwf'.
  - destruct (waiting q) as [|x rest] eqn:Hw.
    + rewrite (dequeue_empty q Hwf Hw). specialize (IH q Hwf). rewrite Hw in IH.
      simpl. destruct (queue_run ops q), (fifo_run ops []). simpl in *.
      destruct IH as (-> & ? & ?). auto.
    + destruct (QueueFacts.dequeue_waiting x rest q Hwf Hw) as (q' & -> & Hw' & Hwf').
      specialize (IH q' Hwf'). rewrite Hw' in IH. simpl.
      destruct (queue_run ops q'), (fifo_run ops rest). simpl in *.
      destruct IH as (-> & ? & ?). auto.
Qed.

(** X1. First in, first out. Whatever sequence of [enqueue] and [dequeue]
    calls is made on a new queue, every [dequeue] returns the oldest item
    that waits, or [undefined] when none does, and the items left in the
    queue are those the reference list holds: moving the offset and
    slicing the array never loses, repeats or reorders an item. *)
Theorem queue_is_fifo {A} (ops : list (queue_op A)) :
  fst (queue_run ops Queue.new) = fst (fifo_run ops []) /\
  waiting (snd (queue_run ops Queue.new)) = snd (fifo_run ops []).
Proof.
  destruct (queue_run_fifo ops Queue.new) as (H1 & H2 & _).
  - unfold queue_wf. simpl. lia.
  - split; assumption.
Qed.

Lemma peek_waiting {A} (q : Queue.t A) :
  queue_wf q -> Queue.peek q = head (waiting q).
Proof.
  intros Hwf. unfold Queue.peek. rewrite (QueueFacts.length_waiting q Hwf).
  unfold waiting. destruct (drop (Queue.offset q) (Queue.queue q)) as [|x rest] eqn:Hd.
  - reflexivity.
  - simpl. rewrite <- (Nat.add_0_r (Queue.offset q)), <- lookup_drop, Hd. reflexivity.
Qed.

(** X2. On every queue reached from a new one, [length] is the number of
    items that wait, [isEmpty] holds exactly when there is none, [peek]
    returns the oldest of them ([undefined] when there is none), and
    [dequeue] on an empty queue returns [undefined] and leaves the queue
    as it is. *)
Theorem queue_observers {A} (ops : list (queue_op A)) :
  let q := snd (queue_run ops Queue.new) in
  let items := snd (fifo_run ops []) in
  Queue.length q = Z.of_nat (length items) /\
  (Queue.isEmpty q = true <-> items = []) /\
  Queue.peek q = head items /\
  (items = [] -> Queue.dequeue q = (None, q)).
Proof.
  intros q items.
  destruct (queue_run_fifo ops Queue.new) as (_ & Hw & Hwf).
  { unfold queue_wf. simpl. lia. }
  fold q in Hw, Hwf. change (snd (fifo_run ops (waiting Queue.new))) with items in Hw.
  rewrite <- Hw. split; [apply QueueFacts.length_waiting, Hwf|].
  split; [apply QueueFacts.isEmpty_waiting, Hwf|].
  split; [apply peek_waiting, Hwf|]. apply dequeue_empty, Hwf.
Qed.

Lemma queue_observers_witness :
  let q := snd (queue_run [Enqueue 1; Enqueue 2; Dequeue] Queue.new) in
  Queue.length q = 1 /\ Queue.peek q = Some 2 /\
  Queue.dequeue (Queue.new (A := Z)) = (None, Queue.new).
Proof.
  intros q.
  destruct (queue_observers [Enqueue 1; Enqueue 2; Dequeue]) as (Hlen & _ & Hpeek & _).
  split; [exact Hlen|]. split; [exact Hpeek|].
  exact (proj2 (proj2 (proj2 (queue_observers (A := Z) []))) eq_refl).
Defined.

Lemma enqueue_compact {A} (x : A) (q : Queue.t A) :
  queue_wf q ->
  (length (Queue.queue q) <= 2 * length (waiting q))%nat ->
  (length (Queue.queue (Queue.enqueue x q)) <= 2 * length (waiting (Queue.enqueue x q)))%nat.
Proof.
  intros Hwf H. destruct (QueueFacts.enqueue_waiting x q Hwf) as [-> _].
  unfold Queue.enqueue. simpl. rewrite !length_app. simpl. lia.
Qed.

Lemma dequeue_compact {A} (q : Queue.t A) :
  queue_wf q ->
  queue_wf (snd (Queue.dequeue q)) /\
  (length (Queue.queue (snd (Queue.dequeue q)))
   <= 2 * length (waiting (snd (Queue.dequeue q))))%nat \/
  snd (Queue.dequeue q) = q.
Proof.
  intros Hwf. unfold Queue.dequeue.
  destruct (Queue.length q =? 0) eqn:E; [right; reflexivity|].
  apply Z.eqb_neq in E. unfold Queue.length in E. unfold queue_wf in Hwf.
  left. destruct (_ <=? _) eqn:E2.
  - simpl. unfold queue_wf, waiting. simpl. rewrite drop_0. lia.
  - apply Z.leb_gt in E2. unfold queue_wf, waiting. simpl.
    rewrite length_drop. lia.
Qed.

Lemma queue_run_compact {A} (ops : list (queue_op A)) : forall q,
  queue_wf q ->
  (length (Queue.queue q) <= 2 * length (waiting q))%nat ->
  (length (Queue.queue (snd (queue_run ops q)))
   <= 2 * length (waiting (snd (queue_run ops q))))%nat.
Proof.
  induction ops as [|[x|] ops IH]; intros q Hwf Hc; simpl.
  - exact Hc.
  - apply IH; [apply QueueFacts.enqueue_waiting, Hwf|apply enqueue_compact; assumption].
  - destruct (dequeue_compact q Hwf) as [[Hwf' Hc']|Heq].
    + destruct (Queue.dequeue q) as [item q']. simpl in *.
      specialize (IH q' Hwf' Hc'). destruct (queue_run ops q'). exact IH.
    + destruct (Queue.dequeue q) as [item q']. simpl in *. subst q'.
      specialize (IH q Hwf Hc). destruct (queue_run ops q). exact IH.
Qed.

(** X3. The array behind a queue never holds more than twice the items
    that wait, and the consumed prefix is never longer than what waits:
    [dequeue] slices the prefix off as soon as it reaches half of the
    array. *)
Theorem queue_array_bounded {A} (ops : list (queue_op A)) :
  let q := snd (queue_run ops Queue.new) in
  (length (Queue.queue q) <= 2 * length (waiting q))%nat /\
  (Queue.offset q <= length (waiting q))%nat.
Proof.
  intros q.
  assert (Hc : (length (Queue.queue q) <= 2 * length (waiting q))%nat).
  { apply queue_run_compact; [unfold queue_wf|]; simpl; lia. }
  split; [exact Hc|].
  destruct (queue_run_fifo ops Queue.new) as (_ & _ & Hwf).
  { unfold queue_wf. simpl. lia. }
  fold q in Hwf. unfold queue_wf in Hwf. unfold waiting in *.
  rewrite length_drop in *. lia.
Qed.

(** ** Creating and opening index files *)

Lemma create_index_run (b o : Z) :
  LogIndexFile.create (Some b) (Some o)
  = Resolved {| LogIndexFile.file := opened (header_bytes b b (-1) ++ Buffer.int32_octets o);
                LogIndexFile.header := Some (header_bytes b b (-1)) |}.
Proof. cbv -[Buffer.to_uint8 Buffer.ushr]. reflexivity. Qed.

Lemma readInt32BE_octets_only v : int32 v -> Buffer.readInt32BE (Buffer.int32_octets v) 0 = v.
Proof.
  intros Hv. exact (readInt32BE_octets [] [] v Hv).
Qed.

(** X4. [LogIndexFile.create(path, b, o)] on a path that names no file,
    with [b] and [o] in the range of a signed 32-bit integer, resolves
    with an open index whose file holds the 16-byte header and one slot:
    the marker is IDX$, base index and head are [b], the commit head is
    -1, and [offset(b)] resolves with [o]. No entry is there yet
    ([get(b)] throws 'index out of range'), the index is open ([open()]
    throws 'index already open'), and omitted arguments stand for 0. *)
Theorem create_index_initial (b o : Z) :
  int32 b -> int32 o ->
  exists idx,
    LogIndexFile.create (Some b) (Some o) = Resolved idx /\
    RandomAccessFile.content (LogIndexFile.file idx)
    = header_bytes b b (-1) ++ Buffer.int32_octets o /\
    LogIndexFile.marker idx = (Resolved "IDX$"%string, idx) /\
    LogIndexFile.baseIndex idx = (Resolved b, idx) /\
    LogIndexFile.head idx = (Resolved b, idx) /\
    LogIndexFile.commitHead idx = (Resolved (-1), idx) /\
    LogIndexFile.offset b idx = (Resolved o, idx) /\
    LogIndexFile.get b idx = (Thrown (AssertionError "index out of range"), idx) /\
    LogIndexFile.open idx = (Thrown (AssertionError "index already open"), idx) /\
    LogIndexFile.create None None = LogIndexFile.create (Some 0) (Some 0).
Proof.
  intros Hb Ho. eexists. split; [apply create_index_run|].
  split; [reflexivity|].
  assert (Hbase : LogIndexFile.baseIndex
            {| LogIndexFile.file := opened (header_bytes b b (-1) ++ Buffer.int32_octets o);
               LogIndexFile.header := Some (header_bytes b b (-1)) |}
          = (Resolved b, {| LogIndexFile.file := opened (header_bytes b b (-1) ++ Buffer.int32_octets o);
               LogIndexFile.header := Some (header_bytes b b (-1)) |})).
  { unfold LogIndexFile.baseIndex, bind, LogIndexFile.open_header, ret. simpl.
    change (Z.to_nat LogIndexFile.OFS_BASEINDEX) with 4%nat. rewrite header_base by exact Hb.
    reflexivity. }
  assert (Hhead : LogIndexFile.head
            {| LogIndexFile.file := opened (header_bytes b b (-1) ++ Buffer.int32_octets o);
               LogIndexFile.header := Some (header_bytes b b (-1)) |}
          = (Resolved b, {| LogIndexFile.file := opened (header_bytes b b (-1) ++ Buffer.int32_octets o);
               LogIndexFile.header := Some (header_bytes b b (-1)) |})).
  { unfold LogIndexFile.head, bind, LogIndexFile.open_header, ret. simpl.
    change (Z.to_nat LogIndexFile.OFS_HEAD) with 8%nat. rewrite header_head by exact Hb.
    reflexivity. }
  split; [reflexivity|]. split; [exact Hbase|]. split; [exact Hhead|].
  split.
  { unfold LogIndexFile.commitHead, bind, LogIndexFile.open_header, ret. simpl.
    change (Z.to_nat LogIndexFile.OFS_COMMIT) with 12%nat.
    rewrite header_commit by (unfold int32; lia). reflexivity. }
  split.
  { unfold LogIndexFile.offset. erewrite bind_run by exact Hhead.
    erewrite bind_run by (apply assert_ok_holds, Z.leb_le; lia).
    erewrite bind_run by reflexivity.
    unfold LogIndexFile.localizeIndex. erewrite !bind_run by first [exact Hbase | reflexivity].
    change (Z.to_nat LogIndexFile.OFS_BASEINDEX) with 4%nat.
    rewrite header_base by exact Hb. rewrite Z.sub_diag.
    erewrite then_run.
    2: { apply on_file_run. apply file_read; vm_compute; discriminate. }
    unfold ret, settle. f_equal. f_equal.
    change (Buffer.slice (header_bytes b b (-1) ++ Buffer.int32_octets o)
              (Z.to_nat (LogIndexFile.HLEN + 0 * LogIndexFile.SIZEOF_INT))
              (Z.to_nat LogIndexFile.SIZEOF_INT))
      with (Buffer.int32_octets o).
    apply readInt32BE_octets_only, Ho. }
  split.
  { unfold LogIndexFile.get. erewrite bind_run by exact Hhead.
    rewrite Z.ltb_irrefl. reflexivity. }
  split; reflexivity.
Qed.

Lemma create_index_initial_witness :
  exists idx,
    LogIndexFile.create (Some 5) (Some 100) = Resolved idx /\
    LogIndexFile.head idx = (Resolved 5, idx) /\
    LogIndexFile.commitHead idx = (Resolved (-1), idx) /\
    LogIndexFile.offset 5 idx = (Resolved 100, idx).
Proof.
  destruct (create_index_initial 5 100) as (idx & Hc & _ & _ & _ & Hh & Hcm & Ho & _).
  - unfold int32. lia.
  - unfold int32. lia.
  - exists idx. split; [exact Hc|]. split; [exact Hh|]. split; [exact Hcm|exact Ho].
Defined.

Lemma toString_ascii_take (c : list byte) n :
  (4 <= n)%nat ->
  LogIndexFile.toString_ascii (take n c) 0 4 = LogIndexFile.toString_ascii c 0 4.
Proof.
  intros Hn. unfold LogIndexFile.toString_ascii, Buffer.slice.
  rewrite !drop_0, take_take. f_equal. f_equal. f_equal. lia.
Qed.

Lemma open_fresh (c : list byte) (wr : bool) :
  16 <= Z.of_nat (length c) ->
  LogIndexFile.open
    {| LogIndexFile.file :=
         {| RandomAccessFile.content := c; RandomAccessFile.descriptor := true;
            RandomAccessFile.writable := wr |};
       LogIndexFile.header := None |}
  = (if String.eqb (LogIndexFile.toString_ascii c 0 4) "IDX$"
     then Resolved tt
     else Rejected (Error (String.append "Invalid index file; expected file marker to be IDX$ but found "
                             (String.append (LogIndexFile.toString_ascii c 0 4) "."))),
     {| LogIndexFile.file :=
         {| RandomAccessFile.content := c; RandomAccessFile.descriptor := true;
            RandomAccessFile.writable := wr |};
       LogIndexFile.header :=
         if String.eqb (LogIndexFile.toString_ascii c 0 4) "IDX$"
         then Some (take 16 c) else None |}).
Proof.
  intros Hlen. unfold LogIndexFile.open. erewrite bind_run by reflexivity.
  erewrite bind_run by reflexivity.
  erewrite then_run.
  2: { unfold LogIndexFile.on_file, zoom, RandomAccessFile.read, RandomAccessFile.size.
       cbn [LogIndexFile.file RandomAccessFile.descriptor RandomAccessFile.content negb orb
            LogIndexFile.header].
       change (LogIndexFile.OFS_MARKER <? 0) with false.
       change (LogIndexFile.HLEN <? 0) with false. cbn [orb].
       rewrite (proj2 (Z.ltb_ge _ _)) by (unfold LogIndexFile.OFS_MARKER, LogIndexFile.HLEN; lia).
       reflexivity. }
  cbn [RandomAccessFile.content LogIndexFile.file].
  change (Z.to_nat LogIndexFile.OFS_MARKER) with 0%nat.
  change (Z.to_nat LogIndexFile.OFS_BASEINDEX) with 4%nat.
  change (Z.to_nat LogIndexFile.HLEN) with 16%nat.
  replace (Buffer.slice c 0 16) with (take 16 c) by (unfold Buffer.slice; rewrite drop_0; reflexivity).
  rewrite toString_ascii_take by lia.
  change LogIndexFile.MARKER with "IDX$"%string.
  destruct (String.eqb _ _); reflexivity.
Qed.

Lemma open_path_run (c : list byte) (writable : option bool) :
  LogIndexFile.open_path (Some c) writable
  = if Z.of_nat (length c) <? 16
    then Rejected (Error "File too small to be an index file.")
    else if String.eqb (LogIndexFile.toString_ascii c 0 4) "IDX$"
    then Resolved {| LogIndexFile.file :=
                       {| RandomAccessFile.content := c;
                          RandomAccessFile.descriptor := true;
                          RandomAccessFile.writable := truthy writable |};
                     LogIndexFile.header := Some (take 16 c) |}
    else Rejected (Error (String.append
                            "Invalid index file; expected file marker to be IDX$ but found "
                            (String.append (LogIndexFile.toString_ascii c 0 4) "."))).
Proof.
  unfold LogIndexFile.open_path, RandomAccessFile.open_path, LogIndexFile.new,
    RandomAccessFile.size. cbn [RandomAccessFile.content].
  change LogIndexFile.HLEN with 16.
  destruct (Z.ltb_spec (Z.of_nat (length c)) 16) as [Hlt|Hge]; [reflexivity|].
  rewrite open_fresh by exact Hge. destruct (String.eqb _ _); reflexivity.
Qed.

(** X5. [LogIndexFile.open(path, writable)] validates the file. A file
    shorter than 16 bytes rejects with 'File too small to be an index
    file.'; a file whose first four octets do not read IDX$ rejects with
    'Invalid index file; expected file marker to be IDX$ but found ...'
    and the marker found; any other file gives an open index whose cached
    header is the first 16 bytes, on a file that is writable exactly when
    [writable] is [true]. A path that names no file rejects with the
    code ENOENT. *)
Theorem open_validates_file (c : list byte) (writable : option bool) :
  let found := LogIndexFile.toString_ascii c 0 4 in
  (Z.of_nat (length c) < 16 ->
   LogIndexFile.open_path (Some c) writable
   = Rejected (Error "File too small to be an index file.")) /\
  (16 <= Z.of_nat (length c) -> found <> "IDX$"%string ->
   LogIndexFile.open_path (Some c) writable
   = Rejected (Error (String.append
                        "Invalid index file; expected file marker to be IDX$ but found "
                        (String.append found ".")))) /\
  (16 <= Z.of_nat (length c) -> found = "IDX$"%string ->
   LogIndexFile.open_path (Some c) writable
   = Resolved {| LogIndexFile.file :=
                   {| RandomAccessFile.content := c;
                      RandomAccessFile.descriptor := true;
                      RandomAccessFile.writable := truthy writable |};
                 LogIndexFile.header := Some (take 16 c) |}) /\
  LogIndexFile.open_path None writable = Rejected (SystemError "ENOENT").
Proof.
  intros found. rewrite open_path_run. fold found.
  split; [|split; [|split]].
  - intros Hlt. rewrite (proj2 (Z.ltb_lt _ _) Hlt). reflexivity.
  - intros Hge Hm. rewrite (proj2 (Z.ltb_ge _ _) Hge).
    rewrite (proj2 (String.eqb_neq _ _) Hm). reflexivity.
  - intros Hge Hm. rewrite (proj2 (Z.ltb_ge _ _) Hge).
    rewrite (proj2 (String.eqb_eq _ _) Hm). reflexivity.
  - reflexivity.
Qed.

Lemma open_validates_file_witness :
  LogIndexFile.open_path (Some ["I"; "D"; "X"; "$"]%byte) (Some true)
  = Rejected (Error "File too small to be an index file.") /\
  LogIndexFile.open_path (Some (replicate 20 "x"%byte)) None
  = Rejected (Error "Invalid index file; expected file marker to be IDX$ but found xxxx.") /\
  LogIndexFile.open_path (Some (header_bytes 0 1 0 ++ slots [0; 7])) (Some true)
  = Resolved (index_of 1 0 (slots [0; 7])).
Proof.
  split; [|split].
  - apply (open_validates_file ["I"; "D"; "X"; "$"]%byte (Some true)). simpl. lia.
  - apply (open_validates_file (replicate 20 "x"%byte) None).
    + simpl. lia.
    + vm_compute. discriminate.
  - apply (open_validates_file (header_bytes 0 1 0 ++ slots [0; 7]) (Some true)).
    + simpl. lia.
    + reflexivity.
Defined.

(** X6. [get], [offset] and [getRange] agree, whatever offsets the slots
    of the index file hold. On an open index with base 0 and head [h]
    whose file holds the slots of the LSNs 0, ..., h, for 0 <= L < h:
    [get(L)] resolves with the offset [offset(L)] resolves
    with, and with the length [offset(L + 1)] minus [offset(L)]; and for
    0 <= count <= h - L, [getRange(L, count)] resolves with exactly
    [count] records, the j-th of which carries the index L + j and the
    offset and length [get(L + j)] resolves with. *)
Theorem get_agrees_with_offset (h c : Z) (tail : list byte) (L : Z) :
  int32 h -> 0 <= L < h -> 4 * (h + 1) <= Z.of_nat (length tail) ->
  let idx := index_of h c tail in
  exists o o',
    LogIndexFile.offset L idx = (Resolved o, idx) /\
    LogIndexFile.offset (L + 1) idx = (Resolved o', idx) /\
    LogIndexFile.get L idx
    = (Resolved {| LogIndexFile.rec_offset := o; LogIndexFile.rec_length := o' - o |}, idx) /\
    forall count, 0 <= count <= h - L ->
      exists range,
        LogIndexFile.getRange L count idx = (Resolved range, idx) /\
        Z.of_nat (length range) = count /\
        forall j, (Z.of_nat j < count) ->
          exists rec,
            LogIndexFile.get (L + Z.of_nat j) idx = (Resolved rec, idx) /\
            range !! j = Some {| LogIndexFile.rng_index := L + Z.of_nat j;
                                 LogIndexFile.rng_offset := LogIndexFile.rec_offset rec;
                                 LogIndexFile.rng_length := LogIndexFile.rec_length rec |}.
Proof.
  intros Hh HL Hin idx. unfold idx.
  exists (Buffer.readInt32BE tail (Z.to_nat (4 * L))),
         (Buffer.readInt32BE tail (Z.to_nat (4 * (L + 1)))).
  split; [apply offset_run; [exact Hh|lia|lia]|].
  split; [apply offset_run; [exact Hh|lia|lia]|].
  split.
  { rewrite get_run by (exact Hh || lia).
    replace (Z.to_nat (4 * L) + 4)%nat with (Z.to_nat (4 * (L + 1))) by lia. reflexivity. }
  intros count Hcount. eexists. split; [apply getRange_run; (exact Hh || lia)|].
  rewrite getRange_loop_spec. split; [rewrite length_fmap, length_seq; lia|].
  intros j Hj. eexists. split; [apply get_run; [exact Hh|lia|lia]|].
  rewrite list_lookup_fmap, lookup_seq_lt by lia. cbn [fmap option_fmap option_map Nat.add].
  cbn [LogIndexFile.rec_offset LogIndexFile.rec_length].
  rewrite !readInt32BE_slice by lia.
  f_equal. f_equal; [f_equal; lia|]. f_equal; f_equal; lia.
Qed.

Lemma get_agrees_with_offset_witness :
  let idx := index_of 2 0 (slots [0; 3; 5]) in
  exists range,
    LogIndexFile.getRange 0 2 idx = (Resolved range, idx) /\
    Z.of_nat (length range) = 2.
Proof.
  intros idx.
  destruct (get_agrees_with_offset 2 0 (slots [0; 3; 5]) 0) as (o & o' & _ & _ & _ & Hrange).
  - unfold int32. lia.
  - lia.
  - simpl. lia.
  - destruct (Hrange 2) as (range & Hr & Hlen & _); [lia|].
    exists range. split; [exact Hr|exact Hlen].
Defined.

(** ** Slots *)

(** X7. [offset] and [get] compare the index with the head only. On an
    open index whose file holds at least its first slot, as every index
    does from [create] on, the assertion passes for the index just below
    the base (-1 with base 0) and the read falls into the header:
    [offset(-1)] resolves with the commit head, and [get(-1)] with the
    commit head as offset and the first slot minus the commit head as
    length. *)
Theorem get_checks_upper_bound_only (h c : Z) (tail : list byte) :
  int32 h -> int32 c -> 0 <= h -> 4 <= Z.of_nat (length tail) ->
  let idx := index_of h c tail in
  LogIndexFile.offset (-1) idx = (Resolved c, idx) /\
  LogIndexFile.get (-1) idx
  = (Resolved {| LogIndexFile.rec_offset := c;
                 LogIndexFile.rec_length := Buffer.readInt32BE tail 0 - c |}, idx).
Proof.
  intros Hh Hc H0 Hin idx. unfold idx.
  assert (Hlen : Z.of_nat (length (header_bytes 0 h c ++ tail)) = 16 + Z.of_nat (length tail))
    by (rewrite length_app, header_length; lia).
  assert (Hcommit : Buffer.readInt32BE (header_bytes 0 h c ++ tail) 12 = c).
  { exact (readInt32BE_octets
             (["I"; "D"; "X"; "$"]%byte ++ Buffer.int32_octets 0 ++ Buffer.int32_octets h)
             tail c Hc). }
  assert (Hslot : Buffer.readInt32BE (header_bytes 0 h c ++ tail) 16 = Buffer.readInt32BE tail 0).
  { exact (readInt32BE_app_r (header_bytes 0 h c) tail 0). }
  split.
  - unfold LogIndexFile.offset. exec.
    erewrite then_run.
    2: { apply on_file_run. apply file_read; [vm_compute; discriminate..|].
         rewrite Hlen. unfold LogIndexFile.HLEN, LogIndexFile.SIZEOF_INT. lia. }
    unfold ret, settle. f_equal. f_equal.
    change (Z.to_nat (LogIndexFile.HLEN + (-1 - 0) * LogIndexFile.SIZEOF_INT)) with 12%nat.
    change (Z.to_nat LogIndexFile.SIZEOF_INT) with 4%nat.
    rewrite readInt32BE_slice by lia. exact Hcommit.
  - unfold LogIndexFile.get. exec.
    erewrite then_run.
    2: { apply on_file_run. apply file_read; [vm_compute; discriminate..|].
         rewrite Hlen. unfold LogIndexFile.HLEN, LogIndexFile.SIZEOF_INT. lia. }
    unfold ret, settle. f_equal. f_equal.
    change (Z.to_nat (LogIndexFile.HLEN + (-1 - 0) * LogIndexFile.SIZEOF_INT)) with 12%nat.
    change (Z.to_nat (2 * LogIndexFile.SIZEOF_INT)) with 8%nat.
    change (Z.to_nat LogIndexFile.SIZEOF_INT) with 4%nat.
    rewrite !readInt32BE_slice by lia.
    change (12 + 0)%nat with 12%nat. change (12 + 4)%nat with 16%nat.
    rewrite Hcommit, Hslot. reflexivity.
Qed.

Lemma get_checks_upper_bound_only_witness :
  let idx := index_of 2 1 (slots [0; 3; 5]) in
  LogIndexFile.get (-1) idx
  = (Resolved {| LogIndexFile.rec_offset := 1; LogIndexFile.rec_length := -1 |}, idx).
Proof.
  intros idx.
  exact (proj2 (get_checks_upper_bound_only 2 1 (slots [0; 3; 5])
                  ltac:(unfold int32; lia) ltac:(unfold int32; lia) ltac:(lia)
                  ltac:(simpl; lia))).
Defined.

Lemma octet_splice_below n (data c : list byte) i :
  (i < n)%nat -> Buffer.octet (RandomAccessFile.splice n data c) i = Buffer.octet c i.
Proof.
  revert c i. induction n as [|n IH]; intros c i Hi; [lia|].
  destruct c as [|b c]; simpl.
  - destruct i as [|i]; [reflexivity|].
    unfold Buffer.octet in *. simpl. rewrite IH by lia. reflexivity.
  - destruct i as [|i]; [reflexivity|].
    unfold Buffer.octet in *. simpl. apply IH. lia.
Qed.

Lemma readInt32BE_splice_below n (data c : list byte) k :
  (k + 4 <= n)%nat ->
  Buffer.readInt32BE (RandomAccessFile.splice n data c) k = Buffer.readInt32BE c k.
Proof.
  intros Hk. unfold Buffer.readInt32BE. rewrite !octet_splice_below by lia. reflexivity.
Qed.

Lemma length_splice n (data c : list byte) :
  length (RandomAccessFile.splice n data c) = Nat.max (n + length data) (length c).
Proof.
  revert c. induction n as [|n IH]; intros c.
  - simpl. rewrite length_app, length_drop. lia.
  - destruct c as [|b c]; simpl; rewrite IH; simpl; lia.
Qed.

Lemma offset_past_end h c tail L :
  int32 h -> 0 <= L <= h -> Z.of_nat (length tail) < 4 * L + 4 ->
  LogIndexFile.offset L (index_of h c tail)
  = (Rejected (Error "Unexpected end of file"), index_of h c tail).
Proof.
  intros Hh HL Hout. unfold LogIndexFile.offset. exec.
  apply then_rejected. unfold index_of. apply on_file_run.
  unfold RandomAccessFile.read, RandomAccessFile.size, opened.
  cbn [RandomAccessFile.descriptor RandomAccessFile.content negb].
  unfold LogIndexFile.HLEN, LogIndexFile.SIZEOF_INT.
  rewrite (proj2 (Z.ltb_ge _ 0)) by lia. cbn [orb].
  change (4 <? 0) with false. cbn [orb].
  rewrite length_app, header_length.
  rewrite (proj2 (Z.ltb_lt _ _)) by lia. reflexivity.
Qed.

(** X8. [increment(o)] appends a slot. On an open index with base 0 and
    head [h], whatever its file holds after the header, [increment(o)]
    resolves with [h]; afterwards the head is [h + 1], in the cached
    header too, [offset(h + 1)] resolves with [o], and [offset(L)]
    resolves for every L <= h with what it resolved with before. *)
Theorem increment_appends_slot (h c : Z) (tail : list byte) (o : Z) :
  0 <= h < 2 ^ 31 - 1 -> int32 o ->
  let idx := index_of h c tail in
  exists idx',
    LogIndexFile.increment o idx = (Resolved h, idx') /\
    LogIndexFile.head idx' = (Resolved (h + 1), idx') /\
    LogIndexFile.header idx' = Some (header_bytes 0 (h + 1) c) /\
    LogIndexFile.offset (h + 1) idx' = (Resolved o, idx') /\
    forall L v, 0 <= L <= h ->
      LogIndexFile.offset L idx = (Resolved v, idx) ->
      LogIndexFile.offset L idx' = (Resolved v, idx').
Proof.
  intros Hh Ho idx. unfold idx. eexists.
  split; [apply increment_run; unfold int32; lia|].
  split; [apply head_run; unfold int32; lia|].
  split; [reflexivity|].
  split.
  - rewrite offset_run by (rewrite ?length_splice; simpl; unfold int32; lia).
    rewrite splice_readInt32BE by exact Ho. reflexivity.
  - intros L v HL Hv.
    destruct (Z.lt_ge_cases (Z.of_nat (length tail)) (4 * L + 4)) as [Hout|Hin].
    { rewrite offset_past_end in Hv by (unfold int32; lia). discriminate. }
    rewrite offset_run in Hv by (unfold int32; lia).
    rewrite offset_run by (rewrite ?length_splice; unfold int32; lia).
    rewrite readInt32BE_splice_below by lia. congruence.
Qed.

Lemma increment_appends_slot_witness :
  let idx := index_of 1 0 (slots [0; 3]) in
  exists idx',
    LogIndexFile.increment 7 idx = (Resolved 1, idx') /\
    LogIndexFile.head idx' = (Resolved 2, idx') /\
    LogIndexFile.offset 2 idx' = (Resolved 7, idx').
Proof.
  intros idx.
  destruct (increment_appends_slot 1 0 (slots [0; 3]) 7) as (idx' & Hi & Hh & _ & Ho & _).
  - lia.
  - unfold int32. lia.
  - exists idx'. split; [exact Hi|]. split; [exact Hh|exact Ho].
Defined.

(** ** Appending, and reading out of range *)

Lemma fits_concat_snoc ps (p : list byte) :
  Z.of_nat (length (concat (ps ++ [p]))) = Z.of_nat (length (concat ps)) + Z.of_nat (length p).
Proof. rewrite concat_app, length_app. simpl. rewrite app_nil_r. lia. Qed.

(** X9. A write appends. On a log that holds entries, [write(p)] with a
    non-empty Buffer [p] resolves with the LSN that [next] gave;
    afterwards [next] is one more, the commit head is unchanged, the size
    has grown by the length of [p], [read] of the new LSN resolves with
    [p], and every earlier entry reads as before. *)
Theorem write_appends (ps : list (list byte)) (c : Z) (w : WriteAheadLog.t) (p : list byte) :
  Represents ps c w -> fits (ps ++ [p]) -> p <> [] ->
  exists w',
    WriteAheadLog.write (JBuffer p) w = (Resolved (next_of w), w') /\
    Represents (ps ++ [p]) c w' /\
    next_of w' = next_of w + 1 /\
    commit_of w' = commit_of w /\
    WriteAheadLog.size w' = WriteAheadLog.size w + Z.of_nat (length p) /\
    WriteAheadLog.read (next_of w) w' = (Resolved p, w') /\
    forall i q, ps !! i = Some q -> WriteAheadLog.read (Z.of_nat i) w' = (Resolved q, w').
Proof.
  intros (Hf & Hc & stale & ->) Hf' Hne.
  exists (image (ps ++ [p]) c (drop 4 stale)).
  rewrite !next_of_image by assumption.
  rewrite !commit_of_image by (unfold int32; lia).
  rewrite !size_image, !total_length_concat, fits_concat_snoc.
  split; [apply write_run; [exact Hf'|exact Hne]|].
  split; [split; [exact Hf'|]; split; [exact Hc|]; eexists; reflexivity|].
  split; [rewrite length_app; simpl; lia|].
  split; [reflexivity|]. split; [reflexivity|].
  split.
  - apply read_run; [exact Hf'|]. rewrite lookup_app_r by lia.
    rewrite Nat.sub_diag. reflexivity.
  - intros i q Hi. apply read_run; [exact Hf'|].
    rewrite lookup_app_l by (eapply lookup_lt_Some; eassumption). exact Hi.
Qed.

Lemma write_appends_witness :
  let w := image [["a"; "b"]]%byte (-1) [] in
  exists w',
    WriteAheadLog.write (JBuffer ["c"]%byte) w = (Resolved 1, w') /\
    next_of w' = 2 /\
    WriteAheadLog.size w' = 3 /\
    WriteAheadLog.read 1 w' = (Resolved ["c"]%byte, w').
Proof.
  intros w.
  destruct (write_appends [["a"; "b"]]%byte (-1) w ["c"]%byte)
    as (w' & Hw & _ & Hn & _ & Hs & Hr & _).
  - split; [unfold fits; simpl; lia|]. split; [lia|]. exists []. reflexivity.
  - unfold fits. simpl. lia.
  - discriminate.
  - exists w'. split; [exact Hw|]. split; [exact Hn|]. split; [exact Hs|exact Hr].
Defined.

(** X10. The LSNs a truncation gives up are issued again. After
    [truncate(t)] has resolved, the next [write(p)], with a non-empty
    Buffer [p], resolves with [t];
    [read(t)] then resolves with [p], not with the entry that was
    truncated, [next] is t + 1, the size is the size [truncate] resolved
    with plus the length of [p], and the entries below [t] read as
    before. *)
Theorem truncated_lsn_is_reissued (ps : list (list byte)) (c : Z) (w : WriteAheadLog.t)
    (t : nat) (p : list byte) :
  Represents ps c w -> c < Z.of_nat t < Z.of_nat (length ps) ->
  fits (take t ps ++ [p]) -> p <> [] ->
  exists n w1 w2,
    WriteAheadLog.truncate (Z.of_nat t) w = (Resolved n, w1) /\
    WriteAheadLog.write (JBuffer p) w1 = (Resolved (Z.of_nat t), w2) /\
    Represents (take t ps ++ [p]) c w2 /\
    next_of w2 = Z.of_nat t + 1 /\
    WriteAheadLog.size w2 = n + Z.of_nat (length p) /\
    WriteAheadLog.read (Z.of_nat t) w2 = (Resolved p, w2) /\
    forall i q, (i < t)%nat -> ps !! i = Some q ->
      WriteAheadLog.read (Z.of_nat i) w2 = (Resolved q, w2).
Proof.
  intros (Hf & Hc & stale & ->) Ht Hf' Hne.
  assert (Hlen : length (take t ps) = t) by (rewrite length_take; lia).
  eexists _, _, _.
  split; [apply truncate_wal_run; [exact Hf|unfold int32; lia|exact Ht]|].
  split.
  { rewrite write_run by (exact Hf' || exact Hne). rewrite Hlen. reflexivity. }
  split; [split; [exact Hf'|]; split; [exact Hc|]; eexists; reflexivity|].
  split; [rewrite next_of_image by exact Hf'; rewrite length_app, Hlen; simpl; lia|].
  split; [rewrite size_image, total_length_concat, fits_concat_snoc; reflexivity|].
  split.
  - apply read_run; [exact Hf'|]. rewrite lookup_app_r by lia.
    rewrite Hlen, Nat.sub_diag. reflexivity.
  - intros i q Hi Hq. apply read_run; [exact Hf'|].
    rewrite lookup_app_l by lia. rewrite lookup_take_lt by exact Hi. exact Hq.
Qed.

Lemma truncated_lsn_is_reissued_witness :
  let w := image [["a"; "b"]; ["c"]; ["d"; "e"; "f"]]%byte 0 [] in
  exists n w1 w2,
    WriteAheadLog.truncate 1 w = (Resolved n, w1) /\
    WriteAheadLog.write (JBuffer ["x"; "y"]%byte) w1 = (Resolved 1, w2) /\
    next_of w2 = 2 /\
    WriteAheadLog.read 1 w2 = (Resolved ["x"; "y"]%byte, w2).
Proof.
  intros w.
  destruct (truncated_lsn_is_reissued [["a"; "b"]; ["c"]; ["d"; "e"; "f"]]%byte 0 w 1
              ["x"; "y"]%byte)
    as (n & w1 & w2 & Ht & Hw & _ & Hn & _ & Hr & _).
  - split; [unfold fits; simpl; lia|]. split; [lia|]. exists []. reflexivity.
  - simpl. lia.
  - unfold fits. simpl. lia.
  - discriminate.
  - exists n, w1, w2. split; [exact Ht|]. split; [exact Hw|]. split; [exact Hn|exact Hr].
Defined.

Lemma get_out_of_range h c tail L :
  int32 h -> h <= L ->
  LogIndexFile.get L (index_of h c tail)
  = (Thrown (AssertionError "index out of range"), index_of h c tail).
Proof.
  intros Hh HL. unfold LogIndexFile.get. exec.
  unfold assert_ok. rewrite (proj2 (Z.ltb_ge L h)) by lia. reflexivity.
Qed.

Lemma getRange_out_of_range h c tail L count :
  int32 h -> h <= L ->
  LogIndexFile.getRange L count (index_of h c tail)
  = (Thrown (AssertionError "index out of range"), index_of h c tail).
Proof.
  intros Hh HL. unfold LogIndexFile.getRange. exec.
  unfold assert_ok. rewrite (proj2 (Z.ltb_ge L h)) by lia. reflexivity.
Qed.

Lemma getRange_count_out_of_range h c tail L count :
  int32 h -> L < h -> h - L < count ->
  LogIndexFile.getRange L count (index_of h c tail)
  = (Thrown (AssertionError "count puts index out of range"), index_of h c tail).
Proof.
  intros Hh HL Hcount. unfold LogIndexFile.getRange. exec.
  unfold assert_ok. rewrite (proj2 (Z.leb_gt count (h - L))) by lia. reflexivity.
Qed.

(** X11. Reads at or past the write head are refused before a promise or
    a stream is returned, and the log is left as it is: for L >= next,
    [read(L)] and [readRange(L, count)], with any count or none, throw
    AssertionError 'index out of range'; and for first < next and
    count > next - first, [readRange(first, count)] throws AssertionError
    'count puts index out of range'. *)
Theorem reads_past_write_head (ps : list (list byte)) (c : Z) (w : WriteAheadLog.t) :
  Represents ps c w ->
  (forall L, Z.of_nat (length ps) <= L ->
     WriteAheadLog.read L w = (Thrown (AssertionError "index out of range"), w) /\
     forall count,
       WriteAheadLog.readRange L count w
       = (Thrown (AssertionError "index out of range"), w)) /\
  (forall first count, first < Z.of_nat (length ps) ->
     Z.of_nat (length ps) - first < count ->
     WriteAheadLog.readRange first (Some count) w
     = (Thrown (AssertionError "count puts index out of range"), w)).
Proof.
  intros (Hf & Hc & stale & ->).
  pose proof (fits_int32_length _ Hf) as Hn.
  split.
  - intros L HL. split.
    + unfold WriteAheadLog.read. erewrite then_thrown; [reflexivity|].
      apply on_index_run, get_out_of_range; assumption.
    + intros [count|]; unfold WriteAheadLog.readRange.
      * erewrite bind_run by reflexivity.
        unfold image. erewrite on_index_run by (apply getRange_out_of_range; assumption).
        reflexivity.
      * erewrite bind_run.
        2: { erewrite bind_run by (apply on_index_run, head_run, Hn). reflexivity. }
        unfold image. erewrite on_index_run by (apply getRange_out_of_range; assumption).
        reflexivity.
  - intros first count Hfirst Hcount. unfold WriteAheadLog.readRange.
    erewrite bind_run by reflexivity.
    unfold image. erewrite on_index_run by (apply getRange_count_out_of_range; assumption).
    reflexivity.
Qed.

Lemma reads_past_write_head_witness :
  let w := image [["a"; "b"]; ["c"]]%byte 0 [] in
  WriteAheadLog.read 2 w = (Thrown (AssertionError "index out of range"), w) /\
  WriteAheadLog.readRange 5 None w = (Thrown (AssertionError "index out of range"), w) /\
  WriteAheadLog.readRange 1 (Some 2) w
  = (Thrown (AssertionError "count puts index out of range"), w).
Proof.
  intros w.
  destruct (reads_past_write_head [["a"; "b"]; ["c"]]%byte 0 w) as (Hpast & Hcount).
  - split; [unfold fits; simpl; lia|]. split; [lia|]. exists []. reflexivity.
  - split; [apply (Hpast 2); simpl; lia|].
    split; [apply (Hpast 5); simpl; lia|].
    apply Hcount; simpl; lia.
Defined.

(** ** Recovery with any handler *)

Lemma first_declined_ge h ps : forall k, (k <= first_declined h k ps)%nat.
Proof.
  induction ps as [|p ps IH]; intros k; simpl; [lia|].
  destruct (answer _) as [[|]|]; [specialize (IH (S k))| |]; lia.
Qed.

Lemma settle_idem {S B} (r : outcome B * S) : settle (settle r) = settle r.
Proof. destruct r as [[| | |] s]; reflexivity. Qed.

Lemma take_entries_snoc ps p : forall m k,
  ps !! (k + m)%nat = Some p ->
  take (S m) (entries_from k ps)
  = take m (entries_from k ps) ++ [(Z.of_nat (k + m), p)].
Proof.
  induction m as [|m IH]; intros k Hp.
  - rewrite Nat.add_0_r in *. rewrite (entries_from_cons k ps p Hp).
    rewrite firstn_cons, !take_0. reflexivity.
  - destruct (lookup_lt_is_Some_2 ps k) as [pk Hk].
    { apply lookup_lt_Some in Hp. lia. }
    rewrite (entries_from_cons k ps pk Hk).
    rewrite (firstn_cons (S m)), (firstn_cons m).
    rewrite (IH (S k)) by (rewrite <- Hp; f_equal; lia).
    replace (S k + m)%nat with (k + S m)%nat by lia. reflexivity.
Qed.

(** The entries the handler accepts are committed one after the other;
    what the chain of callbacks yields is what it yields at the first
    entry [j] that is not accepted. *)
Lemma possiblyRecover_chain h ps stale (j : nat)
    (res : list (Z * list byte) -> outcome unit * WriteAheadLog.recovery) :
  fits ps -> (j < length ps)%nat ->
  (forall cs b,
     WriteAheadLog.possiblyRecover (S b) h (Z.of_nat (length ps)) (Z.of_nat j)
       (recovering (image ps (Z.of_nat j - 1) stale) cs) = res cs) ->
  (forall cs, settle (res cs) = res cs) ->
  forall m k cs budget,
    (k + m = j)%nat ->
    first_declined h k (drop k ps) = j ->
    (S m <= budget)%nat ->
    WriteAheadLog.possiblyRecover budget h (Z.of_nat (length ps)) (Z.of_nat k)
      (recovering (image ps (Z.of_nat k - 1) stale) cs)
    = res (cs ++ take m (entries_from k ps)).
Proof.
  intros Hf Hjl Hres Hsettle. induction m as [|m IH]; intros k cs budget Hkm Hj Hb.
  all: destruct budget as [|budget]; [lia|].
  - rewrite Nat.add_0_r in Hkm. subst k. rewrite take_0, app_nil_r. apply Hres.
  - destruct (lookup_lt_is_Some_2 ps k ltac:(lia)) as [p Hp].
    pose proof (fits_int32_length _ Hf) as Hn.
    rewrite (drop_S _ _ _ Hp) in Hj. cbn [first_declined] in Hj.
    assert (Hacc : answer (h (Z.of_nat k) p) = Some true).
    { destruct (answer (h (Z.of_nat k) p)) as [[|]|]; [reflexivity|lia|lia]. }
    rewrite Hacc in Hj.
    cbn [WriteAheadLog.possiblyRecover].
    erewrite then_run by (apply on_wal_run, read_run; eassumption).
    erewrite bind_run by apply call_run.
    rewrite (entries_from_cons k ps p Hp), firstn_cons.
    assert (Hstep :
      ((WriteAheadLog.on_wal (WriteAheadLog.commit (Z.of_nat k)))
       .then (fun committed =>
                if committed + 1 <? Z.of_nat (length ps)
                then WriteAheadLog.possiblyRecover budget h (Z.of_nat (length ps)) (committed + 1)
                else WriteAheadLog.truncAfterCommitHead))
        (recovering (image ps (Z.of_nat k - 1) stale) (cs ++ [(Z.of_nat k, p)]))
      = res (cs ++ (Z.of_nat k, p) :: take m (entries_from (S k) ps))).
    { erewrite then_run
        by (apply on_wal_run, commit_wal_run; unfold int32 in *; lia).
      rewrite (proj2 (Z.ltb_lt (Z.of_nat k + 1) (Z.of_nat (length ps)))) by lia.
      replace (Z.of_nat k + 1) with (Z.of_nat (S k)) by lia.
      replace (Z.of_nat k) with (Z.of_nat (S k) - 1) at 1 by lia.
      rewrite (IH (S k)) by lia.
      rewrite <- app_assoc. apply Hsettle. }
    destruct (h (Z.of_nat k) p) as [[|]|[|]| | |]; try discriminate.
    + rewrite Hstep. apply Hsettle.
    + erewrite then_run by reflexivity. rewrite settle_idem, Hstep. apply Hsettle.
Qed.

Lemma possiblyRecover_declines_here h ps stale k p cs b :
  fits ps -> ps !! k = Some p -> answer (h (Z.of_nat k) p) = Some false ->
  WriteAheadLog.possiblyRecover (S b) h (Z.of_nat (length ps)) (Z.of_nat k)
    (recovering (image ps (Z.of_nat k - 1) stale) cs)
  = (Resolved tt,
     recovering (image (take k ps) (Z.of_nat k - 1)
                   (slots (drop (S k) (offsets 0 ps)) ++ stale))
       (cs ++ [(Z.of_nat k, p)])).
Proof.
  intros Hf Hp Hans. pose proof (lookup_lt_Some _ _ _ Hp) as Hlt.
  cbn [WriteAheadLog.possiblyRecover].
  erewrite then_run by (apply on_wal_run, read_run; eassumption).
  erewrite bind_run by apply call_run.
  destruct (h (Z.of_nat k) p) as [[|]|[|]| | |]; try discriminate.
  - apply settle_resolved. apply truncAfterCommitHead_run; (assumption || lia).
  - apply settle_resolved. erewrite then_run by reflexivity.
    apply settle_resolved. apply truncAfterCommitHead_run; (assumption || lia).
Qed.

Lemma possiblyRecover_refused_here h ps stale k p e cs b :
  fits ps -> ps !! k = Some p -> refusal (h (Z.of_nat k) p) = Some e ->
  WriteAheadLog.possiblyRecover (S b) h (Z.of_nat (length ps)) (Z.of_nat k)
    (recovering (image ps (Z.of_nat k - 1) stale) cs)
  = (Rejected e,
     recovering (image ps (Z.of_nat k - 1) stale) (cs ++ [(Z.of_nat k, p)])).
Proof.
  intros Hf Hp Href.
  cbn [WriteAheadLog.possiblyRecover].
  erewrite then_run by (apply on_wal_run, read_run; eassumption).
  erewrite bind_run by apply call_run.
  destruct (h (Z.of_nat k) p) as [[|]|[|]| |e'|e']; try discriminate;
    injection Href as <-; reflexivity.
Qed.

(** X12. Recovery stops at the first entry the handler declines. On a log
    with commit head [c] and entries after it, let [j] be the first LSN
    after [c] whose entry the handler does not accept, let its answer
    there be falsy, given at once by a value other than [null] or
    through a thenable that resolves with a falsy value, and let the
    budget cover the j - c callbacks. Then [recover(handler)] resolves;
    the handler has been called exactly for the LSNs c + 1, ..., j, in
    this order and each with the payload of its entry; the entries before
    [j] are committed and the entries from [j] on are gone: next = j,
    commit = j - 1, and the size is the total length of the entries
    kept. *)
Theorem recover_stops_at_first_declined (ps : list (list byte)) (c : Z)
    (w : WriteAheadLog.t) (h : Z -> list byte -> WriteAheadLog.decision) (budget : nat) :
  Represents ps c w -> c + 1 < Z.of_nat (length ps) ->
  let k := Z.to_nat (c + 1) in
  let j := first_declined h k (drop k ps) in
  (j < length ps)%nat ->
  (forall p, ps !! j = Some p -> answer (h (Z.of_nat j) p) = Some false) ->
  (S j - k <= budget)%nat ->
  exists w',
    WriteAheadLog.recover budget (WriteAheadLog.Callable h) (recovering w [])
    = (Resolved tt, recovering w' (take (S j - k) (entries_from k ps))) /\
    Represents (take j ps) (Z.of_nat j - 1) w' /\
    next_of w' = Z.of_nat j /\
    commit_of w' = Z.of_nat j - 1 /\
    WriteAheadLog.size w' = total_length (take j ps).
Proof.
  intros (Hf & Hc & stale & ->) Hlt k j Hj Hfalsy Hb.
  pose proof (first_declined_ge h (drop k ps) k) as Hge. fold j in Hge.
  assert (Hfj : fits (take j ps)) by apply fits_take, Hf.
  assert (Hlen : length (take j ps) = j) by (rewrite length_take; lia).
  destruct (lookup_lt_is_Some_2 ps j Hj) as [p Hp].
  exists (image (take j ps) (Z.of_nat j - 1) (slots (drop (S j) (offsets 0 ps)) ++ stale)).
  split.
  - rewrite recover_start by (exact Hf || (unfold int32; lia)).
    rewrite (proj2 (Z.ltb_lt _ _) Hlt).
    replace (c + 1) with (Z.of_nat k) by lia.
    replace c with (Z.of_nat k - 1) at 1 by lia.
    rewrite (possiblyRecover_chain h ps stale j
               (fun cs => (Resolved tt,
                           recovering (image (take j ps) (Z.of_nat j - 1)
                                         (slots (drop (S j) (offsets 0 ps)) ++ stale))
                             (cs ++ [(Z.of_nat j, p)]))) Hf Hj) with (m := (j - k)%nat).
    + cbn [app]. f_equal. f_equal.
      replace (S j - k)%nat with (S (j - k)) by lia.
      rewrite (take_entries_snoc ps p (j - k) k) by (rewrite <- Hp; f_equal; lia).
      replace (k + (j - k))%nat with j by lia. reflexivity.
    + intros cs b. apply possiblyRecover_declines_here; [exact Hf|exact Hp|].
      apply Hfalsy, Hp.
    + reflexivity.
    + lia.
    + reflexivity.
    + lia.
  - pose proof (fits_int32_length _ Hf) as Hn. unfold int32 in Hn.
    assert (Hj' : Z.of_nat j < 2 ^ 31 - 1) by (destruct Hf; lia).
    split; [split; [exact Hfj|]; split; [lia|]; eexists; reflexivity|].
    split; [rewrite next_of_image by exact Hfj; lia|].
    split; [apply commit_of_image; unfold int32; lia|].
    apply size_image.
Qed.

Lemma recover_stops_at_first_declined_witness :
  let ps := [["a"]; ["b"; "c"]; ["d"]; ["e"; "f"]]%byte in
  let h := fun (i : Z) (_ : list byte) =>
             if i <? 2 then WriteAheadLog.Later true else WriteAheadLog.Now false in
  exists w',
    WriteAheadLog.recover 2 (WriteAheadLog.Callable h) (recovering (image ps 0 []) [])
    = (Resolved tt, recovering w' [(1, ["b"; "c"]%byte); (2, ["d"]%byte)]) /\
    next_of w' = 2 /\ commit_of w' = 1 /\ WriteAheadLog.size w' = 3.
Proof.
  intros ps h.
  destruct (recover_stops_at_first_declined ps 0 (image ps 0 []) h 2)
    as (w' & Hr & _ & Hn & Hc & Hs).
  - split; [unfold fits; simpl; lia|]. split; [lia|]. exists []. reflexivity.
  - simpl. lia.
  - simpl. lia.
  - intros p _. reflexivity.
  - simpl. lia.
  - exists w'. split; [exact Hr|]. split; [exact Hn|]. split; [exact Hc|exact Hs].
Defined.

(** X13. With no entry after the commit head (a new log, or a log whose
    entries are all committed) [recover(handler)] resolves at once,
    whatever the handler and the budget: the handler is not called and
    the log is left as it is. *)
Theorem recover_nothing_uncommitted (ps : list (list byte)) (c : Z) (w : WriteAheadLog.t)
    (h : Z -> list byte -> WriteAheadLog.decision) (budget : nat) :
  Represents ps c w -> Z.of_nat (length ps) <= c + 1 ->
  WriteAheadLog.recover budget (WriteAheadLog.Callable h) (recovering w [])
  = (Resolved tt, recovering w []).
Proof.
  intros (Hf & Hc & stale & ->) Hge.
  rewrite recover_start by (exact Hf || (unfold int32; lia)).
  rewrite (proj2 (Z.ltb_ge _ _) Hge). reflexivity.
Qed.

Lemma recover_nothing_uncommitted_witness :
  WriteAheadLog.recover 0 (WriteAheadLog.Callable (fun _ _ => WriteAheadLog.Now true))
    (recovering (image [] (-1) []) [])
  = (Resolved tt, recovering (image [] (-1) []) []).
Proof.
  apply (recover_nothing_uncommitted [] (-1)).
  - split; [unfold fits; simpl; lia|]. split; [lia|]. exists []. reflexivity.
  - simpl. lia.
Defined.

(** X14. A handler that gives no answer makes recovery fail and truncates
    nothing. On a log with commit head [c] and entries after it, let [j]
    be the first LSN after [c] whose entry the handler does not accept,
    and let the handler there return [null], throw, or return a thenable
    that rejects. Then [recover(handler)] rejects: with a TypeError for
    [null], whose [then] cannot be read, and with the error thrown or the
    reason of the rejection otherwise. The handler has been called
    exactly for the LSNs c + 1, ..., j; the entries before [j] are
    committed, and every entry is still there: next and size are as
    before, commit = j - 1. A [null] returned at once is thus not the
    falsy answer that a thenable resolving with [null] is (X12). *)
Theorem recover_rejects_without_answer (ps : list (list byte)) (c : Z)
    (w : WriteAheadLog.t) (h : Z -> list byte -> WriteAheadLog.decision)
    (p : list byte) (e : error) (budget : nat) :
  Represents ps c w -> c + 1 < Z.of_nat (length ps) ->
  let k := Z.to_nat (c + 1) in
  let j := first_declined h k (drop k ps) in
  ps !! j = Some p ->
  refusal (h (Z.of_nat j) p) = Some e ->
  (S j - k <= budget)%nat ->
  exists w',
    WriteAheadLog.recover budget (WriteAheadLog.Callable h) (recovering w [])
    = (Rejected e, recovering w' (take (S j - k) (entries_from k ps))) /\
    Represents ps (Z.of_nat j - 1) w' /\
    next_of w' = next_of w /\
    commit_of w' = Z.of_nat j - 1 /\
    WriteAheadLog.size w' = WriteAheadLog.size w /\
    (h (Z.of_nat j) p = WriteAheadLog.Null -> e = TypeError).
Proof.
  intros (Hf & Hc & stale & ->) Hlt k j Hp Href Hb.
  pose proof (lookup_lt_Some _ _ _ Hp) as Hj.
  pose proof (first_declined_ge h (drop k ps) k) as Hge. fold j in Hge.
  pose proof (fits_int32_length _ Hf) as Hn. unfold int32 in Hn.
  assert (Hj' : Z.of_nat j < 2 ^ 31 - 1) by (destruct Hf; lia).
  exists (image ps (Z.of_nat j - 1) stale).
  split.
  - rewrite recover_start by (exact Hf || (unfold int32; lia)).
    rewrite (proj2 (Z.ltb_lt _ _) Hlt).
    replace (c + 1) with (Z.of_nat k) by lia.
    replace c with (Z.of_nat k - 1) at 1 by lia.
    rewrite (possiblyRecover_chain h ps stale j
               (fun cs => (Rejected e,
                           recovering (image ps (Z.of_nat j - 1) stale)
                             (cs ++ [(Z.of_nat j, p)]))) Hf Hj) with (m := (j - k)%nat).
    + cbn [app]. f_equal. f_equal.
      replace (S j - k)%nat with (S (j - k)) by lia.
      rewrite (take_entries_snoc ps p (j - k) k) by (rewrite <- Hp; f_equal; lia).
      replace (k + (j - k))%nat with j by lia. reflexivity.
    + intros cs b. apply possiblyRecover_refused_here; assumption.
    + reflexivity.
    + lia.
    + reflexivity.
    + lia.
  - split; [split; [exact Hf|]; split; [lia|]; eexists; reflexivity|].
    split; [rewrite !next_of_image by exact Hf; reflexivity|].
    split; [apply commit_of_image; unfold int32; lia|].
    split; [rewrite !size_image; reflexivity|].
    intros Hnull. rewrite Hnull in Href. injection Href as <-. reflexivity.
Qed.

Lemma recover_rejects_without_answer_witness :
  let ps := [["a"]; ["b"; "c"]; ["d"]; ["e"; "f"]]%byte in
  let h := fun (i : Z) (_ : list byte) =>
             if i <? 2 then WriteAheadLog.Now true else WriteAheadLog.Null in
  exists w',
    WriteAheadLog.recover 2 (WriteAheadLog.Callable h) (recovering (image ps 0 []) [])
    = (Rejected TypeError, recovering w' [(1, ["b"; "c"]%byte); (2, ["d"]%byte)]) /\
    next_of w' = 4 /\ commit_of w' = 1 /\ WriteAheadLog.size w' = 6.
Proof.
  intros ps h.
  destruct (recover_rejects_without_answer ps 0 (image ps 0 []) h ["d"]%byte TypeError 2)
    as (w' & Hr & _ & Hn & Hc & Hs & _).
  - split; [unfold fits; simpl; lia|]. split; [lia|]. exists []. reflexivity.
  - simpl. lia.
  - reflexivity.
  - reflexivity.
  - simpl. lia.
  - exists w'. split; [exact Hr|]. split; [exact Hn|]. split; [exact Hc|exact Hs].
Defined.

(** ** Committing ahead of the write head; closed logs *)

(** X15. [commit] never consults the write head. On a log whose entries
    are all committed, [commit(next)] resolves, and the commit head then
    equals the write head. The entry written next, a non-empty Buffer,
    receives that LSN and counts as committed: [truncate] of it throws 'cannot truncate a
    committed log entry', and [recover] resolves without offering it to
    the handler. *)
Theorem commit_ignores_write_head (ps : list (list byte)) (c : Z) (w : WriteAheadLog.t)
    (p : list byte) :
  Represents ps c w -> c + 1 = Z.of_nat (length ps) -> fits (ps ++ [p]) -> p <> [] ->
  exists w1 w2,
    WriteAheadLog.commit (c + 1) w = (Resolved (c + 1), w1) /\
    commit_of w1 = c + 1 /\
    next_of w1 = c + 1 /\
    WriteAheadLog.write (JBuffer p) w1 = (Resolved (c + 1), w2) /\
    WriteAheadLog.truncate (c + 1) w2
    = (Thrown (AssertionError "cannot truncate a committed log entry"), w2) /\
    forall budget h,
      WriteAheadLog.recover budget (WriteAheadLog.Callable h) (recovering w2 [])
      = (Resolved tt, recovering w2 []).
Proof.
  intros (Hf & Hc & stale & ->) Hall Hf' Hne.
  assert (Hn : Z.of_nat (length (ps ++ [p])) = c + 2) by (rewrite length_app; simpl; lia).
  assert (Hc' : int32 (c + 1)) by (destruct Hf'; unfold int32; lia).
  exists (image ps (c + 1) stale), (image (ps ++ [p]) (c + 1) (drop 4 stale)).
  split; [apply commit_wal_run; [unfold int32; lia|exact Hc'|reflexivity]|].
  split; [apply commit_of_image, Hc'|].
  split; [rewrite next_of_image by exact Hf; lia|].
  split; [rewrite write_run by (exact Hf' || exact Hne); rewrite <- Hall; reflexivity|].
  split; [apply truncate_committed; [exact Hc'|lia]|].
  intros budget h. rewrite recover_start by assumption.
  rewrite (proj2 (Z.ltb_ge _ _)) by lia. reflexivity.
Qed.

Lemma commit_ignores_write_head_witness :
  exists w1 w2,
    WriteAheadLog.commit 0 (image [] (-1) []) = (Resolved 0, w1) /\
    commit_of w1 = 0 /\ next_of w1 = 0 /\
    WriteAheadLog.write (JBuffer ["a"]%byte) w1 = (Resolved 0, w2) /\
    WriteAheadLog.truncate 0 w2
    = (Thrown (AssertionError "cannot truncate a committed log entry"), w2).
Proof.
  destruct (commit_ignores_write_head [] (-1) (image [] (-1) []) ["a"]%byte)
    as (w1 & w2 & Hc & Hcm & Hn & Hw & Ht & _).
  - split; [unfold fits; simpl; lia|]. split; [lia|]. exists []. reflexivity.
  - reflexivity.
  - unfold fits. simpl. lia.
  - discriminate.
  - exists w1, w2. split; [exact Hc|]. split; [exact Hcm|]. split; [exact Hn|].
    split; [exact Hw|exact Ht].
Defined.

Lemma index_close_resolved idx idx' :
  LogIndexFile.close idx = (Resolved tt, idx') -> LogIndexFile.header idx' = None.
Proof.
  unfold LogIndexFile.close, and_then, LogIndexFile.on_file, zoom, RandomAccessFile.close.
  simpl. intros H. injection H as <-. reflexivity.
Qed.

(** X16. A closed log refuses every operation. After [close()] has
    resolved, both files are closed, and [next], [commitHead],
    [isCommitted], [commit], [write], [read], [truncate], [readRange] and
    [recover] each throw AssertionError 'index must be open' and change
    nothing; [recover] with an argument that is neither [false] nor a
    function throws 'handler (function) is required', as it does on an
    open log. *)
Theorem closed_log_refuses (w w' : WriteAheadLog.t) :
  WriteAheadLog.close w = (Resolved tt, w') ->
  RandomAccessFile.descriptor (WriteAheadLog.file w') = false /\
  RandomAccessFile.descriptor (LogIndexFile.file (WriteAheadLog.index w')) = false /\
  WriteAheadLog.next w' = (Thrown (AssertionError "index must be open"), w') /\
  WriteAheadLog.commitHead w' = (Thrown (AssertionError "index must be open"), w') /\
  (forall L, WriteAheadLog.isCommitted L w'
             = (Thrown (AssertionError "index must be open"), w')) /\
  (forall L, WriteAheadLog.commit L w'
             = (Thrown (AssertionError "index must be open"), w')) /\
  (forall data, WriteAheadLog.write data w'
                = (Thrown (AssertionError "index must be open"), w')) /\
  (forall L, WriteAheadLog.read L w'
             = (Thrown (AssertionError "index must be open"), w')) /\
  (forall T, WriteAheadLog.truncate T w'
             = (Thrown (AssertionError "index must be open"), w')) /\
  (forall first count, WriteAheadLog.readRange first count w'
                       = (Thrown (AssertionError "index must be open"), w')) /\
  (forall budget h cs,
     WriteAheadLog.recover budget (WriteAheadLog.Callable h) (recovering w' cs)
     = (Thrown (AssertionError "index must be open"), recovering w' cs)) /\
  (forall budget cs,
     WriteAheadLog.recover budget WriteAheadLog.LiteralFalse (recovering w' cs)
     = (Thrown (AssertionError "index must be open"), recovering w' cs)) /\
  (forall budget cs,
     WriteAheadLog.recover budget WriteAheadLog.NotCallable (recovering w' cs)
     = (Thrown (AssertionError "handler (function) is required"), recovering w' cs)).
Proof.
  intros Hclose.
  assert (H : LogIndexFile.header (WriteAheadLog.index w') = None /\
              RandomAccessFile.descriptor (WriteAheadLog.file w') = false /\
              RandomAccessFile.descriptor (LogIndexFile.file (WriteAheadLog.index w')) = false).
  { unfold WriteAheadLog.close in Hclose.
    destruct (RandomAccessFile.close (WriteAheadLog.file w)) as [[[]| | |] f] eqn:Hf;
      destruct (LogIndexFile.close (WriteAheadLog.index w)) as [[[]| | |] i] eqn:Hi;
      try discriminate.
    injection Hclose as <-. cbn [WriteAheadLog.index WriteAheadLog.file].
    split; [eapply index_close_resolved; eassumption|].
    unfold RandomAccessFile.close in Hf. injection Hf as <-.
    unfold LogIndexFile.close, and_then, LogIndexFile.on_file, zoom, RandomAccessFile.close in Hi.
    simpl in Hi. injection Hi as <-.
    repeat split. }
  destruct H as (Hhdr & Hd1 & Hd2).
  destruct w' as [f [fi hd]]. cbn in Hhdr. subst hd.
  split; [exact Hd1|]. split; [exact Hd2|].
  repeat split; try reflexivity.
  intros first [count|]; reflexivity.
Qed.

Lemma closed_log_refuses_witness :
  exists w',
    WriteAheadLog.close (image [["a"]]%byte (-1) []) = (Resolved tt, w') /\
    WriteAheadLog.next w' = (Thrown (AssertionError "index must be open"), w') /\
    WriteAheadLog.write (JBuffer ["b"]%byte) w'
    = (Thrown (AssertionError "index must be open"), w').
Proof.
  eexists. split; [reflexivity|].
  destruct (closed_log_refuses (image [["a"]]%byte (-1) []) _ eq_refl)
    as (_ & _ & Hn & _ & _ & _ & Hw & _).
  split; [exact Hn|apply Hw].
Defined.

(** ** Opening a log *)

Ltac split_ifs :=
  repeat match goal with
  | |- context [if ?b then _ else _] =>
      destruct b;
      cbn -[Buffer.readInt32BE Buffer.slice Z.ltb Z.add Z.mul Z.sub Z.to_nat Z.of_nat]
  end.

Lemma read_read_only (w : WriteAheadLog.t) (L : Z) :
  WriteAheadLog.read L (read_only w)
  = (fst (WriteAheadLog.read L w), read_only (snd (WriteAheadLog.read L w))).
Proof.
  destruct w as [[c d wr] [[ic id iwr] [hd|]]]; [|reflexivity].
  unfold WriteAheadLog.read, WriteAheadLog.on_index, WriteAheadLog.on_log,
    LogIndexFile.get, LogIndexFile.head, LogIndexFile.localizeIndex,
    LogIndexFile.baseIndex, LogIndexFile.open_header, assert_ok,
    LogIndexFile.on_file, RandomAccessFile.read, read_only.
  unfold and_then, bind, zoom, ret, throw, settle, RandomAccessFile.size.
  destruct d, id;
    cbn -[Buffer.readInt32BE Buffer.slice Z.ltb Z.add Z.mul Z.sub Z.to_nat Z.of_nat];
    split_ifs; reflexivity.
Qed.

Lemma marker_of_header h c (tail : list byte) :
  LogIndexFile.toString_ascii (header_bytes 0 h c ++ tail) 0 4 = "IDX$"%string.
Proof. reflexivity. Qed.

Lemma open_image ps c stale writable :
  WriteAheadLog.open (Some (concat ps))
    (Some (header_bytes 0 (Z.of_nat (length ps)) c ++ slots (offsets 0 ps) ++ stale)) writable
  = Resolved (if truthy writable then image ps c stale else read_only (image ps c stale)).
Proof.
  unfold WriteAheadLog.open. rewrite open_path_run.
  rewrite length_app, header_length.
  rewrite (proj2 (Z.ltb_ge _ 16)) by lia.
  rewrite marker_of_header. cbn [String.eqb Ascii.eqb Bool.eqb].
  unfold RandomAccessFile.open_path.
  destruct (truthy writable); reflexivity.
Qed.

(** X17. Closing and opening again restores the log. On every log that
    holds entries [close()] resolves, and [open] on the bytes the two
    files then hold resolves, with [writable: true], with the log as it
    was before [close]: the same entries, write head, commit head and
    size. Without [writable: true] it resolves with a read-only handle
    on which [next], [commitHead] and [size] are as before and [read(i)]
    resolves with the i-th entry. *)
Theorem close_then_open_restores (ps : list (list byte)) (c : Z) (w : WriteAheadLog.t) :
  Represents ps c w ->
  exists w',
    WriteAheadLog.close w = (Resolved tt, w') /\
    let log_disk := Some (RandomAccessFile.content (WriteAheadLog.file w')) in
    let index_disk :=
      Some (RandomAccessFile.content (LogIndexFile.file (WriteAheadLog.index w'))) in
    WriteAheadLog.open log_disk index_disk (Some true) = Resolved w /\
    (forall writable, truthy writable = false ->
       WriteAheadLog.open log_disk index_disk writable = Resolved (read_only w)) /\
    next_of (read_only w) = next_of w /\
    commit_of (read_only w) = commit_of w /\
    WriteAheadLog.size (read_only w) = WriteAheadLog.size w /\
    forall i p, ps !! i = Some p ->
      WriteAheadLog.read (Z.of_nat i) (read_only w) = (Resolved p, read_only w).
Proof.
  intros (Hf & Hc & stale & ->).
  eexists. split; [reflexivity|].
  cbn [image index_of opened WriteAheadLog.file WriteAheadLog.index LogIndexFile.file
       RandomAccessFile.content].
  split; [apply (open_image ps c stale (Some true))|].
  split.
  { intros writable Hw. rewrite (open_image ps c stale writable), Hw. reflexivity. }
  split; [reflexivity|]. split; [reflexivity|]. split; [reflexivity|].
  intros i p Hi. rewrite read_read_only.
  rewrite (read_run ps c stale i p Hf Hi). reflexivity.
Qed.

Lemma close_then_open_restores_witness :
  let w := image [["a"; "b"]; ["c"]]%byte 0 [] in
  exists w',
    WriteAheadLog.close w = (Resolved tt, w') /\
    WriteAheadLog.open (Some (RandomAccessFile.content (WriteAheadLog.file w')))
      (Some (RandomAccessFile.content (LogIndexFile.file (WriteAheadLog.index w'))))
      (Some true)
    = Resolved w /\
    WriteAheadLog.read 1 (read_only w) = (Resolved ["c"]%byte, read_only w).
Proof.
  intros w.
  destruct (close_then_open_restores [["a"; "b"]; ["c"]]%byte 0 w)
    as (w' & Hc & Ho & _ & _ & _ & _ & Hr).
  - split; [unfold fits; simpl; lia|]. split; [lia|]. exists []. reflexivity.
  - exists w'. split; [exact Hc|]. split; [exact Ho|]. apply (Hr 1%nat). reflexivity.
Defined.

(** X18. [openOrCreate] creates only a log that does not exist and is
    wanted writable. When [open] resolves, it resolves with the same log;
    when neither file exists and [writable] is [true], it resolves with
    the log [create] makes, which is empty; when the log file does not
    exist and [writable] is not [true], it rejects with the code ENOENT;
    and when the log file exists and the index file fails validation, it
    rejects with the error of the validation, writable or not. *)
Theorem openOrCreate_falls_back (log_disk index_disk : option (list byte))
    (writable : option bool) :
  (forall w, WriteAheadLog.open log_disk index_disk writable = Resolved w ->
     WriteAheadLog.openOrCreate log_disk index_disk writable = Resolved w) /\
  (log_disk = None -> index_disk = None -> writable = Some true ->
   WriteAheadLog.openOrCreate log_disk index_disk writable = WriteAheadLog.create /\
   WriteAheadLog.create = Resolved (image [] (-1) [])) /\
  (log_disk = None -> truthy writable = false ->
   WriteAheadLog.openOrCreate log_disk index_disk writable
   = Rejected (SystemError "ENOENT")) /\
  (forall lg ix msg, log_disk = Some lg -> index_disk = Some ix ->
     LogIndexFile.open_path index_disk writable = Rejected (Error msg) ->
     WriteAheadLog.openOrCreate log_disk index_disk writable = Rejected (Error msg)).
Proof.
  split; [|split; [|split]].
  - intros w Hw. unfold WriteAheadLog.openOrCreate. rewrite Hw. reflexivity.
  - intros -> -> ->. split; [reflexivity|apply create_image].
  - intros -> Hw. unfold WriteAheadLog.openOrCreate, WriteAheadLog.open.
    cbn [RandomAccessFile.open_path WriteAheadLog.has_code]. rewrite Hw.
    rewrite andb_false_r. reflexivity.
  - intros lg ix msg -> -> Hix. unfold WriteAheadLog.openOrCreate, WriteAheadLog.open.
    cbn [RandomAccessFile.open_path]. rewrite Hix. reflexivity.
Qed.

Lemma openOrCreate_falls_back_witness :
  WriteAheadLog.openOrCreate None None (Some true) = Resolved (image [] (-1) []) /\
  WriteAheadLog.openOrCreate None None None = Rejected (SystemError "ENOENT") /\
  WriteAheadLog.openOrCreate (Some []) (Some ["I"; "D"; "X"]%byte) (Some true)
  = Rejected (Error "File too small to be an index file.").
Proof.
  split; [|split].
  - destruct (proj1 (proj2 (openOrCreate_falls_back None None (Some true)))
                eq_refl eq_refl eq_refl) as [H1 H2].
    rewrite H1. exact H2.
  - exact (proj1 (proj2 (proj2 (openOrCreate_falls_back None None None))) eq_refl eq_refl).
  - exact (proj2 (proj2 (proj2 (openOrCreate_falls_back (Some []) (Some ["I"; "D"; "X"]%byte)
                                  (Some true))))
             [] ["I"; "D"; "X"]%byte _ eq_refl eq_refl eq_refl).
Defined.

(** ** Flow control *)





Lemma demand_after_failure more r :
  WriteAheadLog.ended r = false -> queue_wf (WriteAheadLog.ready r) ->
  exists moved,
    WriteAheadLog.stream (WriteAheadLog.demand more r)
    = WriteAheadLog.stream r ++ pushed moved /\
    waiting (WriteAheadLog.ready r)
    = moved ++ waiting (WriteAheadLog.ready (WriteAheadLog.demand more r)) /\
    WriteAheadLog.ended (WriteAheadLog.demand more r) = false /\
    WriteAheadLog.reading (WriteAheadLog.demand more r) = WriteAheadLog.reading r /\
    queue_wf (WriteAheadLog.ready (WriteAheadLog.demand more r)).
Proof.
  intros Hend Hwf. unfold WriteAheadLog.demand.
  destruct (Readable.finished (WriteAheadLog.stream r)).
  { exists []. rewrite app_nil_r. auto. }
  unfold WriteAheadLog.clearToSend.
  match goal with |- context [WriteAheadLog.sendUntilPaused more ?r1] =>
    destruct (sendUntilPaused_spec more r1 Hwf)
      as (moved & rest & Hsplit & Hwt & Hwf' & He & _ & Hrd & _ & _ & _ & Hcase)
  end.
  cbn [WriteAheadLog.ready WriteAheadLog.stream WriteAheadLog.ended
         WriteAheadLog.range WriteAheadLog.reading WriteAheadLog.sending] in *.
  destruct Hcase as [(Hcontra & _) | (_ & Hst)]; [congruence|].
  exists moved. rewrite Hwt. repeat split; try assumption; congruence.
Qed.

Lemma run_after_failure more lg schedule : forall r,
  WriteAheadLog.reading r = false -> WriteAheadLog.ended r = false ->
  queue_wf (WriteAheadLog.ready r) ->
  exists moved,
    WriteAheadLog.stream (WriteAheadLog.run more lg schedule r)
    = WriteAheadLog.stream r ++ pushed moved /\
    moved `prefix_of` waiting (WriteAheadLog.ready r).
Proof.
  induction schedule as [|k schedule IH]; intros r Hrd Hend Hwf.
  { exists []. rewrite app_nil_r. split; [reflexivity|apply prefix_nil]. }
  cbn [WriteAheadLog.run foldl].
  change (foldl (WriteAheadLog.step more lg) ?a ?l) with (WriteAheadLog.run more lg l a).
  destruct k; cbn [WriteAheadLog.step].
  - rewrite produce_idle by exact Hrd. apply IH; assumption.
  - destruct (demand_after_failure more r Hend Hwf) as (m1 & Hst & Hw & Hend' & Hrd' & Hwf').
    destruct (IH (WriteAheadLog.demand more r)) as (m2 & Hst2 & Hpre); [congruence|assumption..|].
    exists (m1 ++ m2). split.
    + rewrite Hst2, Hst, pushed_app, app_assoc. reflexivity.
    + rewrite Hw. apply prefix_app, Hpre.
Qed.

(** X20. A failed read ends the chain of reads. When the read of the next
    record rejects, the stream is sent [emit('error', err)] with that
    error and the chain stops. Whatever the stream asks for afterwards,
    it receives nothing but entries that were waiting in the queue, in
    their order: no further entry is read, no second error is emitted,
    and neither [push(null)] nor [emit('end')] is ever sent. *)
Theorem failed_read_ends_chain (more : Readable.t -> bool) (lg : RandomAccessFile.t)
    (r : WriteAheadLog.range_reader) (rec : LogIndexFile.range_rec)
    (rest : list LogIndexFile.range_rec) (e : error) :
  WriteAheadLog.reading r = true ->
  WriteAheadLog.range r = rec :: rest ->
  WriteAheadLog.ended r = false ->
  queue_wf (WriteAheadLog.ready r) ->
  RandomAccessFile.read (LogIndexFile.rng_offset rec) (LogIndexFile.rng_length rec) lg
  = (Rejected e, lg) ->
  let r' := WriteAheadLog.produce more lg r in
  WriteAheadLog.stream r' = WriteAheadLog.stream r ++ [Readable.Emit_error e] /\
  WriteAheadLog.reading r' = false /\
  forall schedule,
    exists moved,
      WriteAheadLog.stream (WriteAheadLog.run more lg schedule r')
      = WriteAheadLog.stream r' ++ pushed moved /\
      moved `prefix_of` waiting (WriteAheadLog.ready r).
Proof.
  intros Hrd Hrange Hend Hwf Hfail r'.
  assert (Hr' : r' = {| WriteAheadLog.sending := WriteAheadLog.sending r;
                        WriteAheadLog.ended := WriteAheadLog.ended r;
                        WriteAheadLog.ready := WriteAheadLog.ready r;
                        WriteAheadLog.stream :=
                          Readable.emit (Readable.Emit_error e) (WriteAheadLog.stream r);
                        WriteAheadLog.range := rest;
                        WriteAheadLog.reading := false |}).
  { unfold r', WriteAheadLog.produce. rewrite Hrd, Hrange, Hfail. reflexivity. }
  rewrite Hr'. cbn [WriteAheadLog.stream WriteAheadLog.reading].
  split; [reflexivity|]. split; [reflexivity|].
  intros schedule.
  match goal with |- context [WriteAheadLog.run more lg schedule ?r1] =>
    destruct (run_after_failure more lg schedule r1) as (moved & Hst & Hpre);
      [reflexivity|exact Hend|exact Hwf|]
  end.
  exists moved. split; [exact Hst|exact Hpre].
Qed.

Lemma failed_read_ends_chain_witness :
  let lg := {| RandomAccessFile.content := ["a"; "b"]%byte;
               RandomAccessFile.descriptor := false;
               RandomAccessFile.writable := true |} in
  let rec := {| LogIndexFile.rng_index := 0; LogIndexFile.rng_offset := 0;
                LogIndexFile.rng_length := 2 |} in
  let r := {| WriteAheadLog.sending := false; WriteAheadLog.ended := false;
              WriteAheadLog.ready := Queue.new; WriteAheadLog.stream := [];
              WriteAheadLog.range := [rec]; WriteAheadLog.reading := true |} in
  WriteAheadLog.stream (WriteAheadLog.produce (fun _ => true) lg r)
  = [Readable.Emit_error (SystemError "EBADF")].
Proof.
  intros lg rec r.
  exact (proj1 (failed_read_ends_chain (fun _ => true) lg r rec [] (SystemError "EBADF")
                  eq_refl eq_refl eq_refl ltac:(unfold queue_wf; simpl; lia) eq_refl)).
Defined.
